(** * ert-format-helper: splitting, stripping and encapsulating raid cooldowns

    A shallow embedding of [ert-format-helper.py] and the properties of its
    specification.

    Python strings are sequences of Unicode code points: a character is a
    code point ([N]) and a string a list of them.  The two [re] patterns of
    the script are values of a small regular-expression syntax, run by a
    backtracking matcher that explores alternatives in the order of Python's
    [re] module (greedy repetitions longest first, lazy ones shortest first).
    Files and the log are an explicit state threaded through the functions
    that touch them. *)

From Stdlib Require Import Ascii String.
From Stdlib Require Import List Bool Arith NArith Lia Permutation.
Import ListNotations.

Set Implicit Arguments.
Local Open Scope list_scope.

(* ===================================================================== *)
(** ** Characters and strings *)
(* ===================================================================== *)

Definition char := N.
Definition str := list char.

Definition chr (a : ascii) : char := N_of_ascii a.

(** [lit] turns an ASCII literal into a string of code points. *)
Definition lit (s : string) : str := map chr (list_ascii_of_string s).

Definition is_char (c : char) : char -> bool := N.eqb c.

Definition in_range (lo hi c : char) : bool := N.leb lo c && N.leb c hi.

Definition newline : char := 10%N.

Fixpoint str_eqb (a b : str) : bool :=
  match a, b with
  | [], [] => true
  | x :: a', y :: b' => N.eqb x y && str_eqb a' b'
  | _, _ => false
  end.

(** [startswith old s]: Python's [s.startswith(old)]. *)
Fixpoint startswith (old s : str) : bool :=
  match old, s with
  | [], _ => true
  | x :: old', y :: s' => N.eqb x y && startswith old' s'
  | _ :: _, [] => false
  end.

(** Python's [str.replace(old, new)]: every non-overlapping occurrence of
    [old], scanning from the left, becomes [new]; with an empty [old],
    [new] is put before every character and at the end. *)
Fixpoint replace_from (old new s : str) (skip : nat) : str :=
  match s with
  | [] => []
  | c :: s' =>
      match skip with
      | S n => replace_from old new s' n
      | O => if startswith old s
             then new ++ replace_from old new s' (length old - 1)
             else c :: replace_from old new s' 0
      end
  end.

Definition replace (old new s : str) : str :=
  match old with
  | [] => new ++ flat_map (fun c => c :: new) s
  | _ :: _ => replace_from old new s 0
  end.

(** Python's [sep.join(parts)]. *)
Fixpoint join (sep : str) (parts : list str) : str :=
  match parts with
  | [] => []
  | [p] => p
  | p :: rest => p ++ sep ++ join sep rest
  end.

(* ===================================================================== *)
(** ** Character classes of [re] on [str] patterns *)
(* ===================================================================== *)

Local Open Scope N_scope.

(** [\s]: the code points for which [str.isspace()] holds. *)
Definition is_space (c : char) : bool :=
  in_range 9 13 c || in_range 28 32 c || N.eqb c 133 || N.eqb c 160
  || N.eqb c 5760 || in_range 8192 8202 c || N.eqb c 8232 || N.eqb c 8233
  || N.eqb c 8239 || N.eqb c 8287 || N.eqb c 12288.

(** [[0-9]] *)
Definition is_digit (c : char) : bool := in_range 48 57 c.

(** [[0-9abcdefABCDEF]] *)
Definition is_hex (c : char) : bool :=
  in_range 48 57 c || in_range 97 102 c || in_range 65 70 c.

(** [.] without DOTALL: anything but a line feed. *)
Definition is_dot (c : char) : bool := negb (N.eqb c newline).

Definition ascii_word (c : char) : bool :=
  in_range 48 57 c || in_range 65 90 c || in_range 97 122 c || N.eqb c 95.

Local Close Scope N_scope.

(* ===================================================================== *)
(** ** Regular expressions and the backtracking matcher *)
(* ===================================================================== *)

(** The fragment of [re] syntax the script uses: single characters and
    classes, their greedy ([*], [{m,n}]) and lazy ([*?]) repetitions,
    concatenation and capture groups.  Only single characters or classes
    are ever repeated, and groups are never nested. *)
Inductive regex : Type :=
| Chr (p : char -> bool)
| Star (p : char -> bool)
| LazyStar (p : char -> bool)
| Rep (p : char -> bool) (lo extra : nat)
| Seq (r1 r2 : regex)
| Group (r : regex).

(** A match object: [m_text] is [match[0]], [m_groups] is [match.groups()]. *)
Record rmatch : Type := { m_text : str; m_groups : list str }.

Section Matcher.
Context {A : Type}.

(** [p*]: as many characters as possible first, giving them back one at a
    time while the rest of the pattern fails. *)
Fixpoint star (p : char -> bool) (k : str -> option A) (s : str) : option A :=
  match s with
  | c :: s' =>
      if p c then
        match star p k s' with
        | Some a => Some a
        | None => k s
        end
      else k s
  | [] => k s
  end.

(** [p*?]: as few characters as possible first. *)
Fixpoint lazy_star (p : char -> bool) (k : str -> option A) (s : str) : option A :=
  match k s with
  | Some a => Some a
  | None =>
      match s with
      | c :: s' => if p c then lazy_star p k s' else None
      | [] => None
      end
  end.

(** The [lo] mandatory characters of [p{lo,hi}]. *)
Fixpoint rep_min (p : char -> bool) (n : nat) (k : str -> option A) (s : str) : option A :=
  match n with
  | O => k s
  | S n' =>
      match s with
      | c :: s' => if p c then rep_min p n' k s' else None
      | [] => None
      end
  end.

(** The [hi - lo] optional characters of [p{lo,hi}], greedy. *)
Fixpoint rep_opt (p : char -> bool) (n : nat) (k : str -> option A) (s : str) : option A :=
  match n with
  | O => k s
  | S n' =>
      match s with
      | c :: s' =>
          if p c then
            match rep_opt p n' k s' with
            | Some a => Some a
            | None => k s
            end
          else k s
      | [] => k s
      end
  end.

(** [run r k s gs]: match [r] at the start of [s], with the groups [gs]
    captured so far; [k] is the rest of the pattern, given what is left of
    the input and the groups.  [None] is a failure, on which the caller
    backtracks. *)
Fixpoint run (r : regex) (k : str -> list str -> option A) (s : str) (gs : list str)
  : option A :=
  match r with
  | Chr p =>
      match s with
      | c :: s' => if p c then k s' gs else None
      | [] => None
      end
  | Star p => star p (fun s' => k s' gs) s
  | LazyStar p => lazy_star p (fun s' => k s' gs) s
  | Rep p lo extra => rep_min p lo (rep_opt p extra (fun s' => k s' gs)) s
  | Seq r1 r2 => run r1 (run r2 k) s gs
  | Group r1 =>
      run r1 (fun s' gs' => k s' (gs' ++ [firstn (length s - length s') s])) s gs
  end.
End Matcher.

Definition accept (s : str) : str -> list str -> option rmatch :=
  fun s' gs => Some {| m_text := firstn (length s - length s') s; m_groups := gs |}.

(** [pattern.match(s)]: a match at the very start of [s]. *)
Definition re_match (r : regex) (s : str) : option rmatch := run r (accept s) s [].

(** [pattern.finditer(s)]: the non-overlapping matches from left to right.
    [skip] counts the characters of the previous match still to pass. *)
Fixpoint finditer_from (r : regex) (s : str) (skip : nat) : list rmatch :=
  match s with
  | [] =>
      match skip with
      | O => match re_match r [] with Some m => [m] | None => [] end
      | S _ => []
      end
  | _ :: s' =>
      match skip with
      | S n => finditer_from r s' n
      | O =>
          match re_match r s with
          | Some m => m :: finditer_from r s' (length (m_text m) - 1)
          | None => finditer_from r s' 0
          end
      end
  end.

Definition finditer (r : regex) (s : str) : list rmatch := finditer_from r s 0.

(** [re.sub(pattern, repl, s)] for a replacement without group references. *)
Fixpoint re_sub_from (r : regex) (repl s : str) (skip : nat) : str :=
  match s with
  | [] =>
      match skip with
      | O => match re_match r [] with Some _ => repl | None => [] end
      | S _ => []
      end
  | c :: s' =>
      match skip with
      | S n => re_sub_from r repl s' n
      | O =>
          match re_match r s with
          | Some m =>
              match length (m_text m) with
              | O => repl ++ c :: re_sub_from r repl s' 0
              | S n => repl ++ re_sub_from r repl s' n
              end
          | None => c :: re_sub_from r repl s' 0
          end
      end
  end.

Definition re_sub (r : regex) (repl s : str) : str := re_sub_from r repl s 0.

(** [Lits s r]: the literal characters [s] followed by [r]. *)
Definition Lits (s : str) (r : regex) : regex :=
  fold_right (fun c r' => Seq (Chr (is_char c)) r') r s.

(** [HEADER_REGEX]: the pattern [.*-.*?-\s]. *)
Definition HEADER_REGEX : regex :=
  Seq (Star is_dot) (Lits (lit "-") (Seq (LazyStar is_dot) (Lits (lit "-") (Chr is_space)))).

(** The pattern [[|]r{] of [handle_data_format_bug_1]. *)
Definition BUG_1_REGEX : regex := Lits (lit "|r") (Chr (is_char (chr "{"))).

(* ===================================================================== *)
(** ** The language of a pattern, and matching without backtracking *)
(* ===================================================================== *)

Fixpoint take_while (p : char -> bool) (s : str) : str :=
  match s with
  | c :: s' => if p c then c :: take_while p s' else []
  | [] => []
  end.

Fixpoint drop_while (p : char -> bool) (s : str) : str :=
  match s with
  | c :: s' => if p c then drop_while p s' else s
  | [] => []
  end.

(** Drop at most [n] leading characters of the class [p]. *)
Fixpoint drop_upto (n : nat) (p : char -> bool) (s : str) : str :=
  match n with
  | O => s
  | S n' =>
      match s with
      | c :: s' => if p c then drop_upto n' p s' else s
      | [] => []
      end
  end.

(** Drop exactly [n] leading characters, all of the class [p]. *)
Fixpoint drop_exact (n : nat) (p : char -> bool) (s : str) : option str :=
  match n with
  | O => Some s
  | S n' =>
      match s with
      | c :: s' => if p c then drop_exact n' p s' else None
      | [] => None
      end
  end.

(** [lang r w]: the pattern [r] matches exactly the string [w]. *)
Fixpoint lang (r : regex) (w : str) : Prop :=
  match r with
  | Chr p => exists c, w = [c] /\ p c = true
  | Star p => forallb p w = true
  | LazyStar p => forallb p w = true
  | Rep p lo extra => forallb p w = true /\ lo <= length w <= lo + extra
  | Seq r1 r2 => exists w1 w2, w = w1 ++ w2 /\ lang r1 w1 /\ lang r2 w2
  | Group r1 => lang r1 w
  end.

(** [avoids c r]: no class of [r] contains the character [c]. *)
Fixpoint avoids (c : char) (r : regex) : bool :=
  match r with
  | Chr p | Star p | LazyStar p | Rep p _ _ => negb (p c)
  | Seq r1 r2 => avoids c r1 && avoids c r2
  | Group r1 => avoids c r1
  end.

(** Matching where every repetition takes all it can and never gives
    anything back; it has no lazy repetition.  It is what the backtracking
    matcher computes for a pattern whose repetitions are each followed by
    something they cannot match. *)
Fixpoint pmatch (r : regex) (s : str) (gs : list str) : option (str * list str) :=
  match r with
  | Chr p =>
      match s with
      | c :: s' => if p c then Some (s', gs) else None
      | [] => None
      end
  | Star p => Some (drop_while p s, gs)
  | LazyStar p => None
  | Rep p lo extra =>
      match drop_exact lo p s with
      | Some s1 => Some (drop_upto extra p s1, gs)
      | None => None
      end
  | Seq r1 r2 =>
      match pmatch r1 s gs with
      | Some (s1, g1) => pmatch r2 s1 g1
      | None => None
      end
  | Group r1 =>
      match pmatch r1 s gs with
      | Some (s1, g1) => Some (s1, g1 ++ [firstn (length s - length s1) s])
      | None => None
      end
  end.

Definition and_then {A : Type} (o : option (str * list str))
  (k : str -> list str -> option A) : option A :=
  match o with
  | Some (s', gs') => k s' gs'
  | None => None
  end.

(** What the rest of a pattern, as a continuation [k], does with its input:
    it fails on any input that starts with a character of [q]; its failure
    survives one more leading character of [p]; its failure does not depend
    on the groups captured so far. *)
Definition rejects_first {A : Type} (q : char -> bool)
  (k : str -> list str -> option A) : Prop :=
  forall c s gs, q c = true -> k (c :: s) gs = None.

Definition absorbs {A : Type} (p : char -> bool)
  (k : str -> list str -> option A) : Prop :=
  forall c s gs, p c = true -> k s gs = None -> k (c :: s) gs = None.

Definition gs_blind {A : Type} (k : str -> list str -> option A) : Prop :=
  forall t g g', k t g = None -> k t g' = None.

(** Before the continuation [k], the backtracking matcher does on [r] what
    the matcher without backtracking does. *)
Definition Det {A : Type} (r : regex) (k : str -> list str -> option A) : Prop :=
  forall s gs, run r k s gs = and_then (pmatch r s gs) k.

(** The pattern ends with a single character. *)
Fixpoint ends_chr (r : regex) : bool :=
  match r with
  | Chr _ => true
  | Seq _ r2 => ends_chr r2
  | Group r1 => ends_chr r1
  | _ => false
  end.

(** The words of the normalizer's contract: one space between every [|r]
    and an opening brace that follows it at once. *)
Fixpoint insert_space (s : str) : str :=
  match s with
  | [] => []
  | a :: t =>
      match t with
      | b :: c :: rest =>
          if N.eqb a (chr "|") && N.eqb b (chr "r") && N.eqb c (chr "{")
          then lit "|r {" ++ insert_space rest
          else a :: insert_space t
      | _ => a :: insert_space t
      end
  end.

(** Every [|] of the string is followed by an [r]. *)
Fixpoint bar_r_only (s : str) : bool :=
  match s with
  | [] => true
  | c :: s' =>
      (if N.eqb c (chr "|")
       then match s' with d :: _ => N.eqb d (chr "r") | [] => false end
       else true)
      && bar_r_only s'
  end.

(** The suffixes of a string, the longest first. *)
Fixpoint tails (s : str) : list str :=
  match s with
  | [] => [[]]
  | _ :: s' => s :: tails s'
  end.

(* ===================================================================== *)
(** ** Files, the log and the order of a set *)
(* ===================================================================== *)

(** The state the script acts on: the text files by absolute path, and the
    messages given to [logging.error]. *)
Record world : Type := { files : str -> option str; log : list str }.

Definition M (A : Type) : Type := world -> A * world.

Definition ret {A : Type} (a : A) : M A := fun w => (a, w).

Definition bind {A B : Type} (m : M A) (f : A -> M B) : M B :=
  fun w => let (a, w') := m w in f a w'.

Notation "x <- m ;; k" := (bind m (fun x => k))
  (at level 61, m at next level, right associativity).
Notation "m ;;; k" := (bind m (fun _ => k))
  (at level 61, right associativity).

(** [for x in l: body x] *)
Fixpoint for_each {A : Type} (l : list A) (body : A -> M unit) : M unit :=
  match l with
  | [] => ret tt
  | x :: l' => body x ;;; for_each l' body
  end.

(** An action that removes no file. *)
Definition keeps_files {A : Type} (m : M A) : Prop :=
  forall w p, files w p <> None -> files (snd (m w)) p <> None.

(** An action that changes no file but those of [paths]. *)
Definition writes_only {A : Type} (paths : list str) (m : M A) : Prop :=
  forall w q, ~ In q paths -> files (snd (m w)) q = files w q.

(** An action that only adds to files: what a file holds stays at the
    start of what it holds afterwards. *)
Definition appends_only {A : Type} (m : M A) : Prop :=
  forall w q c, files w q = Some c ->
                exists added, files (snd (m w)) q = Some (c ++ added).

(** What there is to read in a file; nothing when it does not exist. *)
Definition content_of (file : option str) : str :=
  match file with Some c => c | None => [] end.

(** [subseq a b]: [a] is [b] with some characters left out. *)
Inductive subseq : str -> str -> Prop :=
| subseq_nil : subseq [] []
| subseq_skip (a b : str) (c : char) : subseq a b -> subseq a (c :: b)
| subseq_keep (a b : str) (c : char) : subseq a b -> subseq (c :: a) (c :: b).

Definition set_file (path content : str) (fs : str -> option str) : str -> option str :=
  fun q => if str_eqb q path then Some content else fs q.

Definition logging_error (msg : str) : M unit :=
  fun w => (tt, {| files := files w; log := log w ++ [msg] |}).

(** [f.write(data)] on a file opened for appending. *)
Definition file_write (path data : str) : M unit :=
  fun w =>
    let old := match files w path with Some c => c | None => [] end in
    (tt, {| files := set_file path (old ++ data) (files w); log := log w |}).

(** [open(path, 'a+')]: the file is created when it does not exist. *)
Definition open_append (path : str) : M str :=
  fun w =>
    match files w path with
    | Some _ => (path, w)
    | None => (path, {| files := set_file path [] (files w); log := log w |})
    end.

(** [open(path, 'w')] followed by [close()]. *)
Definition open_truncate (path : str) : M unit :=
  fun w => (tt, {| files := set_file path [] (files w); log := log w |}).

Definition os_path_isfile (path : str) : M bool :=
  fun w => (match files w path with Some _ => true | None => false end, w).

(** [os.path.join(a, b)] on POSIX. *)
Definition os_path_join (a b : str) : str :=
  if startswith (lit "/") b then b
  else match a with
       | [] => b
       | _ => if N.eqb (last a 0%N) (chr "/") then a ++ b else a ++ lit "/" ++ b
       end.

(** The last component of a path: what follows its last [/]. *)
Definition basename (path : str) : str :=
  fold_left (fun acc c => if N.eqb c (chr "/") then [] else acc ++ [c]) path [].

(** Text mode reading with universal newlines: [\r\n] and [\r] become [\n]. *)
Fixpoint universal_newlines (s : str) : str :=
  match s with
  | [] => []
  | c :: s' =>
      if N.eqb c 13%N then
        match s' with
        | d :: s'' => if N.eqb d 10%N then universal_newlines s' else newline :: universal_newlines s'
        | [] => [newline]
        end
      else c :: universal_newlines s'
  end.

(** [readlines()]: the lines, each with its terminator. *)
Fixpoint split_lines (s cur : str) : list str :=
  match s with
  | [] => match cur with [] => [] | _ => [cur] end
  | c :: s' =>
      if N.eqb c newline then (cur ++ [c]) :: split_lines s' []
      else split_lines s' (cur ++ [c])
  end.

Definition readlines (content : str) : list str :=
  split_lines (universal_newlines content) [].

(** The order in which [list(set(l))] lists the distinct elements of [l].
    Python fixes none; it comes from the hashes of the strings, which are
    salted anew in every process. *)
Record SetOrder : Type := {
  set_to_list : list str -> list str;
  set_to_list_nodup : forall l, NoDup (set_to_list l);
  set_to_list_elems : forall l x, In x (set_to_list l) <-> In x l
}.

Inductive RaidLeadVisibility : Type := ALL | HEALER_CDS | NON_HEALER_CDS.

Inductive outcome : Type :=
| Returned
| FileNotFoundError (path : str).

Definition non_empty (s : str) : bool :=
  match s with [] => false | _ :: _ => true end.

(** The text of an event of the export, its header's viewers listed in the
    order [o]. *)
Definition render (o : SetOrder) (part : list str * str * str) : str :=
  let '(viewers, header, cds) := part in
  (lit "{p:" ++ join (lit ",") (set_to_list o viewers) ++ lit "}" ++ header ++ lit "{/p}")
  ++ cds ++ [newline].

(** Two orders a set can be listed in: the distinct elements in the order
    of their last occurrence, and the reverse. *)
Definition str_dec : forall a b : str, {a = b} + {a <> b} := list_eq_dec N.eq_dec.

Definition forward_order : SetOrder :=
  {| set_to_list := nodup str_dec;
     set_to_list_nodup := NoDup_nodup str_dec;
     set_to_list_elems := fun l x => nodup_In str_dec l x |}.

Definition backward_order : SetOrder :=
  {| set_to_list := fun l => rev (nodup str_dec l);
     set_to_list_nodup := fun l => NoDup_rev (NoDup_nodup str_dec l);
     set_to_list_elems := fun l x =>
       iff_trans (iff_sym (in_rev (nodup str_dec l) x)) (nodup_In str_dec l x) |}.

(** [str.isalnum()] on the Latin-1 supplement, the range of the roster's
    accented letters; it is used for the examples only. *)
Definition latin1_isalnum (c : char) : bool := (
  N.eqb c 170 || N.eqb c 178 || N.eqb c 179 || N.eqb c 181 || N.eqb c 185
  || N.eqb c 186 || in_range 188 190 c || in_range 192 214 c
  || in_range 216 246 c || in_range 248 255 c)%N.

Definition empty_world : world := {| files := fun _ => None; log := [] |}.

Definition world_with (path content : str) : world :=
  {| files := set_file path content (fun _ => None); log := [] |}.

(** The state with the given files, listed as pairs of a path and a
    content, and an empty log. *)
Definition world_files (l : list (str * str)) : world :=
  {| files := fun q =>
       match find (fun pc => str_eqb q (fst pc)) l with
       | Some pc => Some (snd pc)
       | None => None
       end;
     log := [] |}.

(** Example lines. *)
Definition line_runnz_bob : str :=
  lit "EventA - 00:30 - |cfff38bb9Runnz|r  {spell:111}  |c00ff0000Bob|r {spell:222}  ".

Definition runnz_token : rmatch :=
  {| m_text := lit "|cfff38bb9Runnz|r  {spell:111}  ";
     m_groups := [lit "Runnz"; lit "  {spell:111}  "] |}.

Definition bob_token : rmatch :=
  {| m_text := lit "|c00ff0000Bob|r {spell:222}  ";
     m_groups := [lit "Bob"; lit " {spell:222}  "] |}.

Definition line_token_in_header : str :=
  lit "|cfff38bb9Runnz|r {spell:1}  - - ".

Definition line_roster_token_in_header : str :=
  lit "|cfff38bb9Pv|r {spell:1}  - 00:30 - |cfff38bb9Bob|r {spell:2}  ".

Definition line_raid_lead : str :=
  lit "A - 1 - |c00000000Slickduck|r {spell:1}  ".

Definition line_no_header : str := lit "|cfff38bb9Bob|r {spell:1}  ".

Definition line_token_made_by_removal : str :=
  lit "A - 1 - |c000000|c000000Pv|r {spell:1}  Pv|r {spell:2}  ".


Definition line_runnz_no_header : str := lit "|cfff38bb9Runnz|r{spell:3}  ".

(** A source of three lines, and two states that hold it: one where the
    script lies in the working directory, with old outputs in place, and
    one where the script lies elsewhere, with an old file of a healer. *)
Definition source_three_lines : str :=
  line_runnz_bob ++ [newline] ++ line_no_header ++ [newline]
  ++ line_runnz_no_header ++ [newline].

Definition raid_world : world :=
  world_files
    [(lit "/raid/soulrender-cds.txt", source_three_lines);
     (lit "/raid/non-healer-cds.txt", lit "old");
     (lit "/raid/encapsulapted-cds.txt", lit "old")].

Definition away_world : world :=
  world_files
    [(lit "/opt/ert/soulrender-cds.txt", source_three_lines);
     (lit "/opt/ert/Runnz-cds.txt", lit "old")].

(* ===================================================================== *)
(** ** The script *)
(* ===================================================================== *)

Section Script.

(** [str.isalnum()] on the code points above the ASCII range: the table
    belongs to the Unicode database, not to the script. *)
Variable unicode_isalnum : char -> bool.

(** The directory of the script, and the working directory of the run. *)
Variable PATH : str.
Variable cwd : str.

(** The order of [list(set(...))] in this run. *)
Variable hash_order : SetOrder.

(** [\w] *)
Definition is_word (c : char) : bool :=
  if N.ltb c 128 then ascii_word c else unicode_isalnum c.

(** [[\s\w]] *)
Definition is_name (c : char) : bool := is_space c || is_word c.

Definition HEALER_ROSTER : list str :=
  [ lit "H" ++ [244%N] ++ lit "steric"; lit "Delvur"; lit "Yashar"; lit "Pv";
    lit "Runnz"; lit "L" ++ [237%N] ++ lit "feforce"; lit "Seiton" ].

Definition RAID_LEAD : str := lit "Slickduck".

Definition SOURCE : str := os_path_join PATH (lit "soulrender-cds.txt").
Definition NON_HEALER_DEST : str := os_path_join PATH (lit "non-healer-cds.txt").
Definition ENCAPSULATED_CD_DEST : str := os_path_join PATH (lit "encapsulapted-cds.txt").

(** [RAID_CD_REGEX]: the characters [|c], six to eight hexadecimal digits,
    group 1 [[\s\w]*], the characters [|r], and group 2: [\s*], the
    characters [{spell:], [[0-9]*], a closing brace and two [\s]. *)
Definition RAID_CD_REGEX : regex :=
  Lits (lit "|c")
    (Seq (Rep is_hex 6 2)
      (Seq (Group (Star is_name))
        (Lits (lit "|r")
          (Group
            (Seq (Star is_space)
              (Lits (lit "{spell:")
                (Seq (Star is_digit)
                  (Lits (lit "}") (Seq (Chr is_space) (Chr is_space)))))))))).

(** An assignment token: a match of the pattern that is found again
    wherever its text begins. *)
Definition token (m : rmatch) : Prop :=
  forall rest, re_match RAID_CD_REGEX (m_text m ++ rest) = Some m.

Definition texts (ms : list rmatch) : str := concat (map m_text ms).

(** A relative path is resolved against the working directory. *)
Definition resolve (path : str) : str := os_path_join cwd path.

Definition handle_data_format_bug_1 (event_list : list str) : list str :=
  map (fun event => re_sub BUG_1_REGEX (lit "|r {") event) event_list.

Definition append_event_to_file (event dest_file : str) : M unit :=
  file_write dest_file (event ++ [newline]).

Definition clear_file (file_name : str) : M unit :=
  b <- os_path_isfile (resolve file_name) ;;
  if b then open_truncate (resolve file_name) else ret tt.

Definition find_header (event : str) : M str :=
  match re_match HEADER_REGEX event with
  | None =>
      logging_error (lit "Error parsing header for event event=" ++ event) ;;;
      ret (lit " ")
  | Some m => ret (m_text m)
  end.

(** The value [find_header] returns. *)
Definition header_text (event : str) : str :=
  match re_match HEADER_REGEX event with
  | None => lit " "
  | Some m => m_text m
  end.

(** The state after the error message of [find_header]. *)
Definition logged (event : str) (w : world) : world :=
  {| files := files w;
     log := log w ++ [lit "Error parsing header for event event=" ++ event] |}.

(** [match.groups()[0]] *)
Definition group0 (m : rmatch) : str := nth 0 (m_groups m) [].

Definition find_cds_for_healer (event healer : str) : list rmatch :=
  filter (fun m => str_eqb (group0 m) healer) (finditer RAID_CD_REGEX event).

(** No hyphen stands at or after a place of the line where the
    assignment pattern matches. *)
Definition hyphens_precede_tokens (event : str) : bool :=
  forallb
    (fun b => match re_match RAID_CD_REGEX b with
              | Some _ => negb (existsb (N.eqb (chr "-")) b)
              | None => true
              end)
    (tails event).

Definition get_healer_cd_text_from_matches (healer_cd_matches : list rmatch) : str :=
  fold_left (fun cd_text m => cd_text ++ m_text m) healer_cd_matches [].

Definition do_split_healer_events (event_list : list str) (dest_file healer : str)
  : M unit :=
  let event_list := handle_data_format_bug_1 event_list in
  for_each event_list (fun event =>
    let healer_cd_matches := find_cds_for_healer event healer in
    let healer_cd_text := get_healer_cd_text_from_matches healer_cd_matches in
    if non_empty healer_cd_text then
      header <- find_header event ;;
      let event_text := header ++ healer_cd_text in
      append_event_to_file event_text dest_file
    else ret tt).

Definition split_healer_events (cd_source : list str) : M unit :=
  for_each HEALER_ROSTER (fun healer =>
    cd_dest <- open_append (resolve (os_path_join PATH (healer ++ lit "-cds.txt"))) ;;
    do_split_healer_events cd_source cd_dest healer).

Definition remove_cds_from_event (event healer : str) : str :=
  let matches := find_cds_for_healer event healer in
  fold_left
    (fun processed_event m =>
       if str_eqb (group0 m) healer
       then replace (m_text m) [] processed_event
       else processed_event)
    matches event.

Definition do_strip_healer_cds (event_list : list str) (dest_file : str) : M unit :=
  let event_list := handle_data_format_bug_1 event_list in
  for_each event_list (fun event =>
    header <- find_header event ;;
    let processed_event := event in
    let processed_event := replace header [] processed_event in
    let processed_event := replace [newline] [] processed_event in
    let processed_event := fold_left remove_cds_from_event HEALER_ROSTER processed_event in
    if non_empty processed_event then
      let processed_event := header ++ processed_event in
      append_event_to_file processed_event dest_file
    else ret tt).

Definition strip_healer_cds (event_list : list str) : M unit :=
  dest_file <- open_append (resolve NON_HEALER_DEST) ;;
  do_strip_healer_cds event_list dest_file.

Definition in_roster (raider : str) : bool := existsb (str_eqb raider) HEALER_ROSTER.

Definition should_be_visible_to_raid_leader
  (raider : str) (raid_lead_visibility : RaidLeadVisibility) : bool :=
  match raid_lead_visibility with
  | ALL => true
  | HEALER_CDS => in_roster raider
  | NON_HEALER_CDS => negb (in_roster raider)
  end.

(** The [visibility_list] of [get_encapsulated_cd_from_match]. *)
Definition cd_visibility_list
  (cd_match : rmatch) (raid_lead_visibility : RaidLeadVisibility) : list str :=
  let raider_name := group0 cd_match in
  (if should_be_visible_to_raid_leader raider_name raid_lead_visibility
   then [RAID_LEAD] else []) ++ [raider_name].

(** The tag [{p:names}text{/p}], the names joined by commas. *)
Definition encapsulate (visibility_list : list str) (text : str) : str :=
  lit "{p:" ++ join (lit ",") visibility_list ++ lit "}" ++ text ++ lit "{/p}".

Definition get_encapsulated_cd_from_match
  (cd_match : rmatch) (raid_lead_visibility : RaidLeadVisibility) : str :=
  let visibility_list := cd_visibility_list cd_match raid_lead_visibility in
  let cd := m_text cd_match in
  encapsulate visibility_list cd.

(** The variables the loop over the matches of one event updates. *)
Record event_acc : Type := {
  header_visibility_list : list str;
  is_header_visible_to_rl : bool;
  cds : str
}.

Definition encapsulate_match (raid_lead_visibility : RaidLeadVisibility)
  (acc : event_acc) (m : rmatch) : event_acc :=
  let raider_name := group0 m in
  let is_raider_visible_to_rl :=
    should_be_visible_to_raid_leader raider_name raid_lead_visibility in
  {| header_visibility_list := header_visibility_list acc ++ [raider_name];
     is_header_visible_to_rl := is_header_visible_to_rl acc || is_raider_visible_to_rl;
     cds := cds acc ++ get_encapsulated_cd_from_match m raid_lead_visibility |}.

Definition event_matches_loop (raid_lead_visibility : RaidLeadVisibility)
  (matches : list rmatch) : event_acc :=
  fold_left (encapsulate_match raid_lead_visibility) matches
    {| header_visibility_list := []; is_header_visible_to_rl := false; cds := [] |}.

(** The [header_visibility_set] of an event: the viewers of its header. *)
Definition header_visibility_set (acc : event_acc) : list str :=
  set_to_list hash_order
    (if is_header_visible_to_rl acc
     then header_visibility_list acc ++ [RAID_LEAD]
     else header_visibility_list acc).

(** One turn of the loop of [encapsulate_cds]: what the event adds to
    [encapsulated_event_text]. *)
Definition encapsulate_event (raid_lead_visibility : RaidLeadVisibility) (event : str)
  : M str :=
  header <- find_header event ;;
  let matches := finditer RAID_CD_REGEX event in
  let acc := event_matches_loop raid_lead_visibility matches in
  let header_visibility_set := header_visibility_set acc in
  if non_empty (cds acc) then
    let encapsulated_header := encapsulate header_visibility_set header in
    ret (encapsulated_header ++ cds acc ++ [newline])
  else ret [].

Fixpoint encapsulate_events (raid_lead_visibility : RaidLeadVisibility)
  (event_list : list str) (encapsulated_event_text : str) : M str :=
  match event_list with
  | [] => ret encapsulated_event_text
  | event :: rest =>
      added <- encapsulate_event raid_lead_visibility event ;;
      encapsulate_events raid_lead_visibility rest (encapsulated_event_text ++ added)
  end.

(** What an event with tokens gives to the export before its header's
    viewers are put in the order of a set: the viewers collected, the
    header and the encapsulated tokens. *)
Definition event_parts (raid_lead_visibility : RaidLeadVisibility) (event : str)
  : list (list str * str * str) :=
  let acc := event_matches_loop raid_lead_visibility (finditer RAID_CD_REGEX event) in
  if non_empty (cds acc)
  then [((if is_header_visible_to_rl acc
          then header_visibility_list acc ++ [RAID_LEAD]
          else header_visibility_list acc),
         header_text event, cds acc)]
  else [].

(** The state after the error messages for the lines without a header. *)
Definition logged_all (event_list : list str) (w : world) : world :=
  fold_left
    (fun w event =>
       match re_match HEADER_REGEX event with
       | None => logged event w
       | Some _ => w
       end)
    event_list w.

Definition encapsulate_cds (event_list : list str)
  (raid_lead_visibility : RaidLeadVisibility) : M unit :=
  encapsulated_event_text <- encapsulate_events raid_lead_visibility event_list [] ;;
  dest_file <- open_append (resolve ENCAPSULATED_CD_DEST) ;;
  append_event_to_file encapsulated_event_text dest_file.

(** The paths [main] clears before it opens the source. *)
Definition cleared_paths : list str :=
  map (fun healer => resolve (healer ++ lit "-cds.txt")) HEALER_ROSTER
  ++ [resolve NON_HEALER_DEST].

(** A file cleared by [clear_file]: emptied when it exists. *)
Definition cleared (content : option str) : option str :=
  match content with
  | Some _ => Some []
  | None => None
  end.

Definition main : world -> outcome * world :=
  fun w =>
    let (_, w) :=
      for_each HEALER_ROSTER (fun healer =>
        let file_name := healer ++ lit "-cds.txt" in
        clear_file file_name) w in
    let (_, w) := clear_file NON_HEALER_DEST w in
    match files w (resolve SOURCE) with
    | None => (FileNotFoundError SOURCE, w)
    | Some content =>
        let event_list := readlines content in
        let (_, w) := split_healer_events event_list w in
        let (_, w) := strip_healer_cds event_list w in
        let raid_lead_visibility := NON_HEALER_CDS in
        let (_, w) := clear_file ENCAPSULATED_CD_DEST w in
        match files w (resolve SOURCE) with
        | None => (FileNotFoundError SOURCE, w)
        | Some content =>
            let event_list := readlines content in
            let (_, w) := encapsulate_cds event_list raid_lead_visibility w in
            (Returned, w)
        end
    end.

(** The files of the healers, where [split_healer_events] opens them. *)
Definition roster_paths : list str :=
  map (fun healer => resolve (os_path_join PATH (healer ++ lit "-cds.txt")))
    HEALER_ROSTER.

(** The paths the script opens for writing. *)
Definition output_paths : list str :=
  cleared_paths ++ roster_paths
  ++ [resolve NON_HEALER_DEST; resolve ENCAPSULATED_CD_DEST].

(** The message of [find_header] for a line without header. *)
Definition header_error (event : str) : str :=
  lit "Error parsing header for event event=" ++ event.

Definition has_header (event : str) : bool :=
  match re_match HEADER_REGEX event with Some _ => true | None => false end.

(** The lines [do_split_healer_events] writes for a healer: for every
    line with a token of the healer, the header and these tokens. *)
Definition healer_lines (healer : str) (event_list : list str) : list str :=
  flat_map
    (fun event =>
       match find_cds_for_healer event healer with
       | [] => []
       | (_ :: _) as healer_cd_matches =>
           [header_text event ++ texts healer_cd_matches ++ [newline]]
       end)
    (handle_data_format_bug_1 event_list).

(** The lines for which [do_split_healer_events] looks for a header. *)
Definition healer_events (healer : str) (event_list : list str) : list str :=
  filter
    (fun event => match find_cds_for_healer event healer with
                  | [] => false
                  | _ :: _ => true
                  end)
    (handle_data_format_bug_1 event_list).

(** The [processed_event] of [do_strip_healer_cds] before the header is
    put back: the line without its header, its line feeds and the tokens of
    the healers. *)
Definition stripped_event (event : str) : str :=
  fold_left remove_cds_from_event HEALER_ROSTER
    (replace [newline] [] (replace (header_text event) [] event)).

(** The lines [do_strip_healer_cds] writes. *)
Definition other_lines (event_list : list str) : list str :=
  flat_map
    (fun event =>
       if non_empty (stripped_event event)
       then [header_text event ++ stripped_event event ++ [newline]]
       else [])
    (handle_data_format_bug_1 event_list).

(** The text [encapsulate_cds] writes for a list of lines. *)
Definition export_text (raid_lead_visibility : RaidLeadVisibility)
  (event_list : list str) : str :=
  concat (map (render hash_order) (flat_map (event_parts raid_lead_visibility) event_list))
  ++ [newline].


(* =================================================================== *)
(** ** Strings *)
(* =================================================================== *)

Lemma str_eqb_eq (a b : str) : str_eqb a b = true <-> a = b.
Proof.
  revert b; induction a as [|x a IH]; intros [|y b]; simpl; split; intro H;
    try reflexivity; try discriminate.
  - apply andb_true_iff in H as [H1 H2].
    apply N.eqb_eq in H1. apply IH in H2. congruence.
  - injection H as -> ->. rewrite N.eqb_refl. simpl. now apply IH.
Qed.

Lemma str_eqb_refl (a : str) : str_eqb a a = true.
Proof. now apply str_eqb_eq. Qed.

Lemma str_eqb_neq (a b : str) : str_eqb a b = false <-> a <> b.
Proof.
  split.
  - intros H E. apply str_eqb_eq in E. congruence.
  - intro H. destruct (str_eqb a b) eqn:E; [|reflexivity].
    apply str_eqb_eq in E. contradiction.
Qed.

Lemma startswith_spec (old s : str) :
  startswith old s = true <-> exists rest, s = old ++ rest.
Proof.
  revert s; induction old as [|x old IH]; intros s; simpl.
  - split; [intros _; now exists s | reflexivity].
  - destruct s as [|y s].
    + split; [discriminate | intros [rest H]; discriminate].
    + rewrite andb_true_iff, N.eqb_eq, IH. split.
      * intros [-> [rest ->]]. now exists rest.
      * intros [rest H]. injection H as -> ->. split; [reflexivity | now exists rest].
Qed.

Lemma startswith_app (old rest : str) : startswith old (old ++ rest) = true.
Proof. apply startswith_spec. now exists rest. Qed.

Lemma startswith_In (old s : str) (c : char) :
  startswith old s = true -> In c old -> In c s.
Proof.
  intros H Hc. apply startswith_spec in H as [rest ->].
  apply in_or_app. now left.
Qed.

Lemma take_drop_while (p : char -> bool) (s : str) :
  take_while p s ++ drop_while p s = s.
Proof.
  induction s as [|c s IH]; simpl; [reflexivity|].
  destruct (p c); simpl; [now rewrite IH | reflexivity].
Qed.

Lemma take_while_all (p : char -> bool) (s : str) : forallb p (take_while p s) = true.
Proof.
  induction s as [|c s IH]; simpl; [reflexivity|].
  destruct (p c) eqn:E; simpl; [now rewrite E | reflexivity].
Qed.

Lemma drop_while_suffix (p : char -> bool) (s : str) :
  exists u, s = u ++ drop_while p s /\ forallb p u = true.
Proof.
  exists (take_while p s). split.
  - symmetry. apply take_drop_while.
  - apply take_while_all.
Qed.

Lemma drop_upto_suffix (n : nat) (p : char -> bool) (s : str) :
  exists u, s = u ++ drop_upto n p s /\ forallb p u = true /\ length u <= n.
Proof.
  revert s; induction n as [|n IH]; intros s; simpl.
  - exists []. repeat split. simpl. lia.
  - destruct s as [|c s].
    + exists []. repeat split. simpl. lia.
    + destruct (p c) eqn:E.
      * destruct (IH s) as (u & Hu & Hp & Hl).
        exists (c :: u). simpl. rewrite E, Hp. repeat split; [congruence | lia].
      * exists []. repeat split. simpl. lia.
Qed.

Lemma firstn_length_app (A : Type) (a b : list A) :
  firstn (length (a ++ b) - length b) (a ++ b) = a.
Proof.
  rewrite length_app. replace (length a + length b - length b) with (length a) by lia.
  rewrite firstn_app, Nat.sub_diag, firstn_all. simpl. apply app_nil_r.
Qed.

Lemma concat_fold_left (l : list rmatch) (acc : str) :
  fold_left (fun cd_text m => cd_text ++ m_text m) l acc = acc ++ concat (map m_text l).
Proof.
  revert acc; induction l as [|m l IH]; intros acc; simpl.
  - now rewrite app_nil_r.
  - rewrite IH. now rewrite <- app_assoc.
Qed.

(* =================================================================== *)
(** ** The matcher is sound for the language of the pattern *)
(* =================================================================== *)

Lemma star_sound (A : Type) (p : char -> bool) (k : str -> option A) (s : str) (a : A) :
  star p k s = Some a ->
  exists w s', s = w ++ s' /\ forallb p w = true /\ k s' = Some a.
Proof.
  induction s as [|c s IH]; simpl; intro H.
  - now exists [], [].
  - destruct (p c) eqn:E.
    + destruct (star p k s) as [a'|] eqn:Es.
      * injection H as ->. destruct (IH eq_refl) as (w & s' & -> & Hw & Hk).
        exists (c :: w), s'. simpl. now rewrite E, Hw.
      * now exists [], (c :: s).
    + now exists [], (c :: s).
Qed.

Lemma lazy_star_sound (A : Type) (p : char -> bool) (k : str -> option A) (s : str) (a : A) :
  lazy_star p k s = Some a ->
  exists w s', s = w ++ s' /\ forallb p w = true /\ k s' = Some a.
Proof.
  induction s as [|c s IH]; simpl; intro H.
  - destruct (k []) eqn:Ek; [|discriminate]. exists [], []. repeat split. congruence.
  - destruct (k (c :: s)) eqn:Ek.
    + exists [], (c :: s). repeat split. congruence.
    + destruct (p c) eqn:E; [|discriminate].
      destruct (IH H) as (w & s' & -> & Hw & Hk).
      exists (c :: w), s'. simpl. now rewrite E, Hw.
Qed.

Lemma rep_min_exact (A : Type) (p : char -> bool) (n : nat) (k : str -> option A) (s : str) :
  rep_min p n k s = match drop_exact n p s with Some s1 => k s1 | None => None end.
Proof.
  revert s; induction n as [|n IH]; intros s; simpl; [reflexivity|].
  destruct s as [|c s]; [reflexivity|]. destruct (p c); [apply IH | reflexivity].
Qed.

Lemma drop_exact_suffix (n : nat) (p : char -> bool) (s s1 : str) :
  drop_exact n p s = Some s1 ->
  exists u, s = u ++ s1 /\ forallb p u = true /\ length u = n.
Proof.
  revert s; induction n as [|n IH]; intros s; simpl.
  - intro H. injection H as ->. now exists [].
  - destruct s as [|c s]; [discriminate|]. destruct (p c) eqn:E; [|discriminate].
    intro H. destruct (IH _ H) as (u & -> & Hu & Hl).
    exists (c :: u). simpl. rewrite E, Hu. repeat split. lia.
Qed.

Lemma rep_opt_sound (A : Type) (p : char -> bool) (n : nat) (k : str -> option A)
  (s : str) (a : A) :
  rep_opt p n k s = Some a ->
  exists w s', s = w ++ s' /\ forallb p w = true /\ length w <= n /\ k s' = Some a.
Proof.
  revert s; induction n as [|n IH]; intros s; simpl; intro H.
  - exists [], s. repeat split; [simpl; lia | assumption].
  - destruct s as [|c s].
    + exists [], []. repeat split; [simpl; lia | assumption].
    + destruct (p c) eqn:E.
      * destruct (rep_opt p n k s) as [a'|] eqn:Er.
        -- injection H as ->. destruct (IH _ Er) as (w & s' & -> & Hw & Hl & Hk).
           exists (c :: w), s'. simpl. rewrite E, Hw. repeat split; [lia | assumption].
        -- exists [], (c :: s). repeat split; [simpl; lia | assumption].
      * exists [], (c :: s). repeat split; [simpl; lia | assumption].
Qed.

Lemma run_sound (A : Type) (r : regex) :
  forall (k : str -> list str -> option A) (s : str) (gs : list str) (a : A),
    run r k s gs = Some a ->
    exists w s' gs', s = w ++ s' /\ lang r w /\ k s' gs' = Some a.
Proof.
  induction r as [p|p|p|p lo extra|r1 IH1 r2 IH2|r1 IH1]; intros k s gs a H; simpl in *.
  - destruct s as [|c s]; [discriminate|]. destruct (p c) eqn:E; [|discriminate].
    exists [c], s, gs. repeat split; [|assumption]. now exists c.
  - apply star_sound in H as (w & s' & -> & Hw & Hk). now exists w, s', gs.
  - apply lazy_star_sound in H as (w & s' & -> & Hw & Hk). now exists w, s', gs.
  - rewrite rep_min_exact in H.
    destruct (drop_exact lo p s) as [s1|] eqn:Ed; [|discriminate].
    apply drop_exact_suffix in Ed as (u & -> & Hu & Hl).
    apply rep_opt_sound in H as (w & s' & -> & Hw & Hl' & Hk).
    exists (u ++ w), s', gs. rewrite <- app_assoc. repeat split; [| | |assumption].
    + rewrite forallb_app. now rewrite Hu, Hw.
    + rewrite length_app. lia.
    + rewrite length_app. lia.
  - apply IH1 in H as (w1 & s1 & g1 & -> & L1 & H).
    apply IH2 in H as (w2 & s2 & g2 & -> & L2 & H).
    exists (w1 ++ w2), s2, g2. rewrite <- app_assoc. repeat split; [|assumption].
    now exists w1, w2.
  - apply IH1 in H as (w1 & s1 & g1 & -> & L1 & H). now exists w1, s1, (g1 ++ [firstn (length (w1 ++ s1) - length s1) (w1 ++ s1)]).
Qed.

(** A match is a prefix of the input that belongs to the pattern's language. *)
Lemma re_match_sound (r : regex) (s : str) (m : rmatch) :
  re_match r s = Some m ->
  exists rest, s = m_text m ++ rest /\ lang r (m_text m).
Proof.
  unfold re_match. intro H.
  apply run_sound in H as (w & s' & gs' & E & L & H).
  unfold accept in H. injection H as <-. simpl.
  subst s. rewrite firstn_length_app. now exists s'.
Qed.

Lemma avoids_lang (c : char) (r : regex) :
  avoids c r = true -> forall w, lang r w -> ~ In c w.
Proof.
  assert (Hall : forall (p : char -> bool) (w : str),
             negb (p c) = true -> forallb p w = true -> ~ In c w).
  { intros p w Hp Hw Hin. rewrite forallb_forall in Hw. apply Hw in Hin.
    rewrite Hin in Hp. discriminate. }
  induction r as [p|p|p|p lo extra|r1 IH1 r2 IH2|r1 IH1]; simpl; intros Hav w Hw.
  - destruct Hw as (d & -> & Hd). intros [->|[]]. rewrite Hd in Hav. discriminate.
  - now apply (Hall p).
  - now apply (Hall p).
  - destruct Hw as [Hw _]. now apply (Hall p).
  - apply andb_true_iff in Hav as [A1 A2].
    destruct Hw as (w1 & w2 & -> & L1 & L2). intro Hin.
    apply in_app_or in Hin as [Hin|Hin]; [now apply (IH1 A1 w1) | now apply (IH2 A2 w2)].
  - now apply IH1.
Qed.

(* =================================================================== *)
(** ** The matcher finds a match whenever the language has one *)
(* =================================================================== *)

Lemma star_complete (A : Type) (p : char -> bool) (k : str -> option A) (w s' : str) :
  forallb p w = true -> k s' <> None -> star p k (w ++ s') <> None.
Proof.
  intros Hw Hk. induction w as [|c w IH]; simpl.
  - destruct s' as [|d s']; [exact Hk|]. simpl.
    destruct (p d); [|exact Hk]. now destruct (star p k s').
  - simpl in Hw. apply andb_true_iff in Hw as [Hc Hw]. rewrite Hc.
    specialize (IH Hw). now destruct (star p k (w ++ s')).
Qed.

Lemma lazy_star_complete (A : Type) (p : char -> bool) (k : str -> option A) (w s' : str) :
  forallb p w = true -> k s' <> None -> lazy_star p k (w ++ s') <> None.
Proof.
  intros Hw Hk. induction w as [|c w IH]; simpl.
  - destruct s' as [|d s']; simpl; now destruct (k _).
  - simpl in Hw. apply andb_true_iff in Hw as [Hc Hw]. rewrite Hc.
    destruct (k (c :: w ++ s')); [discriminate | now apply IH].
Qed.

Lemma rep_opt_complete (A : Type) (p : char -> bool) (k : str -> option A) (w s' : str) :
  forall n, forallb p w = true -> length w <= n -> k s' <> None ->
            rep_opt p n k (w ++ s') <> None.
Proof.
  induction w as [|c w IH]; intros n Hw Hl Hk.
  - destruct n as [|n]; simpl; [exact Hk|].
    destruct s' as [|d s']; [exact Hk|].
    destruct (p d); [|exact Hk]. now destruct (rep_opt p n k s').
  - destruct n as [|n]; [simpl in Hl; lia|]. simpl.
    simpl in Hw. apply andb_true_iff in Hw as [Hc Hw]. rewrite Hc.
    assert (IHn := IH n Hw ltac:(simpl in Hl; lia) Hk).
    now destruct (rep_opt p n k (w ++ s')).
Qed.

Lemma drop_exact_app (p : char -> bool) (u s : str) :
  forallb p u = true -> drop_exact (length u) p (u ++ s) = Some s.
Proof.
  induction u as [|c u IH]; simpl; [reflexivity|].
  intro H. apply andb_true_iff in H as [-> H]. now apply IH.
Qed.

Lemma run_complete (A : Type) (r : regex) :
  forall (k : str -> list str -> option A) (w s' : str),
    lang r w -> (forall gs', k s' gs' <> None) ->
    forall gs, run r k (w ++ s') gs <> None.
Proof.
  induction r as [p|p|p|p lo extra|r1 IH1 r2 IH2|r1 IH1]; intros k w s' L Hk gs;
    simpl in *.
  - destruct L as (c & -> & Hc). simpl. rewrite Hc. apply Hk.
  - apply star_complete; [exact L | apply Hk].
  - apply lazy_star_complete; [exact L | apply Hk].
  - destruct L as [Hw [Hlo Hhi]]. rewrite rep_min_exact.
    rewrite <- (firstn_skipn lo w) in Hw |- *. rewrite forallb_app in Hw.
    apply andb_true_iff in Hw as [H1 H2]. rewrite <- app_assoc.
    replace lo with (length (firstn lo w)) at 1 by (rewrite length_firstn; lia).
    rewrite drop_exact_app by exact H1.
    apply rep_opt_complete; [exact H2 | rewrite length_skipn; lia | apply Hk].
  - destruct L as (w1 & w2 & -> & L1 & L2). rewrite <- app_assoc.
    apply IH1; [exact L1|]. intro gs'. now apply IH2.
  - apply IH1; [exact L|]. intro gs'. apply Hk.
Qed.

(** [re_match] fails exactly on the strings no prefix of which the pattern
    matches. *)
Lemma re_match_none_iff (r : regex) (s : str) :
  re_match r s = None <-> forall w s', s = w ++ s' -> ~ lang r w.
Proof.
  split.
  - intros H w s' -> L. revert H. unfold re_match.
    apply run_complete; [exact L|]. intros gs'. discriminate.
  - intro H. destruct (re_match r s) as [m|] eqn:E; [|reflexivity].
    apply re_match_sound in E as (rest & E & L). now apply H in E.
Qed.

(* =================================================================== *)
(** ** Matching without backtracking looks one character ahead *)
(* =================================================================== *)

Lemma drop_while_length (p : char -> bool) (s : str) :
  length (drop_while p s) <= length s.
Proof.
  induction s as [|c s IH]; simpl; [lia|]. destruct (p c); simpl; lia.
Qed.

Lemma drop_upto_length (n : nat) (p : char -> bool) (s : str) :
  length (drop_upto n p s) <= length s.
Proof.
  revert s; induction n as [|n IH]; intros [|c s]; simpl; try lia.
  destruct (p c); simpl; [specialize (IH s)|]; lia.
Qed.

Lemma drop_while_local (p : char -> bool) (u v x y : str) :
  v <> [] ->
  drop_while p (u ++ v ++ x) = v ++ x -> drop_while p (u ++ v ++ y) = v ++ y.
Proof.
  intros Hv. induction u as [|d u IH]; simpl.
  - destruct v as [|c v]; [contradiction|]. simpl.
    destruct (p c); [|reflexivity].
    intro H. pose proof (drop_while_length p (v ++ x)) as L.
    rewrite H in L. simpl in L. lia.
  - destruct (p d); [exact IH|].
    intro H. pose proof (f_equal (@length char) H) as L.
    simpl in L. rewrite !length_app in L. lia.
Qed.

Lemma drop_upto_local (n : nat) (p : char -> bool) (u v x y : str) :
  v <> [] ->
  drop_upto n p (u ++ v ++ x) = v ++ x -> drop_upto n p (u ++ v ++ y) = v ++ y.
Proof.
  intros Hv. revert u; induction n as [|n IH]; intros u; simpl.
  - intro H. assert (u = []) as ->.
    { destruct u; [reflexivity|]. apply (f_equal (@length char)) in H.
      simpl in H. rewrite !length_app in H. lia. }
    reflexivity.
  - destruct u as [|d u]; simpl.
    + destruct v as [|c v]; [contradiction|]. simpl.
      destruct (p c); [|reflexivity].
      intro H. pose proof (drop_upto_length n p (v ++ x)) as L.
      rewrite H in L. simpl in L. lia.
    + destruct (p d); [apply IH|].
      intro H. pose proof (f_equal (@length char) H) as L.
      simpl in L. rewrite !length_app in L. lia.
Qed.

Lemma drop_exact_local (n : nat) (p : char -> bool) (u v x y : str) :
  v <> [] ->
  drop_exact n p (u ++ v ++ x) = Some (v ++ x) ->
  drop_exact n p (u ++ v ++ y) = Some (v ++ y).
Proof.
  intros Hv H.
  pose proof (drop_exact_suffix _ _ _ H) as (u' & E & Hu & Hl).
  apply app_inv_tail in E. subst u'. subst n. clear H.
  induction u as [|d u IH]; simpl; [reflexivity|].
  simpl in Hu. apply andb_true_iff in Hu as [-> Hu]. now apply IH.
Qed.

Lemma pmatch_suffix (r : regex) :
  forall s gs s' g, pmatch r s gs = Some (s', g) -> exists u, s = u ++ s'.
Proof.
  induction r as [p|p|p|p lo extra|r1 IH1 r2 IH2|r1 IH1]; intros s gs s' g H; simpl in H.
  - destruct s as [|c s]; [discriminate|]. destruct (p c); [|discriminate].
    injection H as -> _. now exists [c].
  - injection H as <- _. destruct (drop_while_suffix p s) as (u & E & _). now exists u.
  - discriminate.
  - destruct (drop_exact lo p s) as [s1|] eqn:E; [|discriminate].
    injection H as <- _. apply drop_exact_suffix in E as (u1 & -> & _).
    destruct (drop_upto_suffix extra p s1) as (u2 & E2 & _).
    exists (u1 ++ u2). rewrite <- app_assoc. now rewrite <- E2.
  - destruct (pmatch r1 s gs) as [[s1 g1]|] eqn:E1; [|discriminate].
    apply IH1 in E1 as (u1 & ->). apply IH2 in H as (u2 & ->).
    exists (u1 ++ u2). now rewrite <- app_assoc.
  - destruct (pmatch r1 s gs) as [[s1 g1]|] eqn:E1; [|discriminate].
    injection H as <- _. now apply IH1 in E1.
Qed.

Lemma pmatch_local (r : regex) :
  forall u v x y gs g, v <> [] ->
    pmatch r (u ++ v ++ x) gs = Some (v ++ x, g) ->
    pmatch r (u ++ v ++ y) gs = Some (v ++ y, g).
Proof.
  induction r as [p|p|p|p lo extra|r1 IH1 r2 IH2|r1 IH1];
    intros u v x y gs g Hv H; simpl in *.
  - destruct (u ++ v ++ x) as [|c s] eqn:E; [discriminate|].
    destruct (p c) eqn:Ep; [|discriminate]. injection H as -> ->.
    change (c :: v ++ x) with ([c] ++ v ++ x) in E.
    apply app_inv_tail in E. subst u. simpl. now rewrite Ep.
  - injection H as H ->. f_equal. f_equal. now apply drop_while_local with (x := x).
  - discriminate.
  - destruct (drop_exact lo p (u ++ v ++ x)) as [s1|] eqn:E; [|discriminate].
    injection H as H ->.
    pose proof (drop_exact_suffix _ _ _ E) as (u1 & E1 & _).
    destruct (drop_upto_suffix extra p s1) as (u2 & E2 & _).
    rewrite H in E2. subst s1.
    assert (u = u1 ++ u2) as ->.
    { rewrite (app_assoc u1 u2 (v ++ x)) in E1. now apply app_inv_tail in E1. }
    assert (E' : drop_exact lo p (u1 ++ (u2 ++ v) ++ y) = Some ((u2 ++ v) ++ y)).
    { apply drop_exact_local with (x := x).
      - intro Hn. apply app_eq_nil in Hn as [_ Hn]. contradiction.
      - rewrite <- !app_assoc in E |- *. exact E. }
    rewrite <- !app_assoc in E' |- *. rewrite E'.
    f_equal. f_equal. now apply drop_upto_local with (x := x).
  - destruct (pmatch r1 (u ++ v ++ x) gs) as [[s1 g1]|] eqn:E1; [|discriminate].
    pose proof (pmatch_suffix _ _ _ E1) as (u1 & Eu1).
    pose proof (pmatch_suffix _ _ _ H) as (u2 & Eu2).
    subst s1.
    assert (u = u1 ++ u2) as ->.
    { rewrite (app_assoc u1 u2 (v ++ x)) in Eu1. now apply app_inv_tail in Eu1. }
    assert (E' : pmatch r1 (u1 ++ (u2 ++ v) ++ y) gs = Some ((u2 ++ v) ++ y, g1)).
    { apply IH1 with (x := x).
      - intro Hn. apply app_eq_nil in Hn as [_ Hn]. contradiction.
      - rewrite <- !app_assoc in E1 |- *. exact E1. }
    rewrite <- !app_assoc in E' |- *. rewrite E'.
    now apply IH2 with (x := x).
  - destruct (pmatch r1 (u ++ v ++ x) gs) as [[s1 g1]|] eqn:E1; [|discriminate].
    injection H as -> <-.
    rewrite (IH1 u v x y gs g1 Hv E1).
    now rewrite !firstn_length_app.
Qed.

Lemma pmatch_progress (r : regex) :
  ends_chr r = true ->
  forall s gs s' g, pmatch r s gs = Some (s', g) -> length s' < length s.
Proof.
  induction r as [p|p|p|p lo extra|r1 IH1 r2 IH2|r1 IH1]; simpl;
    intros He s gs s' g H; try discriminate.
  - destruct s as [|c s]; [discriminate|]. destruct (p c); [|discriminate].
    injection H as -> _. simpl. lia.
  - destruct (pmatch r1 s gs) as [[s1 g1]|] eqn:E1; [|discriminate].
    apply pmatch_suffix in E1 as (u1 & ->). apply (IH2 He) in H.
    rewrite length_app. lia.
  - destruct (pmatch r1 s gs) as [[s1 g1]|] eqn:E1; [|discriminate].
    injection H as <- _. now apply (IH1 He) in E1.
Qed.

(** A pattern that ends with a single character does not look past the
    end of its match. *)
Lemma pmatch_local_end (r : regex) :
  ends_chr r = true ->
  forall u x y gs g,
    pmatch r (u ++ x) gs = Some (x, g) -> pmatch r (u ++ y) gs = Some (y, g).
Proof.
  induction r as [p|p|p|p lo extra|r1 IH1 r2 IH2|r1 IH1]; simpl;
    intros He u x y gs g H; try discriminate.
  - destruct (u ++ x) as [|c s] eqn:E; [discriminate|].
    destruct (p c) eqn:Ep; [|discriminate]. injection H as -> ->.
    change (c :: x) with ([c] ++ x) in E. apply app_inv_tail in E. subst u.
    simpl. now rewrite Ep.
  - destruct (pmatch r1 (u ++ x) gs) as [[s1 g1]|] eqn:E1; [|discriminate].
    pose proof (pmatch_suffix _ _ _ E1) as (u1 & Eu1).
    pose proof (pmatch_suffix _ _ _ H) as (u2 & Eu2).
    pose proof (pmatch_progress _ He _ _ H) as Hlt.
    subst s1.
    assert (u = u1 ++ u2) as ->.
    { rewrite app_assoc in Eu1. now apply app_inv_tail in Eu1. }
    assert (u2 <> []) as Hu2.
    { intros ->. simpl in Hlt. lia. }
    rewrite <- app_assoc in E1 |- *.
    assert (E1' : pmatch r1 (u1 ++ u2 ++ y) gs = Some (u2 ++ y, g1)).
    { apply pmatch_local with (x := x); assumption. }
    rewrite E1'. now apply IH2 with (x := x).
  - destruct (pmatch r1 (u ++ x) gs) as [[s1 g1]|] eqn:E1; [|discriminate].
    injection H as -> <-.
    rewrite (IH1 He u x y gs g1 E1). now rewrite !firstn_length_app.
Qed.

(* =================================================================== *)
(** ** When backtracking changes nothing *)
(* =================================================================== *)

Lemma star_munch (A : Type) (p : char -> bool) (k : str -> option A) (s : str) :
  (forall c s', p c = true -> k (c :: s') = None) ->
  star p k s = k (drop_while p s).
Proof.
  intro Hk. induction s as [|c s IH]; simpl; [reflexivity|].
  destruct (p c) eqn:E; [|reflexivity].
  rewrite IH. destruct (k (drop_while p s)) eqn:Ek; [reflexivity|].
  now apply Hk.
Qed.

Lemma drop_upto_none (A : Type) (p : char -> bool) (k : str -> option A) :
  (forall c s', p c = true -> k s' = None -> k (c :: s') = None) ->
  forall n s, k (drop_upto n p s) = None -> k s = None.
Proof.
  intros Hk n. induction n as [|n IH]; intros s H; simpl in H; [exact H|].
  destruct s as [|c s]; [exact H|].
  destruct (p c) eqn:E; [|exact H]. apply Hk; [exact E|]. now apply IH.
Qed.

Lemma rep_opt_munch (A : Type) (p : char -> bool) (n : nat) (k : str -> option A) (s : str) :
  (forall c s', p c = true -> k s' = None -> k (c :: s') = None) ->
  rep_opt p n k s = k (drop_upto n p s).
Proof.
  intro Hk. revert s; induction n as [|n IH]; intros s; simpl; [reflexivity|].
  destruct s as [|c s]; [reflexivity|].
  destruct (p c) eqn:E; [|reflexivity].
  rewrite IH. destruct (k (drop_upto n p s)) eqn:Ek; [reflexivity|].
  apply Hk; [exact E|]. eapply drop_upto_none; [exact Hk | exact Ek].
Qed.

Lemma star_none_mono (A : Type) (p : char -> bool) (k1 k2 : str -> option A) (s : str) :
  (forall t, k1 t = None -> k2 t = None) ->
  star p k1 s = None -> star p k2 s = None.
Proof.
  intro Hk. induction s as [|c s IH]; simpl; [apply Hk|].
  destruct (p c); [|apply Hk].
  destruct (star p k1 s); [discriminate|].
  rewrite (IH eq_refl). apply Hk.
Qed.

Lemma lazy_star_none_mono (A : Type) (p : char -> bool) (k1 k2 : str -> option A) (s : str) :
  (forall t, k1 t = None -> k2 t = None) ->
  lazy_star p k1 s = None -> lazy_star p k2 s = None.
Proof.
  intro Hk. induction s as [|c s IH]; simpl.
  - destruct (k1 []) eqn:E; [discriminate|]. now rewrite (Hk _ E).
  - destruct (k1 (c :: s)) eqn:E; [discriminate|]. rewrite (Hk _ E).
    destruct (p c); [exact IH | reflexivity].
Qed.

Lemma rep_opt_none_mono (A : Type) (p : char -> bool) (n : nat)
  (k1 k2 : str -> option A) (s : str) :
  (forall t, k1 t = None -> k2 t = None) ->
  rep_opt p n k1 s = None -> rep_opt p n k2 s = None.
Proof.
  intro Hk. revert s; induction n as [|n IH]; intros s; simpl; [apply Hk|].
  destruct s as [|c s]; [apply Hk|].
  destruct (p c); [|apply Hk].
  destruct (rep_opt p n k1 s) eqn:E; [discriminate|].
  rewrite (IH _ E). apply Hk.
Qed.

Lemma run_none_gs (A : Type) (r : regex) :
  forall (k k' : str -> list str -> option A),
    (forall t g g', k t g = None -> k' t g' = None) ->
    forall s g g', run r k s g = None -> run r k' s g' = None.
Proof.
  induction r as [p|p|p|p lo extra|r1 IH1 r2 IH2|r1 IH1]; intros k k' Hk s g g'; simpl.
  - destruct s as [|c s]; [reflexivity|]. destruct (p c); [apply Hk | reflexivity].
  - apply star_none_mono. intro t. apply Hk.
  - apply lazy_star_none_mono. intro t. apply Hk.
  - rewrite !rep_min_exact. destruct (drop_exact lo p s); [|reflexivity].
    apply rep_opt_none_mono. intro t. apply Hk.
  - apply IH1. intros t g1 g2. apply IH2. exact Hk.
  - apply IH1. intros t g1 g2. apply Hk.
Qed.

Lemma gs_blind_run (A : Type) (r : regex) (k : str -> list str -> option A) :
  gs_blind k -> gs_blind (run r k).
Proof. intros Hk t g g'. apply run_none_gs. exact Hk. Qed.

Lemma gs_blind_accept (s : str) : gs_blind (accept s).
Proof. intros t g g'. discriminate. Qed.

Lemma Det_chr (A : Type) (p : char -> bool) (k : str -> list str -> option A) :
  Det (Chr p) k.
Proof. intros [|c s] gs; simpl; [reflexivity|]. now destruct (p c). Qed.

Lemma Det_seq (A : Type) (r1 r2 : regex) (k : str -> list str -> option A) :
  Det r2 k -> Det r1 (run r2 k) -> Det (Seq r1 r2) k.
Proof.
  intros D2 D1 s gs. simpl. rewrite D1.
  destruct (pmatch r1 s gs) as [[s1 g1]|]; simpl; [apply D2 | reflexivity].
Qed.

Lemma Det_star (A : Type) (p : char -> bool) (k : str -> list str -> option A) :
  rejects_first p k -> Det (Star p) k.
Proof.
  intros Hk s gs. simpl. apply star_munch. intros c s' Hc. now apply Hk.
Qed.

Lemma Det_rep (A : Type) (p : char -> bool) (lo extra : nat)
  (k : str -> list str -> option A) :
  absorbs p k -> Det (Rep p lo extra) k.
Proof.
  intros Hk s gs. simpl. rewrite rep_min_exact.
  destruct (drop_exact lo p s) as [s1|]; simpl; [|reflexivity].
  apply rep_opt_munch. intros c s' Hc. now apply Hk.
Qed.

Lemma Det_group (A : Type) (r : regex) (k : str -> list str -> option A) :
  (forall s0, Det r (fun s' gs' => k s' (gs' ++ [firstn (length s0 - length s') s0]))) ->
  Det (Group r) k.
Proof.
  intros D s gs. simpl. rewrite (D s).
  now destruct (pmatch r s gs) as [[s1 g1]|].
Qed.

Lemma rejects_chr (A : Type) (q p : char -> bool) (k : str -> list str -> option A) :
  (forall c, q c = true -> p c = false) -> rejects_first q (run (Chr p) k).
Proof. intros H c s gs Hq. simpl. now rewrite (H c Hq). Qed.

Lemma rejects_seq (A : Type) (q : char -> bool) (r1 r2 : regex)
  (k : str -> list str -> option A) :
  rejects_first q (run r1 (run r2 k)) -> rejects_first q (run (Seq r1 r2) k).
Proof. intros H c s gs Hq. simpl. now apply H. Qed.

(** A bounded greedy repetition of [p] before a starred group of a wider
    class: the characters the repetition gives back are taken by the
    group, so giving back does not help. *)
Lemma absorbs_group_star (A : Type) (p nm : char -> bool)
  (k : str -> list str -> option A) :
  (forall c, p c = true -> nm c = true) ->
  rejects_first nm k -> gs_blind k ->
  absorbs p (run (Group (Star nm)) k).
Proof.
  intros Hsub Hrej Hblind c s gs Hc. cbn [run].
  rewrite !star_munch by (intros d s' Hd; now apply Hrej).
  cbn [drop_while]. rewrite (Hsub c Hc). apply Hblind.
Qed.

(* =================================================================== *)
(** ** The assignment pattern *)
(* =================================================================== *)

Lemma is_hex_is_name (c : char) : is_hex c = true -> is_name c = true.
Proof.
  intro H. unfold is_hex, in_range in H. unfold is_name, is_word.
  rewrite !orb_true_iff, !andb_true_iff, !N.leb_le in H.
  assert (L : N.ltb c 128 = true) by (apply N.ltb_lt; lia).
  rewrite L. apply orb_true_iff. right. unfold ascii_word, in_range.
  rewrite !orb_true_iff, !andb_true_iff, !N.leb_le, N.eqb_eq. lia.
Qed.

Lemma class_not_char (q : char -> bool) (d : char) :
  q d = false -> forall c, q c = true -> is_char d c = false.
Proof.
  intros Hd c Hc. unfold is_char. destruct (N.eqb_spec d c) as [<-|]; [|reflexivity].
  rewrite Hd in Hc. discriminate.
Qed.

(** On the assignment pattern, backtracking changes nothing: every
    repetition is followed by a character it cannot match, except the
    colour digits, which the name takes over. *)
Lemma raid_cd_det (A : Type) (k : str -> list str -> option A) :
  gs_blind k -> Det RAID_CD_REGEX k.
Proof.
  intro Hk. unfold RAID_CD_REGEX, Lits. cbn [lit list_ascii_of_string map fold_right].
  apply Det_seq; [|apply Det_chr].
  apply Det_seq; [|apply Det_chr].
  apply Det_seq.
  - apply Det_seq.
    + apply Det_seq; [|apply Det_chr].
      apply Det_seq; [|apply Det_chr].
      apply Det_group. intro s0.
      apply Det_seq.
      * repeat (apply Det_seq; [|apply Det_chr]).
        apply Det_seq.
        -- repeat (apply Det_seq; [|apply Det_chr]). apply Det_chr.
        -- apply Det_star. apply rejects_seq, rejects_chr.
           apply class_not_char. reflexivity.
      * apply Det_star. apply rejects_seq, rejects_chr.
        apply class_not_char. reflexivity.
    + apply Det_group. intro s0. apply Det_star.
      intros c s gs Hc. cbn [run].
      rewrite (class_not_char is_name (chr "|") eq_refl c Hc). reflexivity.
  - apply Det_rep.
    change (absorbs is_hex
              (run (Group (Star is_name))
                 (run (Seq (Chr (is_char (chr "|")))
                         (Seq (Chr (is_char (chr "r")))
                            (Group
                               (Seq (Star is_space)
                                  (Lits (lit "{spell:")
                                     (Seq (Star is_digit)
                                        (Lits (lit "}")
                                           (Seq (Chr is_space) (Chr is_space)))))))))
                    k))).
    apply absorbs_group_star.
    + exact is_hex_is_name.
    + apply rejects_seq, rejects_chr. apply class_not_char. reflexivity.
    + apply gs_blind_run. exact Hk.
Qed.

(** A pattern without need for backtracking that ends with a single
    character finds the same match whatever follows the matched text. *)
Lemma det_stable (r : regex) :
  ends_chr r = true -> (forall s, Det r (accept s)) ->
  forall w x y m,
    re_match r (w ++ x) = Some m -> m_text m = w -> re_match r (w ++ y) = Some m.
Proof.
  intros He D w x y m H Hw. unfold re_match in *. rewrite D in H. rewrite D.
  destruct (pmatch r (w ++ x) []) as [[s' g]|] eqn:E; [|discriminate].
  simpl in H. unfold accept in H. injection H as <-. simpl in Hw.
  pose proof (pmatch_suffix _ _ _ E) as (u & Eu).
  rewrite Eu in Hw. rewrite firstn_length_app in Hw. subst u.
  apply app_inv_head in Eu. subst s'.
  assert (E' : pmatch r (w ++ y) [] = Some (y, g))
    by (apply pmatch_local_end with (x := x); assumption).
  rewrite E'. simpl. unfold accept.
  now rewrite !firstn_length_app.
Qed.

Lemma cd_stable (w x y : str) (m : rmatch) :
  re_match RAID_CD_REGEX (w ++ x) = Some m -> m_text m = w ->
  re_match RAID_CD_REGEX (w ++ y) = Some m.
Proof.
  apply det_stable; [reflexivity|].
  intro s. apply raid_cd_det. apply gs_blind_accept.
Qed.

(** A match of the assignment pattern is found again at the start of any
    text that begins with its characters. *)
Lemma cd_match_token (b : str) (m : rmatch) :
  re_match RAID_CD_REGEX b = Some m ->
  forall rest, re_match RAID_CD_REGEX (m_text m ++ rest) = Some m.
Proof.
  intros H rest. destruct (re_match_sound _ _ H) as (rest0 & E & _).
  rewrite E in H. now apply cd_stable with (x := rest0).
Qed.

Lemma cd_token_standalone (m : rmatch) :
  re_match RAID_CD_REGEX (m_text m) = Some m ->
  forall rest, re_match RAID_CD_REGEX (m_text m ++ rest) = Some m.
Proof. apply cd_match_token. Qed.

Lemma cd_token_inj (m1 m2 : rmatch) :
  (forall rest, re_match RAID_CD_REGEX (m_text m1 ++ rest) = Some m1) ->
  (forall rest, re_match RAID_CD_REGEX (m_text m2 ++ rest) = Some m2) ->
  forall r1 r2, m_text m1 ++ r1 = m_text m2 ++ r2 -> m1 = m2.
Proof.
  intros H1 H2 r1 r2 E. specialize (H1 r1). specialize (H2 r2).
  rewrite E in H1. congruence.
Qed.

Lemma lang_Lits (s : str) (r : regex) (w : str) :
  lang (Lits s r) w <-> exists w', w = s ++ w' /\ lang r w'.
Proof.
  revert w; induction s as [|c s IH]; intros w; simpl.
  - split; [intro H; now exists w | intros (w' & -> & H); exact H].
  - split.
    + intros (w1 & w2 & -> & (d & -> & Hd) & H2).
      apply IH in H2 as (w' & -> & H'). apply N.eqb_eq in Hd. subst d.
      now exists w'.
    + intros (w' & -> & H'). exists [c], (s ++ w'). repeat split.
      * exists c. split; [reflexivity | apply N.eqb_refl].
      * apply IH. now exists w'.
Qed.

Lemma bar_r_only_no_bar (s t : str) :
  ~ In (chr "|") s -> bar_r_only t = true -> bar_r_only (s ++ t) = true.
Proof.
  induction s as [|c s IH]; intros Hn Ht; [exact Ht|].
  cbn [app bar_r_only]. destruct (N.eqb_spec c (chr "|")) as [->|Hc].
  - exfalso. apply Hn. now left.
  - cbn [andb]. apply IH; [|exact Ht]. intro Hin. apply Hn. now right.
Qed.

Lemma bar_r_only_suffix (v u : str) :
  bar_r_only (v ++ u) = true -> bar_r_only u = true.
Proof.
  induction v as [|c v IH]; [trivial|]. cbn [app bar_r_only].
  intro H. apply andb_true_iff in H as [_ H]. now apply IH.
Qed.

(** The shape of an assignment token: it opens with [|c], has no hyphen,
    and after its first character every [|] is followed by an [r]. *)
Lemma cd_lang_shape (w : str) :
  lang RAID_CD_REGEX w ->
  exists t, w = chr "|" :: t /\ hd 0%N t = chr "c" /\ bar_r_only t = true
            /\ ~ In (chr "-") w.
Proof.
  intro H.
  assert (Hhy : ~ In (chr "-") w).
  { apply (avoids_lang (chr "-") RAID_CD_REGEX); [reflexivity | exact H]. }
  unfold RAID_CD_REGEX in H.
  apply lang_Lits in H as (w0 & -> & H).
  destruct H as (w1 & w0' & -> & H1 & H).
  destruct H as (w2 & w3 & -> & H2 & H).
  apply lang_Lits in H as (w4 & -> & H4).
  exists (chr "c" :: w1 ++ w2 ++ lit "|r" ++ w4). repeat split; [|exact Hhy].
  assert (N1 : ~ In (chr "|") w1).
  { apply (avoids_lang (chr "|") (Rep is_hex 6 2)); [reflexivity | exact H1]. }
  assert (N2 : ~ In (chr "|") w2).
  { apply (avoids_lang (chr "|") (Group (Star is_name))); [reflexivity | exact H2]. }
  assert (N4 : ~ In (chr "|") w4).
  { revert H4. apply avoids_lang. reflexivity. }
  change (bar_r_only ([chr "c"] ++ w1 ++ w2 ++ lit "|r" ++ w4) = true).
  apply bar_r_only_no_bar; [intros [E|[]]; discriminate|].
  apply bar_r_only_no_bar; [exact N1|].
  apply bar_r_only_no_bar; [exact N2|].
  change (bar_r_only ([chr "|"; chr "r"] ++ w4) = true).
  cbn [app bar_r_only]. rewrite !N.eqb_refl. simpl.
  rewrite <- (app_nil_r w4). apply bar_r_only_no_bar; [exact N4 | reflexivity].
Qed.

Lemma cd_match_shape (b : str) (m : rmatch) :
  re_match RAID_CD_REGEX b = Some m ->
  exists t, m_text m = chr "|" :: t /\ hd 0%N t = chr "c" /\ bar_r_only t = true
            /\ ~ In (chr "-") (m_text m).
Proof.
  intro H. apply re_match_sound in H as (rest & _ & L). now apply cd_lang_shape.
Qed.

(** No assignment token starts inside another one. *)
Lemma cd_no_inner_start (b : str) (m : rmatch) (v u rest : str) :
  re_match RAID_CD_REGEX b = Some m ->
  m_text m = v ++ u -> v <> [] -> u <> [] ->
  startswith (lit "|c") (u ++ rest) = false.
Proof.
  intros H E Hv Hu. destruct (cd_match_shape _ H) as (t & Et & _ & Hb & _).
  rewrite Et in E. destruct v as [|c0 v]; [contradiction|].
  injection E as _ E. subst t. apply bar_r_only_suffix in Hb.
  destruct u as [|c u]; [contradiction|]. cbn [bar_r_only] in Hb.
  change (lit "|c") with [chr "|"; chr "c"]. cbn [app startswith].
  destruct (N.eqb_spec (chr "|") c) as [<-|Hc]; [|reflexivity].
  rewrite N.eqb_refl in Hb. apply andb_true_iff in Hb as [Hb _].
  destruct u as [|d u]; [discriminate|]. apply N.eqb_eq in Hb. subst d.
  reflexivity.
Qed.

Lemma cd_match_starts (b : str) (m : rmatch) :
  re_match RAID_CD_REGEX b = Some m -> startswith (lit "|c") (m_text m) = true.
Proof.
  intro H. destruct (cd_match_shape _ H) as (t & -> & Hc & _).
  destruct t as [|c t]; simpl in Hc; [discriminate|]. subst c. reflexivity.
Qed.

Lemma cd_match_non_empty (b : str) (m : rmatch) :
  re_match RAID_CD_REGEX b = Some m -> non_empty (m_text m) = true.
Proof. intro H. destruct (cd_match_shape _ H) as (t & -> & _). reflexivity. Qed.

(* =================================================================== *)
(** ** The header pattern *)
(* =================================================================== *)

(** A header ends with a hyphen and one white-space character. *)
Lemma header_lang_shape (w : str) :
  lang HEADER_REGEX w -> exists w' c, w = w' ++ [chr "-"; c] /\ is_space c = true.
Proof.
  unfold HEADER_REGEX. intros (w1 & w2 & -> & _ & H).
  apply lang_Lits in H as (w3 & -> & H).
  destruct H as (w4 & w5 & -> & _ & H).
  apply lang_Lits in H as (w6 & -> & (c & -> & Hc)).
  exists (w1 ++ lit "-" ++ w4), c. split; [|exact Hc].
  now rewrite <- !app_assoc.
Qed.

(* =================================================================== *)
(** ** Scanning: [finditer] and [replace] *)
(* =================================================================== *)

Lemma finditer_from_skip (r : regex) (a b : str) :
  finditer_from r (a ++ b) (length a) = finditer_from r b 0.
Proof. induction a as [|c a IH]; simpl; [reflexivity | exact IH]. Qed.

Lemma finditer_cons (r : regex) (t rest : str) (m : rmatch) :
  re_match r (t ++ rest) = Some m -> m_text m = t -> t <> [] ->
  finditer r (t ++ rest) = m :: finditer r rest.
Proof.
  intros H Ht Hne. destruct t as [|c t]; [contradiction|].
  unfold finditer. cbn [app finditer_from].
  change (c :: t ++ rest) with ((c :: t) ++ rest). rewrite H, Ht.
  replace (length (c :: t) - 1) with (length t) by (simpl; lia).
  f_equal. apply finditer_from_skip.
Qed.

Lemma finditer_from_In (r : regex) (m : rmatch) :
  forall s k, In m (finditer_from r s k) ->
              exists a b, s = a ++ b /\ re_match r b = Some m.
Proof.
  induction s as [|c s IH]; intros k H; simpl in H.
  - destruct k; [|contradiction].
    destruct (re_match r []) as [m'|] eqn:E; [|contradiction].
    destruct H as [->|[]]. now exists [], [].
  - destruct k as [|k].
    + destruct (re_match r (c :: s)) as [m'|] eqn:E.
      * destruct H as [->|H]; [now exists [], (c :: s)|].
        apply IH in H as (a & b & -> & Hb). now exists (c :: a), b.
      * apply IH in H as (a & b & -> & Hb). now exists (c :: a), b.
    + apply IH in H as (a & b & -> & Hb). now exists (c :: a), b.
Qed.

Lemma finditer_In (r : regex) (m : rmatch) (s : str) :
  In m (finditer r s) -> exists a b, s = a ++ b /\ re_match r b = Some m.
Proof. apply finditer_from_In. Qed.

Lemma finditer_found (r : regex) (a b : str) (m : rmatch) :
  re_match r b = Some m -> finditer r (a ++ b) <> [].
Proof.
  intro H. unfold finditer. induction a as [|c a IH]; simpl.
  - destruct b as [|c b]; simpl; rewrite H; discriminate.
  - destruct (re_match r (c :: a ++ b)); [discriminate | exact IH].
Qed.

Lemma finditer_no_start (r : regex) (h X : str) :
  (forall a u, h = a ++ u -> u <> [] -> re_match r (u ++ X) = None) ->
  finditer r (h ++ X) = finditer r X.
Proof.
  unfold finditer. induction h as [|c h IH]; intro H; [reflexivity|].
  cbn [app finditer_from].
  change (c :: h ++ X) with ((c :: h) ++ X).
  rewrite (H [] (c :: h) eq_refl) by discriminate.
  apply IH. intros a u -> Hu. apply (H (c :: a) u); [reflexivity | exact Hu].
Qed.

Lemma replace_from_skip (old new a b : str) :
  replace_from old new (a ++ b) (length a) = replace_from old new b 0.
Proof. induction a as [|c a IH]; simpl; [reflexivity | exact IH]. Qed.

Lemma replace_cons (old new : str) :
  old <> [] -> forall s, replace old new s = replace_from old new s 0.
Proof. intros H s. destruct old; [contradiction | reflexivity]. Qed.

Lemma replace_from_hit (old new rest : str) :
  old <> [] ->
  replace_from old new (old ++ rest) 0 = new ++ replace_from old new rest 0.
Proof.
  intro H. destruct old as [|c old]; [contradiction|].
  cbn [app replace_from].
  change (c :: old ++ rest) with ((c :: old) ++ rest).
  rewrite startswith_app.
  replace (length (c :: old) - 1) with (length old) by (simpl; lia).
  now rewrite replace_from_skip.
Qed.

Lemma replace_from_walk (old new t C : str) :
  (forall v u, t = v ++ u -> u <> [] -> startswith old (u ++ C) = false) ->
  replace_from old new (t ++ C) 0 = t ++ replace_from old new C 0.
Proof.
  induction t as [|c t IH]; intro H; [reflexivity|].
  cbn [app replace_from].
  change (c :: t ++ C) with ((c :: t) ++ C).
  rewrite (H [] (c :: t) eq_refl) by discriminate.
  cbn [app]. f_equal.
  apply IH. intros v u -> Hu. apply (H (c :: v) u); [reflexivity | exact Hu].
Qed.

Lemma replace_from_absent (old new s : str) (c : char) :
  In c old -> ~ In c s -> replace_from old new s 0 = s.
Proof.
  intros Hc Hs. rewrite <- (app_nil_r s) at 1.
  rewrite replace_from_walk; [simpl; now rewrite app_nil_r|].
  intros v u -> Hu. destruct (startswith old (u ++ [])) eqn:E; [|reflexivity].
  exfalso. apply Hs. apply in_or_app. right.
  rewrite app_nil_r in E. now apply (startswith_In old).
Qed.

Lemma startswith_trans (p t s : str) :
  startswith p t = true -> startswith t s = true -> startswith p s = true.
Proof.
  intros H1 H2. apply startswith_spec in H1 as [r1 ->].
  apply startswith_spec in H2 as [r2 ->].
  rewrite <- app_assoc. apply startswith_app.
Qed.

(* =================================================================== *)
(** ** Texts made of assignment tokens *)
(* =================================================================== *)

Lemma token_match (m : rmatch) : token m -> re_match RAID_CD_REGEX (m_text m) = Some m.
Proof. intro H. specialize (H []). now rewrite app_nil_r in H. Qed.

Lemma token_non_nil (m : rmatch) : token m -> m_text m <> [].
Proof.
  intros H E. apply token_match in H. apply cd_match_non_empty in H.
  rewrite E in H. discriminate.
Qed.

Lemma token_same_text (m1 m2 : rmatch) :
  token m1 -> token m2 -> m_text m1 = m_text m2 -> m1 = m2.
Proof.
  intros H1 H2 E. apply (cd_token_inj H1 H2 [] []). now rewrite E.
Qed.

Lemma finditer_match_token (s : str) (m : rmatch) :
  In m (finditer RAID_CD_REGEX s) -> token m.
Proof.
  intro H. apply finditer_In in H as (a & b & _ & H).
  intro rest. now apply cd_match_token with (b := b).
Qed.

Lemma finditer_cd_nil : finditer RAID_CD_REGEX [] = [].
Proof. reflexivity. Qed.

Lemma texts_cons (m : rmatch) (ms : list rmatch) :
  texts (m :: ms) = m_text m ++ texts ms.
Proof. reflexivity. Qed.

(** In a text made of tokens the matcher finds exactly these tokens. *)
Lemma finditer_tokens (ms : list rmatch) (tail : str) :
  Forall token ms ->
  finditer RAID_CD_REGEX (texts ms ++ tail) = ms ++ finditer RAID_CD_REGEX tail.
Proof.
  induction 1 as [|m ms Hm Hms IH]; [reflexivity|].
  rewrite texts_cons, <- app_assoc.
  erewrite finditer_cons;
    [ | apply Hm | reflexivity | now apply token_non_nil ].
  simpl. now rewrite IH.
Qed.

Lemma filter_filter (A : Type) (f g : A -> bool) (l : list A) :
  filter f (filter g l) = filter (fun a => g a && f a) l.
Proof.
  induction l as [|a l IH]; simpl; [reflexivity|].
  destruct (g a); simpl; [|exact IH]. destruct (f a); now rewrite IH.
Qed.

Lemma filter_all (A : Type) (f : A -> bool) (l : list A) :
  (forall a, In a l -> f a = true) -> filter f l = l.
Proof.
  induction l as [|a l IH]; simpl; intro H; [reflexivity|].
  rewrite (H a) by now left. f_equal. apply IH. intros b Hb. apply H. now right.
Qed.

Lemma Forall_filter (A : Type) (P : A -> Prop) (f : A -> bool) (l : list A) :
  Forall P l -> Forall P (filter f l).
Proof.
  intro H. apply Forall_forall. intros a Ha. apply filter_In in Ha as [Ha _].
  rewrite Forall_forall in H. now apply H.
Qed.

(** Removing a token's text from a text made of tokens removes the
    tokens with that text, and nothing else. *)
Lemma replace_tokens (m : rmatch) (ms : list rmatch) :
  token m -> Forall token ms ->
  replace (m_text m) [] (texts ms)
  = texts (filter (fun m' => negb (str_eqb (m_text m') (m_text m))) ms).
Proof.
  intros Hm Hms. rewrite replace_cons by now apply token_non_nil.
  induction Hms as [|m1 ms Hm1 Hms IH]; [reflexivity|].
  rewrite texts_cons. cbn [filter].
  destruct (str_eqb (m_text m1) (m_text m)) eqn:E; cbn [negb].
  - apply str_eqb_eq in E. rewrite E.
    rewrite replace_from_hit by now apply token_non_nil.
    exact IH.
  - apply str_eqb_neq in E. rewrite texts_cons, <- IH.
    apply replace_from_walk. intros v u Evu Hu.
    destruct (startswith (m_text m) (u ++ texts ms)) eqn:Es; [exfalso|reflexivity].
    destruct v as [|c v].
    + simpl in Evu. subst u. apply startswith_spec in Es as [r Er].
      apply E. f_equal. now apply (cd_token_inj Hm1 Hm (texts ms) r).
    + assert (Hin : startswith (lit "|c") (u ++ texts ms) = false).
      { apply cd_no_inner_start with (b := m_text m1) (m := m1) (v := c :: v);
          [now apply token_match | exact Evu | discriminate | exact Hu]. }
      rewrite (startswith_trans (lit "|c") (m_text m) (u ++ texts ms)) in Hin;
        [discriminate | | exact Es].
      apply cd_match_starts with (b := m_text m). now apply token_match.
Qed.

Lemma remove_cds_fold (healer : str) (X : list rmatch) :
  Forall token X ->
  Forall (fun m => str_eqb (group0 m) healer = true) X ->
  forall cur, Forall token cur ->
    fold_left
      (fun processed_event m =>
         if str_eqb (group0 m) healer
         then replace (m_text m) [] processed_event
         else processed_event)
      X (texts cur)
    = texts (filter
               (fun m' => negb (existsb (fun x => str_eqb (m_text m') (m_text x)) X))
               cur).
Proof.
  intros HX. induction HX as [|x X Hx HX IH]; intros Hg cur Hcur.
  - simpl. now rewrite filter_all.
  - inversion Hg as [|? ? Hgx HgX]; subst. cbn [fold_left]. rewrite Hgx.
    rewrite (replace_tokens Hx Hcur).
    rewrite (IH HgX) by now apply Forall_filter.
    rewrite filter_filter. f_equal. apply filter_ext. intro a.
    cbn [existsb]. now rewrite negb_orb.
Qed.

(** On a text made of tokens, [remove_cds_from_event] removes the tokens
    of the healer and keeps the others in their order. *)
Lemma remove_cds_tokens (healer : str) (ms : list rmatch) :
  Forall token ms ->
  remove_cds_from_event (texts ms) healer
  = texts (filter (fun m => negb (str_eqb (group0 m) healer)) ms).
Proof.
  intro Hms. unfold remove_cds_from_event, find_cds_for_healer.
  assert (Ef : finditer RAID_CD_REGEX (texts ms) = ms).
  { rewrite <- (app_nil_r (texts ms)). rewrite finditer_tokens by exact Hms.
    rewrite finditer_cd_nil. apply app_nil_r. }
  rewrite Ef. rewrite remove_cds_fold.
  - f_equal. apply filter_ext_in. intros a Ha. f_equal.
    destruct (str_eqb (group0 a) healer) eqn:Eg.
    + apply existsb_exists. exists a. split.
      * apply filter_In. now split.
      * apply str_eqb_refl.
    + destruct (existsb _ _) eqn:Ex; [|reflexivity].
      apply existsb_exists in Ex as (x & Hx & Etx).
      apply filter_In in Hx as [Hx Hgx]. apply str_eqb_eq in Etx.
      rewrite Forall_forall in Hms.
      rewrite (token_same_text (Hms a Ha) (Hms x Hx) Etx) in Eg. congruence.
  - now apply Forall_filter.
  - apply Forall_forall. intros x Hx. now apply filter_In in Hx as [_ Hx].
  - exact Hms.
Qed.

Lemma strip_roster_tokens (roster : list str) :
  forall ms, Forall token ms ->
    fold_left remove_cds_from_event roster (texts ms)
    = texts (filter (fun m => negb (existsb (str_eqb (group0 m)) roster)) ms).
Proof.
  induction roster as [|h roster IH]; intros ms Hms.
  - simpl. now rewrite filter_all.
  - cbn [fold_left]. rewrite remove_cds_tokens by exact Hms.
    rewrite IH by now apply Forall_filter.
    rewrite filter_filter. f_equal. apply filter_ext. intro a.
    cbn [existsb]. now rewrite negb_orb.
Qed.

(* =================================================================== *)
(** ** The line normalizer *)
(* =================================================================== *)

Lemma bug_1_match (s : str) :
  re_match BUG_1_REGEX s
  = if startswith (lit "|r{") s
    then Some {| m_text := lit "|r{"; m_groups := [] |}
    else None.
Proof.
  unfold re_match, BUG_1_REGEX, Lits, accept.
  cbn [lit list_ascii_of_string map fold_right run startswith]. unfold is_char.
  destruct s as [|a [|b [|c rest]]]; cbn [andb]; try reflexivity.
  - now destruct (N.eqb (chr "|") a).
  - destruct (N.eqb (chr "|") a); [|reflexivity]. now destruct (N.eqb (chr "r") b).
  - destruct (N.eqb_spec (chr "|") a) as [<-|]; [|reflexivity].
    destruct (N.eqb_spec (chr "r") b) as [<-|]; [|reflexivity].
    destruct (N.eqb_spec (chr "{") c) as [<-|]; [|reflexivity].
    cbn [andb length]. replace (S (S (S (length rest))) - length rest) with 3 by lia.
    reflexivity.
Qed.

Lemma insert_space_step (s : str) :
  insert_space s
  = match s with
    | [] => []
    | a :: t =>
        if startswith (lit "|r{") s
        then lit "|r {" ++ insert_space (skipn 2 t)
        else a :: insert_space t
    end.
Proof.
  destruct s as [|a [|b [|c rest]]]; cbn [insert_space startswith lit
    list_ascii_of_string map skipn]; try reflexivity.
  - now rewrite andb_false_r.
  - now rewrite !andb_false_r.
  - rewrite (N.eqb_sym (chr "|") a), (N.eqb_sym (chr "r") b), (N.eqb_sym (chr "{") c).
    rewrite andb_true_r, andb_assoc. reflexivity.
Qed.

(** The substitution of the script does what the contract says. *)
Lemma re_sub_bug_1 (s : str) :
  re_sub BUG_1_REGEX (lit "|r {") s = insert_space s.
Proof.
  unfold re_sub.
  assert (H : forall n s, length s <= n ->
              re_sub_from BUG_1_REGEX (lit "|r {") s 0 = insert_space s).
  { clear s. induction n as [|n IH]; intros s Hn.
    - destruct s; [reflexivity | simpl in Hn; lia].
    - destruct s as [|a t]; [reflexivity|].
      rewrite insert_space_step. cbn [re_sub_from]. rewrite bug_1_match.
      destruct (startswith (lit "|r{") (a :: t)) eqn:E.
      + apply startswith_spec in E as [rest E].
        cbn [lit list_ascii_of_string map app] in E. injection E as -> ->.
        cbn [m_text lit list_ascii_of_string map length skipn].
        f_equal.
        cbn [re_sub_from]. apply IH. simpl in Hn. lia.
      + f_equal. apply IH. simpl in Hn. lia. }
  now apply (H (length s)).
Qed.

Lemma insert_space_other (a : char) (t : str) :
  a <> chr "|" -> insert_space (a :: t) = a :: insert_space t.
Proof.
  intro H. rewrite insert_space_step. cbn [startswith lit list_ascii_of_string map].
  destruct (N.eqb_spec (chr "|") a) as [E|_]; [congruence | reflexivity].
Qed.

Lemma insert_space_head (a : char) (t : str) :
  exists t', insert_space (a :: t) = a :: t'.
Proof.
  rewrite insert_space_step. destruct (startswith (lit "|r{") (a :: t)) eqn:E.
  - apply startswith_spec in E as [rest E]. injection E as -> _.
    eexists. reflexivity.
  - eexists. reflexivity.
Qed.

Lemma insert_space_starts (c : char) (t : str) :
  startswith [c] (insert_space t) = startswith [c] t.
Proof.
  destruct t as [|a t]; [reflexivity|].
  destruct (insert_space_head a t) as [t' ->]. reflexivity.
Qed.

Lemma insert_space_starts_r_brace (t : str) :
  startswith (lit "r{") (insert_space t) = startswith (lit "r{") t.
Proof.
  destruct t as [|b t]; [reflexivity|].
  cbn [lit list_ascii_of_string map].
  destruct (N.eqb_spec (chr "r") b) as [<-|Hb].
  - rewrite insert_space_other by discriminate.
    cbn [startswith]. rewrite N.eqb_refl. cbn [andb].
    apply insert_space_starts.
  - destruct (insert_space_head b t) as [t' ->]. cbn [startswith].
    destruct (N.eqb_spec (chr "r") b); [contradiction | reflexivity].
Qed.

Lemma insert_space_fixed (X : str) :
  insert_space (lit "|r {" ++ X) = lit "|r {" ++ insert_space X.
Proof.
  change (lit "|r {" ++ X) with (chr "|" :: chr "r" :: chr " " :: chr "{" :: X).
  rewrite insert_space_step.
  replace (startswith (lit "|r{") (chr "|" :: chr "r" :: chr " " :: chr "{" :: X))
    with false by reflexivity.
  rewrite !insert_space_other by discriminate. reflexivity.
Qed.

Lemma insert_space_idempotent (s : str) : insert_space (insert_space s) = insert_space s.
Proof.
  assert (H : forall n s, length s <= n -> insert_space (insert_space s) = insert_space s).
  { clear s. induction n as [|n IH]; intros s Hn.
    - destruct s; [reflexivity | simpl in Hn; lia].
    - destruct s as [|a t]; [reflexivity|].
      rewrite (insert_space_step (a :: t)).
      destruct (startswith (lit "|r{") (a :: t)) eqn:E.
      + apply startswith_spec in E as [rest E].
        cbn [lit list_ascii_of_string map app] in E. injection E as -> ->.
        cbn [skipn]. rewrite insert_space_fixed. f_equal.
        apply IH. simpl in Hn. lia.
      + destruct (N.eqb_spec a (chr "|")) as [->|Ha].
        * assert (Hs : forall Y, startswith (lit "|r{") (chr "|" :: Y)
                                 = startswith (lit "r{") Y) by reflexivity.
          rewrite Hs in E.
          rewrite (insert_space_step (chr "|" :: insert_space t)).
          rewrite Hs, insert_space_starts_r_brace, E.
          f_equal. apply IH. simpl in Hn. lia.
        * rewrite insert_space_other by exact Ha. f_equal.
          apply IH. simpl in Hn. lia. }
  now apply (H (length s)).
Qed.

(* =================================================================== *)
(** ** The functions of the script, one event at a time *)
(* =================================================================== *)

Lemma find_header_run (event : str) (w : world) :
  find_header event w
  = (header_text event,
     match re_match HEADER_REGEX event with
     | None => logged event w
     | Some _ => w
     end).
Proof.
  unfold find_header, header_text. now destruct (re_match HEADER_REGEX event).
Qed.

Lemma handle_data_format_bug_1_map (event_list : list str) :
  handle_data_format_bug_1 event_list = map insert_space event_list.
Proof.
  unfold handle_data_format_bug_1. apply map_ext. intro e. apply re_sub_bug_1.
Qed.

Lemma get_healer_cd_text (ms : list rmatch) :
  get_healer_cd_text_from_matches ms = texts ms.
Proof. unfold get_healer_cd_text_from_matches. now rewrite concat_fold_left. Qed.

Lemma find_cds_for_healer_tokens (event healer : str) :
  Forall token (find_cds_for_healer event healer).
Proof.
  apply Forall_forall. intros m H. apply filter_In in H as [H _].
  now apply finditer_match_token in H.
Qed.

Lemma texts_non_empty (ms : list rmatch) :
  Forall token ms ->
  non_empty (texts ms) = match ms with [] => false | _ :: _ => true end.
Proof.
  intro H. destruct H as [|m ms Hm _]; [reflexivity|].
  rewrite texts_cons. pose proof (token_non_nil Hm) as Hn.
  destruct (m_text m); [contradiction | reflexivity].
Qed.

Lemma for_each_cons (A : Type) (x : A) (l : list A) (body : A -> M unit) (w : world) :
  for_each (x :: l) body w = for_each l body (snd (body x w)).
Proof. simpl. unfold bind. now destruct (body x w). Qed.

(** What one line adds to the file of a healer. *)
Lemma do_split_cons (event : str) (rest : list str) (dest_file healer : str) (w : world) :
  do_split_healer_events (event :: rest) dest_file healer w
  = do_split_healer_events rest dest_file healer
      (match find_cds_for_healer (insert_space event) healer with
       | [] => w
       | (_ :: _) as ms =>
           let (header, w1) := find_header (insert_space event) w in
           snd (append_event_to_file (header ++ texts ms) dest_file w1)
       end).
Proof.
  unfold do_split_healer_events. rewrite !handle_data_format_bug_1_map.
  cbn [map]. rewrite for_each_cons. f_equal.
  rewrite get_healer_cd_text.
  rewrite texts_non_empty by apply find_cds_for_healer_tokens.
  destruct (find_cds_for_healer (insert_space event) healer) as [|m ms]; [reflexivity|].
  unfold bind. now destruct (find_header (insert_space event) w).
Qed.

Lemma do_split_nil (dest_file healer : str) (w : world) :
  do_split_healer_events [] dest_file healer w = (tt, w).
Proof. reflexivity. Qed.

(** What one line adds to the file of the other raiders. *)
Lemma do_strip_cons (event : str) (rest : list str) (dest_file : str) (w : world) :
  do_strip_healer_cds (event :: rest) dest_file w
  = do_strip_healer_cds rest dest_file
      (let (header, w1) := find_header (insert_space event) w in
       let processed_event :=
         fold_left remove_cds_from_event HEALER_ROSTER
           (replace [newline] [] (replace header [] (insert_space event))) in
       if non_empty processed_event
       then snd (append_event_to_file (header ++ processed_event) dest_file w1)
       else w1).
Proof.
  unfold do_strip_healer_cds. rewrite !handle_data_format_bug_1_map.
  cbn [map]. rewrite for_each_cons. f_equal.
  unfold bind. destruct (find_header (insert_space event) w) as [header w1].
  now destruct (non_empty _).
Qed.



(* =================================================================== *)
(** ** The encapsulator, one event at a time *)
(* =================================================================== *)

Lemma event_matches_fold (vis : RaidLeadVisibility) (ms : list rmatch) (acc : event_acc) :
  fold_left (encapsulate_match vis) ms acc
  = {| header_visibility_list := header_visibility_list acc ++ map group0 ms;
       is_header_visible_to_rl :=
         is_header_visible_to_rl acc
         || existsb (fun m => should_be_visible_to_raid_leader (group0 m) vis) ms;
       cds := cds acc
              ++ concat (map (fun m => get_encapsulated_cd_from_match m vis) ms) |}.
Proof.
  revert acc; induction ms as [|m ms IH]; intros acc.
  - simpl. rewrite !app_nil_r, orb_false_r. now destruct acc.
  - cbn [fold_left map existsb concat]. rewrite IH. unfold encapsulate_match.
    cbn [header_visibility_list is_header_visible_to_rl cds].
    rewrite <- !app_assoc, orb_assoc. reflexivity.
Qed.

Lemma event_matches_loop_spec (vis : RaidLeadVisibility) (ms : list rmatch) :
  event_matches_loop vis ms
  = {| header_visibility_list := map group0 ms;
       is_header_visible_to_rl :=
         existsb (fun m => should_be_visible_to_raid_leader (group0 m) vis) ms;
       cds := concat (map (fun m => get_encapsulated_cd_from_match m vis) ms) |}.
Proof. unfold event_matches_loop. now rewrite event_matches_fold. Qed.

Lemma cds_non_empty (vis : RaidLeadVisibility) (ms : list rmatch) :
  non_empty (cds (event_matches_loop vis ms))
  = match ms with [] => false | _ :: _ => true end.
Proof.
  rewrite event_matches_loop_spec. destruct ms as [|m ms]; reflexivity.
Qed.

Lemma encapsulate_event_run (vis : RaidLeadVisibility) (event : str) (w : world) :
  encapsulate_event vis event w
  = (let acc := event_matches_loop vis (finditer RAID_CD_REGEX event) in
     if non_empty (cds acc)
     then encapsulate (header_visibility_set acc) (header_text event)
          ++ cds acc ++ [newline]
     else [],
     match re_match HEADER_REGEX event with
     | None => logged event w
     | Some _ => w
     end).
Proof.
  unfold encapsulate_event, bind. rewrite find_header_run. cbv zeta.
  now destruct (non_empty _).
Qed.

Lemma encapsulate_events_cons (vis : RaidLeadVisibility) (event : str)
  (rest : list str) (text : str) (w : world) :
  encapsulate_events vis (event :: rest) text w
  = encapsulate_events vis rest
      (text ++ fst (encapsulate_event vis event w))
      (snd (encapsulate_event vis event w)).
Proof.
  cbn [encapsulate_events]. unfold bind.
  now destruct (encapsulate_event vis event w).
Qed.

Lemma encapsulate_event_render (vis : RaidLeadVisibility) (event : str) (w : world) :
  fst (encapsulate_event vis event w)
  = concat (map (render hash_order) (event_parts vis event)).
Proof.
  rewrite encapsulate_event_run. cbn [fst]. cbv zeta. unfold event_parts.
  destruct (non_empty _); [|reflexivity].
  cbn [map concat render]. rewrite app_nil_r.
  unfold encapsulate, header_visibility_set. now rewrite <- !app_assoc.
Qed.

(** The export is the events' texts one after the other; the order of a set
    only enters through the viewers of each header. *)
Lemma encapsulate_events_run (vis : RaidLeadVisibility) (event_list : list str) :
  forall text w,
    encapsulate_events vis event_list text w
    = (text ++ concat (map (render hash_order) (flat_map (event_parts vis) event_list)),
       logged_all event_list w).
Proof.
  induction event_list as [|event rest IH]; intros text w.
  - simpl. now rewrite app_nil_r.
  - rewrite encapsulate_events_cons, IH.
    rewrite encapsulate_event_render. cbn [flat_map].
    rewrite map_app, concat_app, <- app_assoc.
    rewrite encapsulate_event_run. reflexivity.
Qed.

Lemma logged_all_files (event_list : list str) (w : world) :
  files (logged_all event_list w) = files w.
Proof.
  unfold logged_all. revert w; induction event_list as [|e l IH]; intro w;
    [reflexivity|].
  cbn [fold_left]. rewrite IH. now destruct (re_match HEADER_REGEX e).
Qed.

(** What [encapsulate_cds] leaves in the files and in the log. *)
Lemma encapsulate_cds_run (event_list : list str) (vis : RaidLeadVisibility) (w : world) :
  let dest := resolve ENCAPSULATED_CD_DEST in
  let w' := snd (encapsulate_cds event_list vis w) in
  files w' dest
  = Some (match files w dest with Some c => c | None => [] end
          ++ concat (map (render hash_order) (flat_map (event_parts vis) event_list))
          ++ [newline])
  /\ log w' = log (logged_all event_list w)
  /\ forall q, q <> dest -> files w' q = files w q.
Proof.
  cbv zeta. unfold encapsulate_cds, bind. rewrite encapsulate_events_run.
  cbn [app]. unfold open_append. rewrite logged_all_files.
  destruct (files w (resolve ENCAPSULATED_CD_DEST)) as [c|] eqn:E;
    unfold append_event_to_file, file_write; cbn [snd files log];
    rewrite ?logged_all_files; unfold set_file; cbn [files];
    rewrite ?str_eqb_refl, ?E; repeat split; try reflexivity;
    intros q Hq; apply str_eqb_neq in Hq; rewrite ?Hq; try reflexivity.
Qed.

(* =================================================================== *)
(** ** Clearing the output files *)
(* =================================================================== *)

Lemma clear_file_run (file_name : str) (w : world) :
  let w' := snd (clear_file file_name w) in
  log w' = log w
  /\ forall q, files w' q
               = if str_eqb q (resolve file_name) then cleared (files w q) else files w q.
Proof.
  unfold clear_file, bind, os_path_isfile, open_truncate, ret, cleared. cbn [snd fst].
  destruct (files w (resolve file_name)) eqn:E; cbn [snd files log set_file]; split;
    try reflexivity; intro q; unfold set_file; cbn [files].
  - destruct (str_eqb q (resolve file_name)) eqn:Eq; [|reflexivity].
    apply str_eqb_eq in Eq. subst q. now rewrite E.
  - destruct (str_eqb q (resolve file_name)) eqn:Eq; [|reflexivity].
    apply str_eqb_eq in Eq. subst q. now rewrite E.
Qed.

Lemma cleared_cleared (c : option str) : cleared (cleared c) = cleared c.
Proof. now destruct c. Qed.

Lemma clear_files_run (names : list str) :
  forall w,
    let w' := snd (for_each names clear_file w) in
    log w' = log w
    /\ forall q, files w' q
                 = if existsb (fun n => str_eqb q (resolve n)) names
                   then cleared (files w q) else files w q.
Proof.
  induction names as [|n names IH]; intro w.
  - simpl. split; reflexivity.
  - cbv zeta. rewrite for_each_cons.
    destruct (clear_file_run n w) as [L1 F1].
    destruct (IH (snd (clear_file n w))) as [L2 F2].
    split; [congruence|]. intro q. rewrite F2, F1. cbn [existsb].
    destruct (str_eqb q (resolve n)); cbn [orb].
    + destruct (existsb _ names); [apply cleared_cleared | reflexivity].
    + reflexivity.
Qed.

Lemma existsb_map_comp (A B : Type) (f : B -> bool) (g : A -> B) (l : list A) :
  existsb f (map g l) = existsb (fun x => f (g x)) l.
Proof. induction l as [|a l IH]; simpl; [reflexivity | now rewrite IH]. Qed.

Lemma basename_ends_slash (a : str) (acc : str) :
  a <> [] -> last a 0%N = chr "/" ->
  fold_left (fun acc c => if N.eqb c (chr "/") then [] else acc ++ [c]) a acc = [].
Proof.
  intros Ha Hl. destruct (exists_last Ha) as (a' & c & ->).
  rewrite last_last in Hl. subst c.
  rewrite fold_left_app. reflexivity.
Qed.

(** Joining keeps the last component of what is joined on. *)
Lemma basename_join (a b : str) : basename (os_path_join a b) = basename b.
Proof.
  unfold os_path_join. destruct (startswith (lit "/") b); [reflexivity|].
  destruct a as [|c a]; [reflexivity|].
  destruct (N.eqb_spec (last (c :: a) 0%N) (chr "/")) as [E|E]; unfold basename.
  - rewrite fold_left_app.
    rewrite basename_ends_slash with (a := c :: a);
      [reflexivity | discriminate | exact E].
  - rewrite !fold_left_app. reflexivity.
Qed.

Lemma encapsulated_not_cleared : ~ In (resolve ENCAPSULATED_CD_DEST) cleared_paths.
Proof.
  intro H. apply (in_map basename) in H. unfold cleared_paths in H.
  rewrite map_app, map_map in H. unfold resolve, ENCAPSULATED_CD_DEST, NON_HEALER_DEST in H.
  cbn [map] in H. rewrite !basename_join in H.
  rewrite (map_ext _ (fun healer => basename (healer ++ lit "-cds.txt"))) in H
    by (intro; apply basename_join).
  vm_compute in H. intuition discriminate.
Qed.

(* =================================================================== *)
(** ** No function of the script removes a file *)
(* =================================================================== *)





Lemma keeps_logging_error (msg : str) : keeps_files (logging_error msg).
Proof. intros w p H. exact H. Qed.










(* =================================================================== *)
(** ** Headers and the tokens around them *)
(* =================================================================== *)

Lemma tails_In (s b : str) : In b (tails s) <-> exists a, s = a ++ b.
Proof.
  induction s as [|c s IH]; simpl.
  - split.
    + intros [<-|[]]. now exists [].
    + intros [a H]. symmetry in H. apply app_eq_nil in H as [_ ->]. now left.
  - split.
    + intros [<-|H]; [now exists []|].
      apply IH in H as [a ->]. now exists (c :: a).
    + intros [[|d a] H].
      * left. exact H.
      * right. injection H as _ H. apply IH. now exists a.
Qed.

Lemma suffix_with_char (a u w' : str) (x c : char) :
  a ++ u = w' ++ [x; c] -> 2 <= length u -> In x u.
Proof.
  intros H L. apply app_eq_app in H as [l [[_ H]|[_ H]]].
  - destruct l as [|y l].
    + simpl in H. subst u. now left.
    + apply (f_equal (@length char)) in H. simpl in H. rewrite length_app in H. lia.
  - subst u. apply in_or_app. right. now left.
Qed.

Lemma suffix_without_char (a u w' : str) (x c : char) :
  a ++ u = w' ++ [x; c] -> u <> [] -> ~ In x u -> u = [c].
Proof.
  intros H Hu Hx. destruct u as [|u0 [|u1 u]]; [contradiction| |].
  - apply app_eq_app in H as [l [[_ H]|[_ H]]].
    + destruct l as [|y [|z l]]; simpl in H.
      * discriminate.
      * now injection H as _ <-.
      * injection H as _ _ H. now destruct l.
    + destruct l as [|y l]; simpl in H; [discriminate|].
      injection H as _ H. now destruct l.
  - exfalso. apply Hx. apply (suffix_with_char a (u0 :: u1 :: u) w' x c H).
    simpl. lia.
Qed.

Lemma header_match_shape (b : str) (hm : rmatch) :
  re_match HEADER_REGEX b = Some hm ->
  exists w' c, m_text hm = w' ++ [chr "-"; c] /\ is_space c = true.
Proof.
  intro H. apply re_match_sound in H as (rest & _ & L). now apply header_lang_shape.
Qed.

Lemma header_match_prefix (b : str) (hm : rmatch) :
  re_match HEADER_REGEX b = Some hm -> exists rest, b = m_text hm ++ rest.
Proof. intro H. apply re_match_sound in H as (rest & E & _). now exists rest. Qed.

Lemma cd_match_length (b : str) (m : rmatch) :
  re_match RAID_CD_REGEX b = Some m -> 2 <= length (m_text m).
Proof.
  intro H. destruct (cd_match_shape _ H) as (t & -> & Hc & _).
  destruct t; simpl in *; [discriminate | lia].
Qed.

(** Where the header holds no token, no token starts in it either,
    whatever follows the header. *)
Lemma header_no_token_start (b : str) (hm : rmatch) :
  re_match HEADER_REGEX b = Some hm ->
  finditer RAID_CD_REGEX (m_text hm) = [] ->
  forall a u X, m_text hm = a ++ u -> u <> [] -> re_match RAID_CD_REGEX (u ++ X) = None.
Proof.
  intros Hh Hno a u X Eh Hu.
  destruct (re_match RAID_CD_REGEX (u ++ X)) as [m|] eqn:E; [exfalso|reflexivity].
  destruct (re_match_sound _ _ E) as (r & Er & _).
  apply app_eq_app in Er as [l [[Hl _]|[Hl _]]].
  - pose proof (cd_match_token _ E l) as Ht. rewrite <- Hl in Ht.
    apply (finditer_found RAID_CD_REGEX a) in Ht. rewrite <- Eh in Ht. contradiction.
  - destruct (cd_match_shape _ E) as (t & Et & _ & _ & Hhy).
    destruct (header_match_shape _ Hh) as (w' & c & Ew & Hc).
    assert (Hu1 : u = [c]).
    { apply suffix_without_char with (a := a) (w' := w') (x := chr "-");
        [congruence | exact Hu |].
      intro Hin. apply Hhy. rewrite Hl. apply in_or_app. now left. }
    subst u. rewrite Et in Hl. injection Hl as Hl _. subst c. discriminate.
Qed.

Lemma tokens_avoid (c : char) (ms : list rmatch) :
  Forall (fun m => ~ In c (m_text m)) ms -> ~ In c (texts ms).
Proof.
  induction 1 as [|m ms Hm _ IH]; [intros []|].
  rewrite texts_cons. intro Hin. apply in_app_or in Hin as [Hin|Hin]; tauto.
Qed.

Lemma tokens_no_hyphen (ms : list rmatch) :
  Forall token ms -> ~ In (chr "-") (texts ms).
Proof.
  intro H. apply tokens_avoid. apply Forall_forall. intros m Hm.
  rewrite Forall_forall in H. apply H in Hm. apply token_match in Hm.
  now destruct (cd_match_shape _ Hm) as (t & _ & _ & _ & Hhy).
Qed.

Lemma replace_char (c : char) (s : str) :
  replace [c] [] s = filter (fun x => negb (N.eqb c x)) s.
Proof.
  unfold replace. induction s as [|x s IH]; [reflexivity|].
  cbn [replace_from startswith filter length]. rewrite andb_true_r.
  destruct (N.eqb c x); cbn [negb app]; [exact IH | now rewrite IH].
Qed.

(* =================================================================== *)
(** ** The properties of the specification *)
(* =================================================================== *)

Lemma insert_space_no_occurrence (s : str) :
  forall a b, insert_space s <> a ++ lit "|r{" ++ b.
Proof.
  assert (H : forall n s, length s <= n ->
              forall a b, insert_space s <> a ++ lit "|r{" ++ b).
  { clear s. induction n as [|n IH]; intros s Hn a b.
    - destruct s; [|simpl in Hn; lia]. simpl. now destruct a.
    - destruct s as [|c t]; [simpl; now destruct a|].
      rewrite insert_space_step.
      destruct (startswith (lit "|r{") (c :: t)) eqn:E.
      + apply startswith_spec in E as [rest E].
        cbn [lit list_ascii_of_string map app] in E. injection E as -> ->.
        cbn [skipn]. intro Heq.
        change (lit "|r {" ++ insert_space rest)
          with (chr "|" :: chr "r" :: chr " " :: chr "{" :: insert_space rest) in Heq.
        change (lit "|r{" ++ b) with (chr "|" :: chr "r" :: chr "{" :: b) in Heq.
        destruct a as [|a0 [|a1 [|a2 [|a3 a]]]]; try discriminate Heq.
        cbn [app] in Heq. injection Heq as _ _ _ _ Heq.
        apply (IH rest) in Heq; [exact Heq | simpl in Hn; lia].
      + intro Heq. destruct a as [|a0 a].
        * change (lit "|r{" ++ b) with (chr "|" :: lit "r{" ++ b) in Heq.
          cbn [app] in Heq. injection Heq as -> Heq.
          assert (Hs : startswith (lit "r{") (insert_space t) = true).
          { rewrite Heq. reflexivity. }
          rewrite insert_space_starts_r_brace in Hs.
          assert (E' : startswith (lit "r{") t = false) by exact E.
          congruence.
        * cbn [app] in Heq. injection Heq as _ Heq.
          apply (IH t) in Heq; [exact Heq | simpl in Hn; lia]. }
  now apply (H (length s)).
Qed.

(** C9: the line normalizer is a total function from a list of lines to a
    list of the same length; it puts exactly one space between every
    markup close and an opening brace that follows it at once (what
    [insert_space] says in the words of the contract), leaves no such
    place behind, and applying it twice gives what applying it once
    gives. *)
Theorem C9_normalizer_idempotent (event_list : list str) :
  length (handle_data_format_bug_1 event_list) = length event_list
  /\ handle_data_format_bug_1 event_list = map insert_space event_list
  /\ Forall (fun line => forall a b, line <> a ++ lit "|r{" ++ b)
       (handle_data_format_bug_1 event_list)
  /\ handle_data_format_bug_1 (handle_data_format_bug_1 event_list)
     = handle_data_format_bug_1 event_list.
Proof.
  rewrite !handle_data_format_bug_1_map. repeat split.
  - apply length_map.
  - apply Forall_forall. intros line H. apply in_map_iff in H as (s & <- & _).
    apply insert_space_no_occurrence.
  - rewrite map_map. apply map_ext. intro s. apply insert_space_idempotent.
Qed.

(** C8, amended: the splitter collects for the healers of the roster only.
    For every event line, the token texts it collects, taken over the
    healers of the roster, are as a set the texts of the tokens whose
    assignee is in the roster; they are all the token texts the unfiltered
    matcher finds exactly when every token of the line belongs to a healer
    of the roster.  What is collected for one name is the matches of the
    line with that name, so that over all names, in the roster or not,
    every match is collected for its own name. *)
Theorem C8_split_covers_roster_tokens (event : str) :
  (forall t,
      (exists healer,
          In healer HEALER_ROSTER
          /\ In t (map m_text (find_cds_for_healer event healer)))
      <-> In t (map m_text (filter (fun m => in_roster (group0 m))
                              (finditer RAID_CD_REGEX event))))
  /\ ((forall t,
          In t (map m_text (finditer RAID_CD_REGEX event)) ->
          exists healer,
            In healer HEALER_ROSTER
            /\ In t (map m_text (find_cds_for_healer event healer)))
      <-> forallb (fun m => in_roster (group0 m)) (finditer RAID_CD_REGEX event) = true)
  /\ (forall healer m,
         In m (find_cds_for_healer event healer)
         <-> In m (finditer RAID_CD_REGEX event) /\ group0 m = healer).
Proof.
  assert (Hone : forall healer m,
             In m (find_cds_for_healer event healer)
             <-> In m (finditer RAID_CD_REGEX event) /\ group0 m = healer).
  { intros healer m. unfold find_cds_for_healer. rewrite filter_In.
    split; intros [H E]; (split; [exact H|]); now apply str_eqb_eq. }
  assert (Hroster : forall m, in_roster (group0 m) = true <-> In (group0 m) HEALER_ROSTER).
  { intro m. unfold in_roster. rewrite existsb_exists. split.
    - intros (x & Hx & E). apply str_eqb_eq in E. now rewrite E.
    - intro H. exists (group0 m). split; [exact H | apply str_eqb_refl]. }
  split; [|split; [|exact Hone]].
  - intro t. split.
    + intros (healer & Hh & H). apply in_map_iff in H as (m & <- & H).
      apply Hone in H as [H E]. apply in_map. apply filter_In.
      split; [exact H|]. apply Hroster. now rewrite E.
    + intro H. apply in_map_iff in H as (m & <- & H).
      apply filter_In in H as [H Hr]. exists (group0 m).
      split; [now apply Hroster|]. apply in_map. now apply Hone.
  - rewrite forallb_forall. split.
    + intros Hall m Hm.
      destruct (Hall (m_text m) (in_map m_text _ _ Hm)) as (healer & Hh & H).
      apply in_map_iff in H as (m' & E & H). apply Hone in H as [H Eg].
      assert (m' = m) as ->.
      { apply token_same_text; [now apply finditer_match_token with (s := event)..|exact E]. }
      apply Hroster. now rewrite Eg.
    + intros Hall t H. apply in_map_iff in H as (m & <- & H).
      exists (group0 m). split; [now apply Hroster, Hall|].
      apply in_map. now apply Hone.
Qed.





Lemma raid_lead_not_in_roster : in_roster RAID_LEAD = false.
Proof. reflexivity. Qed.

(** C3: for every event line with at least one assignment token, the
    viewers of the encapsulated header are, without duplicates, the
    assignees of all tokens found in the line, and the supervisor exactly
    when the supervisor may see one of these tokens; under the policy that
    shows the supervisor the non-roster group only, a line whose tokens all
    belong to the roster has the flag unset and no supervisor among the
    viewers of its header. *)
Theorem C3_header_viewers (event : str) (vis : RaidLeadVisibility) (w : world) :
  let matches := finditer RAID_CD_REGEX event in
  let acc := event_matches_loop vis matches in
  let viewers := header_visibility_set acc in
  matches <> [] ->
  fst (encapsulate_event vis event w)
  = encapsulate viewers (header_text event) ++ cds acc ++ [newline]
  /\ NoDup viewers
  /\ is_header_visible_to_rl acc
     = existsb (fun m => should_be_visible_to_raid_leader (group0 m) vis) matches
  /\ (forall x, In x viewers <->
                In x (map group0 matches)
                \/ (x = RAID_LEAD /\ is_header_visible_to_rl acc = true))
  /\ (vis = NON_HEALER_CDS ->
      (forall m, In m matches -> in_roster (group0 m) = true) ->
      is_header_visible_to_rl acc = false /\ ~ In RAID_LEAD viewers).
Proof.
  intros matches acc viewers Hne.
  assert (Hflag : is_header_visible_to_rl acc
                  = existsb (fun m => should_be_visible_to_raid_leader (group0 m) vis)
                      matches).
  { subst acc. now rewrite event_matches_loop_spec. }
  assert (Hlist : header_visibility_list acc = map group0 matches).
  { subst acc. now rewrite event_matches_loop_spec. }
  assert (Hin : forall x, In x viewers <->
                          In x (map group0 matches)
                          \/ (x = RAID_LEAD /\ is_header_visible_to_rl acc = true)).
  { intro x. subst viewers. unfold header_visibility_set.
    rewrite set_to_list_elems, Hlist.
    destruct (is_header_visible_to_rl acc).
    - rewrite in_app_iff. simpl. intuition congruence.
    - intuition congruence. }
  repeat split.
  - rewrite encapsulate_event_run. cbn [fst]. cbv zeta. fold matches. fold acc.
    subst acc. rewrite cds_non_empty. destruct matches; [contradiction | reflexivity].
  - apply set_to_list_nodup.
  - exact Hflag.
  - apply Hin.
  - apply Hin.
  - rewrite Hflag. subst vis. apply not_true_is_false. intro Hex.
    apply existsb_exists in Hex as (m & Hm & Hv). simpl in Hv.
    rewrite (H0 m Hm) in Hv. discriminate.
  - intro Hrl. apply Hin in Hrl as [Hrl | [_ Hrl]].
    + apply in_map_iff in Hrl as (m & Hg & Hm). apply H0 in Hm.
      rewrite Hg, raid_lead_not_in_roster in Hm. discriminate.
    + rewrite Hflag in Hrl. subst vis.
      apply existsb_exists in Hrl as (m & Hm & Hv). simpl in Hv.
      rewrite (H0 m Hm) in Hv. discriminate.
Qed.

Lemma cd_visibility_list_nodup (m : rmatch) (vis : RaidLeadVisibility) :
  group0 m <> RAID_LEAD \/ should_be_visible_to_raid_leader (group0 m) vis = false ->
  NoDup (cd_visibility_list m vis).
Proof.
  intro H. unfold cd_visibility_list.
  destruct (should_be_visible_to_raid_leader (group0 m) vis) eqn:E.
  - destruct H as [H|H]; [|discriminate].
    repeat constructor; simpl; [intros [E'|[]]; congruence | tauto].
  - repeat constructor. simpl. tauto.
Qed.

(** C4, at a token whose assignee is the supervisor: under the policy of
    [main] the supervisor is put in the token's viewer list before the
    assignee, which is the supervisor again, and the tag of the token names
    it twice. *)
Theorem C4_raid_lead_token_named_twice :
  map (fun m => cd_visibility_list m NON_HEALER_CDS)
    (finditer RAID_CD_REGEX line_raid_lead)
  = [[RAID_LEAD; RAID_LEAD]]
  /\ ~ NoDup [RAID_LEAD; RAID_LEAD]
  /\ cds (event_matches_loop NON_HEALER_CDS (finditer RAID_CD_REGEX line_raid_lead))
     = lit "{p:Slickduck,Slickduck}|c00000000Slickduck|r {spell:1}  {/p}".
Proof.
  repeat split.
  - intro H. inversion H as [|? ? Hn _]; subst. apply Hn. now left.
Qed.

Lemma header_placeholder_no_token : finditer RAID_CD_REGEX (lit " ") = [].
Proof. reflexivity. Qed.

(** C10, amended: for every event line in which no hyphen stands at or
    after a place where the assignment pattern matches, the matcher finds
    nothing in the header that the extractor returns. *)
Theorem C10_header_holds_no_token (event : str) (w : world) :
  hyphens_precede_tokens event = true ->
  finditer RAID_CD_REGEX (fst (find_header event w)) = [].
Proof.
  intro Hhy. rewrite find_header_run. cbn [fst]. unfold header_text.
  destruct (re_match HEADER_REGEX event) as [hm|] eqn:Eh;
    [|apply header_placeholder_no_token].
  destruct (finditer RAID_CD_REGEX (m_text hm)) as [|m l] eqn:Ef; [reflexivity|].
  exfalso.
  assert (Hm : In m (finditer RAID_CD_REGEX (m_text hm))) by (rewrite Ef; now left).
  apply finditer_In in Hm as (a & b & Eab & Hb).
  destruct (header_match_prefix _ Eh) as (rest & Eev).
  destruct (header_match_shape _ Eh) as (w' & c & Ew & _).
  destruct (re_match_sound _ _ Hb) as (r & Er & _).
  assert (Hin : In (chr "-") b).
  { apply suffix_with_char with (a := a) (w' := w') (c := c); [congruence|].
    rewrite Er, length_app. pose proof (cd_match_length _ Hb). lia. }
  unfold hyphens_precede_tokens in Hhy. rewrite forallb_forall in Hhy.
  specialize (Hhy (b ++ rest)).
  assert (Ht : re_match RAID_CD_REGEX (b ++ rest) = Some m).
  { rewrite Er, <- app_assoc. apply (cd_match_token _ Hb). }
  rewrite Ht in Hhy.
  assert (Hex : existsb (N.eqb (chr "-")) (b ++ rest) = true).
  { apply existsb_exists. exists (chr "-"). split; [|apply N.eqb_refl].
    apply in_or_app. now left. }
  rewrite Hex in Hhy. discriminate Hhy.
  apply tails_In. exists a. rewrite Eev, Eab. now rewrite <- app_assoc.
Qed.

Lemma strip_token_hypothesis (ms : list rmatch) :
  Forall (fun m => re_match RAID_CD_REGEX (m_text m) = Some m
                   /\ ~ In newline (m_text m)) ms ->
  Forall token ms /\ ~ In newline (texts ms).
Proof.
  intro H. split.
  - apply Forall_forall. intros m Hm. rewrite Forall_forall in H.
    destruct (H m Hm) as [Ht _]. intro r. now apply cd_token_standalone.
  - apply tokens_avoid. apply Forall_forall. intros m Hm.
    rewrite Forall_forall in H. now destruct (H m Hm).
Qed.

Lemma finditer_after_header (b : str) (hm : rmatch) (ms : list rmatch) (tail : str) :
  re_match HEADER_REGEX b = Some hm ->
  finditer RAID_CD_REGEX (m_text hm) = [] ->
  Forall token ms ->
  finditer RAID_CD_REGEX tail = [] ->
  finditer RAID_CD_REGEX (m_text hm ++ texts ms ++ tail) = ms.
Proof.
  intros Hh Hno Hms Htail.
  rewrite finditer_no_start.
  - rewrite finditer_tokens by exact Hms. rewrite Htail. apply app_nil_r.
  - intros a u. now apply header_no_token_start with (b := b).
Qed.

(** C2, amended: for every event line made of a well-formed header that
    holds no assignment token, then of assignment tokens without a line
    feed in them, then of at most the line terminator, the stripper emits
    the header followed by exactly the tokens whose assignee is not in the
    roster, in their original order, and emits nothing when there is none;
    the matcher finds in the emitted line these tokens and no token of a
    roster member. *)
Theorem C2_strip_keeps_other_tokens
  (event : str) (rest : list str) (dest_file : str) (w : world)
  (hm : rmatch) (ms : list rmatch) (tail : str) :
  re_match HEADER_REGEX (insert_space event) = Some hm ->
  finditer RAID_CD_REGEX (m_text hm) = [] ->
  insert_space event = m_text hm ++ texts ms ++ tail ->
  Forall (fun m => re_match RAID_CD_REGEX (m_text m) = Some m
                   /\ ~ In newline (m_text m)) ms ->
  tail = [] \/ tail = [newline] ->
  let kept := filter (fun m => negb (in_roster (group0 m))) ms in
  finditer RAID_CD_REGEX (insert_space event) = ms
  /\ do_strip_healer_cds (event :: rest) dest_file w
     = do_strip_healer_cds rest dest_file
         (match kept with
          | [] => w
          | _ :: _ =>
              snd (append_event_to_file (m_text hm ++ texts kept) dest_file w)
          end)
  /\ finditer RAID_CD_REGEX (m_text hm ++ texts kept) = kept
  /\ Forall (fun m => in_roster (group0 m) = false) kept.
Proof.
  intros Hh Hno Eline Hms Htail kept.
  destruct (strip_token_hypothesis Hms) as [Htok Hnl].
  assert (Hkept : Forall token kept) by now apply Forall_filter.
  destruct (header_match_shape _ Hh) as (w' & c & Ew & Hc).
  assert (Hhne : m_text hm <> []).
  { rewrite Ew. now destruct w'. }
  assert (Hhy : In (chr "-") (m_text hm)).
  { rewrite Ew. apply in_or_app. right. now left. }
  assert (Htail_no : finditer RAID_CD_REGEX tail = []).
  { destruct Htail as [->| ->]; reflexivity. }
  repeat split.
  - rewrite Eline. now apply finditer_after_header with (b := insert_space event).
  - rewrite do_strip_cons. f_equal.
    rewrite find_header_run. unfold header_text. rewrite Hh.
    assert (E1 : replace (m_text hm) [] (insert_space event) = texts ms ++ tail).
    { rewrite replace_cons by exact Hhne. rewrite Eline.
      rewrite replace_from_hit by exact Hhne. cbn [app].
      apply replace_from_absent with (c := chr "-"); [exact Hhy|].
      intro Hin. apply in_app_or in Hin as [Hin|Hin].
      - now apply (tokens_no_hyphen Htok).
      - destruct Htail as [->| ->]; [destruct Hin|].
        destruct Hin as [Hin|[]]. discriminate. }
    assert (E2 : replace [newline] [] (texts ms ++ tail) = texts ms).
    { rewrite replace_char, filter_app.
      rewrite filter_all.
      - destruct Htail as [->| ->]; [apply app_nil_r|]. cbn [filter].
        rewrite N.eqb_refl. apply app_nil_r.
      - intros x Hx. destruct (N.eqb_spec newline x) as [<-|]; [contradiction|].
        reflexivity. }
    rewrite E1, E2.
    rewrite (strip_roster_tokens HEALER_ROSTER Htok).
    change (filter (fun m => negb (existsb (str_eqb (group0 m)) HEALER_ROSTER)) ms)
      with kept.
    rewrite texts_non_empty by exact Hkept.
    now destruct kept.
  - rewrite <- (app_nil_r (texts kept)).
    now apply finditer_after_header with (b := insert_space event).
  - apply Forall_forall. intros m Hm. apply filter_In in Hm as [_ Hm].
    now apply negb_true_iff in Hm.
Qed.

(** C6, amended: when the source is missing, the run fails with the error
    of the missing file once the per-assignee files and the non-roster file
    that exist have been emptied; no other file changes, the encapsulated
    file among them, no file is created and nothing is written or logged. *)
Theorem C6_missing_source_after_clearing (w : world) :
  files w (resolve SOURCE) = None ->
  fst (main w) = FileNotFoundError SOURCE
  /\ log (snd (main w)) = log w
  /\ (forall q, files (snd (main w)) q
                = if existsb (str_eqb q) cleared_paths
                  then cleared (files w q) else files w q)
  /\ files (snd (main w)) (resolve ENCAPSULATED_CD_DEST)
     = files w (resolve ENCAPSULATED_CD_DEST).
Proof.
  intro Hsrc.
  pose (names := map (fun healer => healer ++ lit "-cds.txt") HEALER_ROSTER).
  assert (E0 : forall w0,
               for_each HEALER_ROSTER
                 (fun healer => let file_name := healer ++ lit "-cds.txt" in
                                clear_file file_name) w0
               = for_each names clear_file w0).
  { unfold names. generalize HEALER_ROSTER. intro l.
    induction l as [|h l IH]; intro w0; [reflexivity|].
    cbn [map]. rewrite !for_each_cons. apply IH. }
  destruct (clear_files_run names w) as [L1 F1].
  destruct (clear_file_run NON_HEALER_DEST (snd (for_each names clear_file w)))
    as [L2 F2].
  cbv zeta in L1, F1, L2, F2.
  assert (Hfiles : forall q,
             files (snd (clear_file NON_HEALER_DEST
                           (snd (for_each names clear_file w)))) q
             = if existsb (str_eqb q) cleared_paths
               then cleared (files w q) else files w q).
  { intro q. rewrite F2, F1. unfold cleared_paths, names.
    rewrite existsb_app, !existsb_map_comp. cbn [existsb].
    rewrite orb_false_r.
    match goal with
    | |- context [existsb ?f HEALER_ROSTER] => destruct (existsb f HEALER_ROSTER)
    end; destruct (str_eqb q (resolve NON_HEALER_DEST)); cbn [orb];
      try reflexivity; apply cleared_cleared. }
  assert (Hmain : main w
                  = (FileNotFoundError SOURCE,
                     snd (clear_file NON_HEALER_DEST
                            (snd (for_each names clear_file w))))).
  { unfold main. rewrite E0.
    pose proof (Hfiles (resolve SOURCE)) as Hs. rewrite Hsrc in Hs.
    destruct (for_each names clear_file w) as [u1 w1]. cbn [snd] in Hs |- *.
    destruct (clear_file NON_HEALER_DEST w1) as [u2 w2]. cbn [snd] in Hs |- *.
    rewrite Hs.
    now destruct (existsb (str_eqb (resolve SOURCE)) cleared_paths). }
  rewrite Hmain. cbn [fst snd]. repeat split.
  - rewrite L2. exact L1.
  - exact Hfiles.
  - rewrite Hfiles.
    destruct (existsb (str_eqb (resolve ENCAPSULATED_CD_DEST)) cleared_paths) eqn:E;
      [|reflexivity].
    apply existsb_exists in E as (p & Hp & Ep). apply str_eqb_eq in Ep. subst p.
    now apply encapsulated_not_cleared in Hp.
Qed.

(* =================================================================== *)
(** ** Further properties: the header is the longest one *)
(* =================================================================== *)

Lemma star_none (A : Type) (p : char -> bool) (k : str -> option A) (s : str) :
  star p k s = None ->
  forall w2 s2, s = w2 ++ s2 -> forallb p w2 = true -> k s2 = None.
Proof.
  intros H w2 s2 -> Hw. destruct (k s2) as [a|] eqn:E; [exfalso|reflexivity].
  revert H. apply star_complete; [exact Hw|]. rewrite E. discriminate.
Qed.

(** The greedy repetition stops at the longest run of characters after
    which the rest of the pattern succeeds. *)
Lemma star_longest (A : Type) (p : char -> bool) (k : str -> option A) (s : str) (a : A) :
  star p k s = Some a ->
  exists w s', s = w ++ s' /\ forallb p w = true /\ k s' = Some a
    /\ forall w2 s2, s = w2 ++ s2 -> forallb p w2 = true ->
                     length w < length w2 -> k s2 = None.
Proof.
  revert a; induction s as [|c s IH]; intros a H.
  - exists [], []. repeat split; [exact H|].
    intros w2 s2 E _ L. symmetry in E. apply app_eq_nil in E as [-> _].
    simpl in L. lia.
  - cbn [star] in H. destruct (p c) eqn:Ec.
    + destruct (star p k s) as [a'|] eqn:Es.
      * injection H as ->. destruct (IH a eq_refl) as (w & s' & -> & Hw & Hk & Hmax).
        exists (c :: w), s'. repeat split; [simpl; now rewrite Ec | exact Hk |].
        intros [|c2 w2] s2 E Hw2 L; [simpl in L; lia|].
        injection E as <- E. simpl in Hw2. apply andb_true_iff in Hw2 as [_ Hw2].
        apply (Hmax w2 s2 E Hw2). simpl in L. lia.
      * exists [], (c :: s). repeat split; [exact H|].
        intros [|c2 w2] s2 E Hw2 L; [simpl in L; lia|].
        injection E as <- E. simpl in Hw2. apply andb_true_iff in Hw2 as [_ Hw2].
        eapply star_none; [exact Es | exact E | exact Hw2].
    + exists [], (c :: s). repeat split; [exact H|].
      intros [|c2 w2] s2 E Hw2 L; [simpl in L; lia|].
      injection E as <- E. simpl in Hw2. rewrite Ec in Hw2. discriminate.
Qed.

Lemma is_dot_all (s : str) : forallb is_dot s = true <-> ~ In newline s.
Proof.
  induction s as [|c s IH]; simpl; [tauto|].
  unfold is_dot at 1. rewrite andb_true_iff, negb_true_iff, N.eqb_neq, IH.
  intuition congruence.
Qed.

(** The part of the header pattern after its first repetition:
    a hyphen, as few characters as possible, a hyphen, a white space. *)
Lemma header_rest_lang (x : str) :
  lang (Lits (lit "-") (Seq (LazyStar is_dot) (Lits (lit "-") (Chr is_space)))) x
  <-> exists b d, x = [chr "-"] ++ b ++ [chr "-"; d]
                  /\ forallb is_dot b = true /\ is_space d = true.
Proof.
  rewrite lang_Lits. split.
  - intros (x1 & -> & b & x2 & -> & Hb & H2).
    apply lang_Lits in H2 as (x3 & -> & d & -> & Hd).
    exists b, d. repeat split; assumption.
  - intros (b & d & -> & Hb & Hd).
    exists (b ++ [chr "-"; d]). split; [reflexivity|].
    exists b, [chr "-"; d]. repeat split; [exact Hb|].
    apply lang_Lits. exists [d]. split; [reflexivity|]. now exists d.
Qed.

(** What a match of the header pattern is: the longest run of characters
    of the line after which a hyphen, some characters, a hyphen and a white
    space follow, and then the shortest such continuation. *)
Lemma header_match_greedy (event : str) (m : rmatch) :
  re_match HEADER_REGEX event = Some m ->
  exists title time c rest,
    m_text m = title ++ [chr "-"] ++ time ++ [chr "-"; c]
    /\ event = m_text m ++ rest
    /\ forallb is_dot title = true /\ forallb is_dot time = true
    /\ is_space c = true
    /\ forall w2 x s2,
         event = w2 ++ x ++ s2 -> forallb is_dot w2 = true ->
         length title < length w2 ->
         ~ lang (Lits (lit "-") (Seq (LazyStar is_dot) (Lits (lit "-") (Chr is_space)))) x.
Proof.
  unfold re_match, HEADER_REGEX. cbn [run]. intro H.
  apply star_longest in H as (title & s1 & E & Ht & Hk & Hmax).
  pose proof Hk as Hk'.
  apply run_sound in Hk' as (x & s2 & gs' & E1 & Lx & Hacc).
  unfold accept in Hacc. injection Hacc as <-. cbn [m_text].
  pose proof Lx as Lx'.
  apply header_rest_lang in Lx' as (time & c & Ex & Htime & Hc).
  assert (Et : firstn (length event - length s2) event = title ++ x).
  { subst event s1. rewrite app_assoc. apply firstn_length_app. }
  exists title, time, c, s2. rewrite Et.
  repeat split; try assumption.
  - now rewrite Ex.
  - subst event s1. now rewrite app_assoc.
  - intros w2 y s3 E2 Hw2 L Ly.
    specialize (Hmax w2 (y ++ s3) E2 Hw2 L). revert Hmax.
    apply run_complete; [exact Ly|]. intros gs0. discriminate.
Qed.

Lemma app_eq_length (A : Type) (a b c d : list A) :
  a ++ b = c ++ d -> length a <= length c -> exists l, c = a ++ l /\ b = l ++ d.
Proof.
  intros E L. apply app_eq_app in E as [l [[E1 E2]|[E1 E2]]].
  - subst a. rewrite length_app in L. destruct l; [|simpl in L; lia].
    exists []. simpl in E2. subst d. now rewrite !app_nil_r.
  - now exists l.
Qed.

(** No hyphen stands between the last two hyphens of a header. *)
Lemma header_time_no_hyphen (event : str) (m : rmatch)
  (title time rest : str) (c : char) :
  m_text m = title ++ [chr "-"] ++ time ++ [chr "-"; c] ->
  event = m_text m ++ rest ->
  forallb is_dot title = true -> forallb is_dot time = true -> is_space c = true ->
  (forall w2 x s2,
     event = w2 ++ x ++ s2 -> forallb is_dot w2 = true ->
     length title < length w2 ->
     ~ lang (Lits (lit "-") (Seq (LazyStar is_dot) (Lits (lit "-") (Chr is_space)))) x) ->
  ~ In (chr "-") time.
Proof.
  intros Em Ee Ht Htime Hc Hmax Hin.
  apply in_split in Hin as (t1 & t2 & ->).
  rewrite forallb_app in Htime. apply andb_true_iff in Htime as [H1 H2].
  simpl in H2.
  apply (Hmax (title ++ [chr "-"] ++ t1) ([chr "-"] ++ t2 ++ [chr "-"; c]) rest).
  - rewrite Ee, Em. now rewrite <- !app_assoc.
  - rewrite !forallb_app, Ht, H1. reflexivity.
  - rewrite !length_app. simpl. lia.
  - apply header_rest_lang. exists t2, c. repeat split; assumption.
Qed.

(** No longer prefix of the line has the form of a header. *)
Lemma header_match_longest (event : str) (m : rmatch) (a b rest2 : str) (d : char) :
  re_match HEADER_REGEX event = Some m ->
  event = (a ++ [chr "-"] ++ b ++ [chr "-"; d]) ++ rest2 ->
  forallb is_dot a = true -> forallb is_dot b = true -> is_space d = true ->
  length (a ++ [chr "-"] ++ b ++ [chr "-"; d]) <= length (m_text m).
Proof.
  intros H E Ha Hb Hd.
  destruct (header_match_greedy _ H)
    as (title & time & c & rest & Em & Ee & Ht & Htime & Hc & Hmax).
  destruct (Nat.le_gt_cases (length (a ++ [chr "-"] ++ b ++ [chr "-"; d]))
              (length (m_text m))) as [L|L]; [exact L|exfalso].
  (* the candidate is the header followed by some more characters *)
  assert (Hk : exists t, a ++ [chr "-"] ++ b ++ [chr "-"; d] = m_text m ++ t /\ t <> []).
  { rewrite Ee in E.
    apply app_eq_length in E as (l & E1 & E2); [|lia].
    exists l. split; [exact E1|]. intros ->. rewrite app_nil_r in E1.
    rewrite E1 in L. lia. }
  destruct Hk as (t & Ek & Hne).
  (* the text from the header's last hyphen on *)
  assert (Hx : exists x, c :: t = x ++ [chr "-"; d] /\ forallb is_dot x = true).
  { rewrite Em in Ek.
    assert (Ek' : (a ++ [chr "-"] ++ b) ++ [chr "-"; d]
                  = (title ++ [chr "-"] ++ time ++ [chr "-"]) ++ c :: t).
    { rewrite <- !app_assoc. rewrite <- !app_assoc in Ek. exact Ek. }
    apply app_eq_app in Ek' as [l [[E1 E2]|[E1 E2]]].
    - exists l. split; [exact E2|].
      assert (Hall : forallb is_dot (a ++ [chr "-"] ++ b) = true)
        by (rewrite !forallb_app, Ha, Hb; reflexivity).
      rewrite E1, forallb_app in Hall. now apply andb_true_iff in Hall as [_ Hall].
    - destruct l as [|y l].
      + exists []. split; [now rewrite E2|reflexivity].
      + exfalso. apply (f_equal (@length char)) in E2. simpl in E2.
        rewrite length_app in E2. simpl in E2.
        destruct t; [contradiction | simpl in E2; lia]. }
  destruct Hx as (x & Ex & Hxd).
  apply (Hmax (title ++ [chr "-"] ++ time) ([chr "-"] ++ x ++ [chr "-"; d]) rest2).
  - rewrite E, Ek, Em. rewrite <- !app_assoc. cbn [app].
    do 4 f_equal.
    change (c :: t ++ rest2) with ((c :: t) ++ rest2).
    rewrite Ex. now rewrite <- app_assoc.
  - rewrite !forallb_app, Ht, Htime. reflexivity.
  - rewrite !length_app. simpl. lia.
  - apply header_rest_lang. exists x, d. repeat split; assumption.
Qed.

(** The header pattern matches every line that has a prefix of the form
    of a header. *)
Lemma header_match_exists (a b rest : str) (d : char) :
  forallb is_dot a = true -> forallb is_dot b = true -> is_space d = true ->
  re_match HEADER_REGEX ((a ++ [chr "-"] ++ b ++ [chr "-"; d]) ++ rest) <> None.
Proof.
  intros Ha Hb Hd. unfold re_match. apply run_complete.
  - unfold HEADER_REGEX. exists a, ([chr "-"] ++ b ++ [chr "-"; d]).
    repeat split; [exact Ha|]. apply header_rest_lang. now exists b, d.
  - intros gs'. discriminate.
Qed.

(** X1: on a line that begins with text, a hyphen, text, a hyphen and a
    white-space character, with no line feed in the two texts,
    [find_header] logs nothing and returns the longest prefix of the line
    of that form: it reaches to the last such hyphen of the line, not to
    its second hyphen, and no hyphen stands between its last two hyphens. *)
Theorem header_is_longest_prefix (event a b rest : str) (d : char) (w : world) :
  event = (a ++ [chr "-"] ++ b ++ [chr "-"; d]) ++ rest ->
  ~ In newline a -> ~ In newline b -> is_space d = true ->
  exists title time c rest',
    find_header event w = (title ++ [chr "-"] ++ time ++ [chr "-"; c], w)
    /\ event = (title ++ [chr "-"] ++ time ++ [chr "-"; c]) ++ rest'
    /\ ~ In newline title /\ ~ In newline time /\ ~ In (chr "-") time
    /\ is_space c = true
    /\ length (a ++ [chr "-"] ++ b ++ [chr "-"; d])
       <= length (title ++ [chr "-"] ++ time ++ [chr "-"; c]).
Proof.
  intros E Ha Hb Hd. apply is_dot_all in Ha, Hb.
  pose proof (header_match_exists a b rest d Ha Hb Hd) as Hex. rewrite <- E in Hex.
  destruct (re_match HEADER_REGEX event) as [m|] eqn:Hm; [clear Hex|contradiction].
  destruct (header_match_greedy _ Hm)
    as (title & time & c & rest' & Em & Ee & Ht & Htime & Hc & Hmax).
  exists title, time, c, rest'. rewrite <- Em.
  split; [|split; [exact Ee|]].
  - unfold find_header. now rewrite Hm.
  - split; [now apply is_dot_all|]. split; [now apply is_dot_all|].
    split; [eapply header_time_no_hyphen; eassumption|].
    split; [exact Hc|].
    eapply header_match_longest with (rest2 := rest); eassumption.
Qed.

(** The header of a header is the header itself: [find_header] returns
    its argument when it is given a header it has returned. *)
Lemma header_text_of_match (event : str) (m : rmatch) :
  re_match HEADER_REGEX event = Some m ->
  exists m', re_match HEADER_REGEX (m_text m) = Some m' /\ m_text m' = m_text m.
Proof.
  intro Hm.
  destruct (header_match_greedy _ Hm)
    as (title & time & c & rest' & Em & Ee & Ht & Htime & Hc & Hmax).
  pose proof (header_match_exists title time [] c Ht Htime Hc) as Hex.
  rewrite app_nil_r in Hex. rewrite <- Em in Hex.
  destruct (re_match HEADER_REGEX (m_text m)) as [m'|] eqn:Hm'; [|contradiction].
  exists m'. split; [reflexivity|].
  destruct (header_match_prefix _ Hm') as (r & Er).
  assert (L : length (m_text m) <= length (m_text m')).
  { rewrite Em at 1.
    eapply header_match_longest with (rest2 := []);
      [exact Hm' | now rewrite app_nil_r, <- Em | assumption..]. }
  apply (f_equal (@length char)) in Er as El. rewrite length_app in El.
  destruct r; [now rewrite app_nil_r in Er | simpl in El; lia].
Qed.

Lemma header_needs_hyphen (s : str) :
  ~ In (chr "-") s -> re_match HEADER_REGEX s = None.
Proof.
  intro Hn. destruct (re_match HEADER_REGEX s) as [m|] eqn:E; [exfalso|reflexivity].
  destruct (header_match_shape _ E) as (w' & c & Ew & _).
  destruct (header_match_prefix _ E) as (r & Er).
  apply Hn. rewrite Er, Ew. apply in_or_app. left. apply in_or_app. right. now left.
Qed.

(** Text without a hyphen after a header does not change the header. *)
Lemma header_text_app (event X : str) :
  ~ In (chr "-") X -> header_text (header_text event ++ X) = header_text event.
Proof.
  intro HX. unfold header_text at 2 3.
  destruct (re_match HEADER_REGEX event) as [m|] eqn:Hm.
  - destruct (header_match_greedy _ Hm)
      as (title & time & c & rest' & Em & Ee & Ht & Htime & Hc & Hmax).
    pose proof (header_match_exists title time X c Ht Htime Hc) as Hex.
    rewrite <- Em in Hex. unfold header_text.
    destruct (re_match HEADER_REGEX (m_text m ++ X)) as [m'|] eqn:Hm'; [|contradiction].
    assert (L : length (m_text m) <= length (m_text m')).
    { rewrite Em at 1.
      eapply header_match_longest with (rest2 := X);
        [exact Hm' | now rewrite <- Em | assumption..]. }
    destruct (header_match_prefix _ Hm') as (r & Er).
    apply app_eq_length in Er as (l & El & EX); [|exact L].
    destruct l as [|y l]; [now rewrite app_nil_r in El|exfalso].
    destruct (header_match_shape _ Hm') as (w' & c' & Ew & Hc').
    assert (Hl : y :: l = [c']).
    { apply suffix_without_char with (a := m_text m) (w' := w') (x := chr "-");
        [congruence | discriminate |].
      intro Hin. apply HX. rewrite EX. apply in_or_app. now left. }
    rewrite Hl, Ew, Em in El.
    assert (E2 : w' ++ [chr "-"] = title ++ [chr "-"] ++ time ++ [chr "-"; c]).
    { apply app_inv_tail with (l := [c']). rewrite <- !app_assoc. cbn [app].
      rewrite <- !app_assoc in El. exact El. }
    assert (E3 : w' ++ [chr "-"] = (title ++ [chr "-"] ++ time ++ [chr "-"]) ++ [c])
      by (rewrite E2, <- !app_assoc; reflexivity).
    apply app_inj_tail in E3 as [_ E3]. subst c. discriminate.
  - unfold header_text. rewrite header_needs_hyphen; [reflexivity|].
    intros [E|Hin]; [discriminate | contradiction].
Qed.

(** X2: the header of a line the splitter writes is the header of the
    line it was made from: [find_header] gives the same text on the source
    line and on the header followed by the tokens of a healer, and, more
    generally, by any text without a hyphen; in particular the header of a
    header is the header itself. *)
Theorem split_line_keeps_header (event healer : str) (w w' : world) :
  fst (find_header
         (fst (find_header event w)
          ++ get_healer_cd_text_from_matches (find_cds_for_healer event healer)
          ++ [newline]) w')
  = fst (find_header event w)
  /\ (forall X, existsb (N.eqb (chr "-")) X = false ->
        fst (find_header (fst (find_header event w) ++ X) w')
        = fst (find_header event w))
  /\ fst (find_header (fst (find_header event w)) w') = fst (find_header event w).
Proof.
  rewrite !find_header_run. cbn [fst].
  split; [|split].
  - apply header_text_app. rewrite get_healer_cd_text. intro Hin.
    apply in_app_or in Hin as [Hin|[Hin|[]]]; [|discriminate].
    revert Hin. apply tokens_no_hyphen. apply find_cds_for_healer_tokens.
  - intros X HX. rewrite find_header_run. cbn [fst].
    apply header_text_app. intro Hin.
    assert (Hex : existsb (N.eqb (chr "-")) X = true).
    { apply existsb_exists. exists (chr "-"). split; [exact Hin | apply N.eqb_refl]. }
    congruence.
  - rewrite <- (app_nil_r (header_text event)) at 1.
    apply header_text_app. intros [].
Qed.

(* =================================================================== *)
(** ** Further properties: the parts of an assignment token *)
(* =================================================================== *)

Lemma pmatch_Lits (l : str) (r : regex) (s : str) (gs : list str) (s' : str) (g : list str) :
  pmatch (Lits l r) s gs = Some (s', g) ->
  exists s1, s = l ++ s1 /\ pmatch r s1 gs = Some (s', g).
Proof.
  revert s; induction l as [|c l IH]; intros s H.
  - now exists s.
  - cbn [Lits fold_right pmatch] in H. destruct s as [|d s]; [discriminate|].
    unfold is_char in H. destruct (N.eqb_spec c d) as [<-|]; [|discriminate].
    apply IH in H as (s1 & -> & H). now exists s1.
Qed.

Lemma drop_while_stop (p : char -> bool) (s : str) :
  match drop_while p s with c :: _ => p c = false | [] => True end.
Proof.
  induction s as [|c s IH]; simpl; [exact I|].
  destruct (p c) eqn:E; [exact IH | exact E].
Qed.

(** A repetition that stops before a character took all it could. *)
Lemma drop_while_before (p : char -> bool) (s rest : str) (c : char) :
  drop_while p s = c :: rest ->
  exists u, s = u ++ c :: rest /\ forallb p u = true /\ p c = false.
Proof.
  intro H. destruct (drop_while_suffix p s) as (u & E & Hu).
  pose proof (drop_while_stop p s) as Hs. rewrite H in E, Hs.
  now exists u.
Qed.

Lemma drop_upto_stop (n : nat) (p : char -> bool) (s : str) :
  exists u, s = u ++ drop_upto n p s /\ forallb p u = true /\ length u <= n
    /\ (length u < n ->
        match drop_upto n p s with c :: _ => p c = false | [] => True end).
Proof.
  revert s; induction n as [|n IH]; intros s; simpl.
  - exists []. repeat split; simpl; lia.
  - destruct s as [|c s].
    + exists []. repeat split; simpl; lia.
    + destruct (p c) eqn:E.
      * destruct (IH s) as (u & Hu & Hp & Hl & Hs).
        exists (c :: u). simpl. rewrite E, Hp.
        repeat split; [congruence | lia |]. intro L. apply Hs. lia.
      * exists []. repeat split; simpl; try lia. intros _. exact E.
Qed.

(** The parts of a match of the assignment pattern: the colour digits,
    the name (group 1) and the spell (group 2). *)
Lemma cd_match_parts (b : str) (m : rmatch) :
  re_match RAID_CD_REGEX b = Some m ->
  exists colour name spaces digits s1 s2,
    m_text m = lit "|c" ++ colour ++ name ++ lit "|r" ++ spaces
               ++ lit "{spell:" ++ digits ++ lit "}" ++ [s1; s2]
    /\ m_groups m = [name; spaces ++ lit "{spell:" ++ digits ++ lit "}" ++ [s1; s2]]
    /\ forallb is_hex colour = true /\ 6 <= length colour <= 8
    /\ (length colour < 8 ->
        match name with c :: _ => is_hex c = false | [] => True end)
    /\ forallb is_name name = true
    /\ forallb is_space spaces = true /\ forallb is_digit digits = true
    /\ is_space s1 = true /\ is_space s2 = true.
Proof.
  unfold re_match. rewrite raid_cd_det by apply gs_blind_accept.
  destruct (pmatch RAID_CD_REGEX b []) as [[s' g]|] eqn:E; [|discriminate].
  cbn [and_then]. unfold accept. intro H. injection H as <-. cbn [m_text m_groups].
  unfold RAID_CD_REGEX in E.
  apply pmatch_Lits in E as (b1 & -> & E).
  cbn [pmatch] in E.
  destruct (drop_exact 6 is_hex b1) as [b2|] eqn:E6; [|discriminate].
  apply drop_exact_suffix in E6 as (u1 & -> & Hu1 & Lu1).
  destruct (drop_upto_stop 2 is_hex b2) as (u2 & Eu2 & Hu2 & Lu2 & Hstop).
  remember (drop_upto 2 is_hex b2) as b3 eqn:Eb3.
  destruct (drop_while_suffix is_name b3) as (name & Ename & Hname).
  remember (drop_while is_name b3) as b4 eqn:Eb4.
  assert (Eg1 : firstn (length b3 - length b4) b3 = name).
  { rewrite Ename at 1 2. apply firstn_length_app. }
  rewrite Eg1 in E. cbn [app] in E.
  apply pmatch_Lits in E as (b5 & Eb5 & E).
  cbn [pmatch] in E.
  destruct (pmatch (Lits (lit "{spell:") _) (drop_while is_space b5) [name])
    as [[s6 g6]|] eqn:E7; [|discriminate].
  injection E as -> <-.
  apply pmatch_Lits in E7 as (b6 & Eb6 & E7).
  cbn [pmatch] in E7.
  apply pmatch_Lits in E7 as (b7 & Eb7 & E7).
  cbn [pmatch] in E7.
  destruct b7 as [|s1 [|s2 b8]]; [discriminate | |].
  { destruct (is_space s1); discriminate. }
  destruct (is_space s1) eqn:Hs1; [|discriminate].
  destruct (is_space s2) eqn:Hs2; [|discriminate].
  injection E7 as -> <-.
  destruct (drop_while_suffix is_space b5) as (spaces & Espaces & Hspaces).
  destruct (drop_while_suffix is_digit b6) as (digits & Edigits & Hdigits).
  rewrite Eb7 in Edigits. rewrite Eb6, Edigits in Espaces.
  assert (Eb2 : b2 = u2 ++ name ++ lit "|r" ++ b5) by congruence.
  exists (u1 ++ u2), name, spaces, digits, s1, s2.
  split; [|split; [|split; [|split; [|split; [|repeat split; assumption]]]]].
  - rewrite Eb2, Espaces.
    replace (lit "|c" ++ u1 ++ u2 ++ name ++ lit "|r" ++ spaces ++ lit "{spell:"
             ++ digits ++ lit "}" ++ s1 :: s2 :: s')
      with ((lit "|c" ++ (u1 ++ u2) ++ name ++ lit "|r" ++ spaces ++ lit "{spell:"
             ++ digits ++ lit "}" ++ [s1; s2]) ++ s')
      by (rewrite <- !app_assoc; reflexivity).
    apply firstn_length_app.
  - cbn [app]. do 2 f_equal. rewrite Espaces.
    replace (spaces ++ lit "{spell:" ++ digits ++ lit "}" ++ s1 :: s2 :: s')
      with ((spaces ++ lit "{spell:" ++ digits ++ lit "}" ++ [s1; s2]) ++ s')
      by (rewrite <- !app_assoc; reflexivity).
    apply firstn_length_app.
  - rewrite forallb_app, Hu1, Hu2. reflexivity.
  - rewrite length_app. lia.
  - intro L. rewrite length_app in L.
    assert (L2 : length u2 < 2) by lia. specialize (Hstop L2).
    rewrite Ename in Hstop. now destruct name.
Qed.

(* =================================================================== *)
(** ** Further properties: the matches of a healer *)
(* =================================================================== *)

(** X3: every match [find_cds_for_healer] returns for a healer lies in the
    line and is the characters [|c], six to eight hexadecimal digits, the
    healer's name, the characters [|r], white space, [{spell:], digits, a
    closing brace and two white-space characters; its groups are the name
    and the spell part, so that [groups()[0]] exists; and the colour has
    fewer than eight digits only when the name does not begin with a
    hexadecimal digit. *)
Theorem healer_match_parts (event healer : str) (m : rmatch) :
  In m (find_cds_for_healer event healer) ->
  exists before after colour spaces digits s1 s2,
    event = before ++ m_text m ++ after
    /\ m_text m = lit "|c" ++ colour ++ healer ++ lit "|r" ++ spaces
                  ++ lit "{spell:" ++ digits ++ lit "}" ++ [s1; s2]
    /\ m_groups m = [healer; spaces ++ lit "{spell:" ++ digits ++ lit "}" ++ [s1; s2]]
    /\ forallb is_hex colour = true /\ 6 <= length colour <= 8
    /\ (length colour < 8 ->
        match healer with c :: _ => is_hex c = false | [] => True end)
    /\ forallb is_name healer = true
    /\ forallb is_space spaces = true /\ forallb is_digit digits = true
    /\ is_space s1 = true /\ is_space s2 = true.
Proof.
  intro H. apply filter_In in H as [Hin Hg].
  apply finditer_In in Hin as (before & b & Eb & Hm).
  destruct (re_match_sound _ _ Hm) as (after & Ea & _).
  destruct (cd_match_parts _ Hm)
    as (colour & name & spaces & digits & s1 & s2 & Et & Eg & Hrest).
  assert (name = healer) as ->.
  { unfold group0 in Hg. rewrite Eg in Hg. now apply str_eqb_eq in Hg. }
  exists before, after, colour, spaces, digits, s1, s2.
  split; [congruence|]. split; [exact Et|]. split; [exact Eg | exact Hrest].
Qed.

Lemma filter_orb_perm (A : Type) (f g : A -> bool) (l : list A) :
  (forall a, In a l -> f a = true -> g a = false) ->
  Permutation (filter (fun a => f a || g a) l) (filter f l ++ filter g l).
Proof.
  induction l as [|a l IH]; intro H; [constructor|].
  assert (IH' : Permutation (filter (fun a => f a || g a) l) (filter f l ++ filter g l)).
  { apply IH. intros b Hb. apply H. now right. }
  cbn [filter]. destruct (f a) eqn:Ef.
  - rewrite (H a (or_introl eq_refl) Ef). cbn [orb app]. now constructor.
  - cbn [orb]. destruct (g a); [|exact IH'].
    now apply Permutation_cons_app.
Qed.

(** The matches with a name of the roster and the others make up the
    matches. *)
Lemma roster_or_not (ms : list rmatch) :
  Permutation ms
    (filter (fun m => in_roster (group0 m)) ms
     ++ filter (fun m => negb (in_roster (group0 m))) ms).
Proof.
  induction ms as [|m ms IH]; [constructor|].
  cbn [filter]. destruct (in_roster (group0 m)); cbn [negb app].
  - now constructor.
  - now apply Permutation_cons_app.
Qed.

(** The matches whose name is one of [keys], sorted by name. *)
Lemma filter_by_keys (keys : list str) (ms : list rmatch) :
  NoDup keys ->
  Permutation
    (filter (fun m => existsb (str_eqb (group0 m)) keys) ms)
    (flat_map (fun h => filter (fun m => str_eqb (group0 m) h) ms) keys).
Proof.
  induction 1 as [|h keys Hh Hnd IH]; cbn [existsb flat_map].
  - induction ms as [|m ms IHms]; [constructor | exact IHms].
  - etransitivity.
    + apply filter_orb_perm. intros m _ E. apply str_eqb_eq in E.
      apply not_true_is_false. intro Hex.
      apply existsb_exists in Hex as (x & Hx & Ex). apply str_eqb_eq in Ex.
      apply Hh. congruence.
    + now apply Permutation_app_head.
Qed.

Lemma roster_nodup : NoDup HEALER_ROSTER.
Proof.
  unfold HEALER_ROSTER.
  repeat (constructor; [cbn [In]; intuition discriminate|]). constructor.
Qed.

(** X4: the tokens of a line are shared out without loss or repetition:
    the matches found for the healers of the roster, taken healer by
    healer, together with the matches whose name is not in the roster are
    the matches of the line, each one once. *)
Theorem roster_shares_out_tokens (event : str) :
  Permutation
    (finditer RAID_CD_REGEX event)
    (flat_map (find_cds_for_healer event) HEALER_ROSTER
     ++ filter (fun m => negb (in_roster (group0 m))) (finditer RAID_CD_REGEX event)).
Proof.
  etransitivity; [apply roster_or_not|].
  apply Permutation_app_tail. unfold in_roster, find_cds_for_healer.
  apply filter_by_keys. apply roster_nodup.
Qed.

(* =================================================================== *)
(** ** Further properties: who sees what *)
(* =================================================================== *)

(** X5: the header of an event is shown to exactly the raiders who are
    shown one of its tokens: a name is among the viewers of the header if
    and only if it is in the viewer list of the tag of some token of the
    line. *)
Theorem header_viewers_are_token_viewers
  (event : str) (vis : RaidLeadVisibility) (x : str) :
  In x (header_visibility_set (event_matches_loop vis (finditer RAID_CD_REGEX event)))
  <-> exists m, In m (finditer RAID_CD_REGEX event) /\ In x (cd_visibility_list m vis).
Proof.
  unfold header_visibility_set. rewrite set_to_list_elems, event_matches_loop_spec.
  cbn [is_header_visible_to_rl header_visibility_list]. unfold cd_visibility_list.
  split.
  - intro H.
    assert (Hn : In x (map group0 (finditer RAID_CD_REGEX event))
                 -> exists m, In m (finditer RAID_CD_REGEX event)
                              /\ In x ((if should_be_visible_to_raid_leader (group0 m) vis
                                        then [RAID_LEAD] else []) ++ [group0 m])).
    { intro Hx. apply in_map_iff in Hx as (m & <- & Hm). exists m.
      split; [exact Hm|]. apply in_or_app. right. now left. }
    destruct (existsb _ (finditer RAID_CD_REGEX event)) eqn:Ex; [|now apply Hn].
    apply in_app_or in H as [H|[<-|[]]]; [now apply Hn|].
    apply existsb_exists in Ex as (m & Hm & Hv). exists m. split; [exact Hm|].
    rewrite Hv. now left.
  - intros (m & Hm & Hx).
    assert (Hg : In (group0 m) (map group0 (finditer RAID_CD_REGEX event)))
      by now apply in_map.
    apply in_app_or in Hx as [Hx|[<-|[]]].
    + destruct (should_be_visible_to_raid_leader (group0 m) vis) eqn:Hv; [|destruct Hx].
      destruct Hx as [<-|[]].
      assert (Ex : existsb (fun m => should_be_visible_to_raid_leader (group0 m) vis)
                     (finditer RAID_CD_REGEX event) = true).
      { apply existsb_exists. now exists m. }
      rewrite Ex. apply in_or_app. right. now left.
    + destruct (existsb _ _); [apply in_or_app; now left | exact Hg].
Qed.

(** X6: the tag of a token names one or two viewers, the last of which
    is the assignee, and it names the same viewer twice exactly when the
    assignee is the raid leader and the policy is not [HEALER_CDS]. *)
Theorem token_tag_viewers (m : rmatch) (vis : RaidLeadVisibility) :
  get_encapsulated_cd_from_match m vis
  = lit "{p:" ++ join (lit ",") (cd_visibility_list m vis) ++ lit "}"
    ++ m_text m ++ lit "{/p}"
  /\ last (cd_visibility_list m vis) [] = group0 m
  /\ 1 <= length (cd_visibility_list m vis) <= 2
  /\ (NoDup (cd_visibility_list m vis)
      <-> ~ (group0 m = RAID_LEAD /\ vis <> HEALER_CDS)).
Proof.
  split; [reflexivity|]. unfold cd_visibility_list.
  destruct (should_be_visible_to_raid_leader (group0 m) vis) eqn:Hv; cbn [app last length].
  - split; [reflexivity|]. split; [lia|]. split.
    + intros Hnd [Hg _]. inversion Hnd as [|? ? Hn _]; subst. apply Hn. now left.
    + intro Hn. repeat constructor; [|intros []].
      intros [E|[]]. apply Hn. split; [congruence|].
      intros ->. rewrite E in Hv. cbn in Hv. discriminate.
  - split; [reflexivity|]. split; [lia|]. split.
    + intros _ [Hg Hvis]. rewrite Hg in Hv. destruct vis; cbn in Hv;
        [discriminate | now apply Hvis | discriminate].
    + intros _. repeat constructor. intros [].
Qed.

(* =================================================================== *)
(** ** Further properties: the tokens can be read back from the export *)
(* =================================================================== *)

Lemma cd_needs_bar (c : char) (s : str) :
  c <> chr "|" -> re_match RAID_CD_REGEX (c :: s) = None.
Proof.
  intro H. unfold re_match, RAID_CD_REGEX.
  cbn [Lits lit list_ascii_of_string map fold_right run]. unfold is_char at 1.
  destruct (N.eqb_spec (chr "|") c) as [E|_]; [congruence | reflexivity].
Qed.

(** Text without a [|] holds no start of a token. *)
Lemma finditer_no_bar (h X : str) :
  ~ In (chr "|") h -> finditer RAID_CD_REGEX (h ++ X) = finditer RAID_CD_REGEX X.
Proof.
  intro Hn. apply finditer_no_start. intros a [|c u] E Hu; [contradiction|].
  apply cd_needs_bar. intros ->. apply Hn. rewrite E. apply in_or_app. right. now left.
Qed.

Lemma join_avoids (c : char) (sep : str) (parts : list str) :
  ~ In c sep -> (forall p, In p parts -> ~ In c p) -> ~ In c (join sep parts).
Proof.
  intros Hs. induction parts as [|p parts IH]; intro Hp; [intros []|].
  destruct parts as [|q parts].
  - apply Hp. now left.
  - change (join sep (p :: q :: parts)) with (p ++ sep ++ join sep (q :: parts)).
    intro Hin. apply in_app_or in Hin as [Hin|Hin]; [now apply (Hp p (or_introl eq_refl))|].
    apply in_app_or in Hin as [Hin|Hin]; [contradiction|].
    revert Hin. apply IH. intros p' Hp'. apply Hp. now right.
Qed.

(** The name of a token holds no [|]. *)
Lemma token_name_no_bar (m : rmatch) : token m -> ~ In (chr "|") (group0 m).
Proof.
  intros Hm Hin. apply token_match in Hm.
  destruct (cd_match_parts _ Hm)
    as (colour & name & spaces & digits & s1 & s2 & _ & Eg & _ & _ & _ & Hname & _).
  unfold group0 in Hin. rewrite Eg in Hin. cbn [nth] in Hin.
  rewrite forallb_forall in Hname. apply Hname in Hin. discriminate.
Qed.

Lemma cd_visibility_no_bar (m : rmatch) (vis : RaidLeadVisibility) :
  token m -> forall p, In p (cd_visibility_list m vis) -> ~ In (chr "|") p.
Proof.
  intros Hm p Hp. unfold cd_visibility_list in Hp.
  apply in_app_or in Hp as [Hp|[<-|[]]].
  - destruct (should_be_visible_to_raid_leader _ _); [|destruct Hp].
    destruct Hp as [<-|[]]. cbn. intuition discriminate.
  - now apply token_name_no_bar.
Qed.

(** In the encapsulated tokens the matcher finds the tokens again. *)
Lemma finditer_encapsulated (vis : RaidLeadVisibility) (ms : list rmatch) (tail : str) :
  Forall token ms ->
  finditer RAID_CD_REGEX
    (concat (map (fun m => get_encapsulated_cd_from_match m vis) ms) ++ tail)
  = ms ++ finditer RAID_CD_REGEX tail.
Proof.
  induction 1 as [|m ms Hm Hms IH]; [reflexivity|].
  cbn [map concat]. unfold get_encapsulated_cd_from_match at 1, encapsulate.
  rewrite <- !app_assoc.
  rewrite finditer_no_bar by (cbn; intuition discriminate).
  rewrite finditer_no_bar
    by (apply join_avoids;
        [cbn; intuition discriminate | now apply cd_visibility_no_bar]).
  rewrite finditer_no_bar by (cbn; intuition discriminate).
  erewrite finditer_cons; [ | apply Hm | reflexivity | now apply token_non_nil ].
  rewrite finditer_no_bar by (cbn; intuition discriminate).
  rewrite IH. reflexivity.
Qed.

Lemma header_viewers_no_bar (vis : RaidLeadVisibility) (ms : list rmatch) :
  Forall token ms ->
  forall p, In p (header_visibility_set (event_matches_loop vis ms)) ->
            ~ In (chr "|") p.
Proof.
  intros Hms p Hp. unfold header_visibility_set in Hp.
  rewrite set_to_list_elems, event_matches_loop_spec in Hp.
  cbn [is_header_visible_to_rl header_visibility_list] in Hp.
  assert (Hn : In p (map group0 ms) -> ~ In (chr "|") p).
  { intro Hin. apply in_map_iff in Hin as (m & <- & Hm).
    rewrite Forall_forall in Hms. now apply token_name_no_bar, Hms. }
  destruct (existsb _ ms); [|now apply Hn].
  apply in_app_or in Hp as [Hp|[<-|[]]]; [now apply Hn|].
  cbn. intuition discriminate.
Qed.

Lemma finditer_tokens_all (s : str) : Forall token (finditer RAID_CD_REGEX s).
Proof. apply Forall_forall. intros m. apply finditer_match_token. Qed.

(** No token starts in the header of a line, whatever follows it, when
    the header holds no token. *)
Lemma header_text_no_token_start (event X : str) :
  finditer RAID_CD_REGEX (header_text event) = [] ->
  finditer RAID_CD_REGEX (header_text event ++ X) = finditer RAID_CD_REGEX X.
Proof.
  unfold header_text. destruct (re_match HEADER_REGEX event) as [hm|] eqn:Hh; intro Hno.
  - apply finditer_no_start. intros a u. now apply header_no_token_start with (b := event).
  - apply finditer_no_bar. cbn. intuition discriminate.
Qed.

(** X7: encapsulating loses no token and adds none.  In the encapsulated
    tokens of a line the matcher finds exactly the tokens of the line, in
    their order; and when the header of the line holds no token, so it does
    in the whole text the encapsulator makes of the line. *)
Theorem tokens_survive_encapsulation
  (event : str) (vis : RaidLeadVisibility) (w : world) :
  finditer RAID_CD_REGEX
    (cds (event_matches_loop vis (finditer RAID_CD_REGEX event)))
  = finditer RAID_CD_REGEX event
  /\ (finditer RAID_CD_REGEX (fst (find_header event w)) = [] ->
      finditer RAID_CD_REGEX (fst (encapsulate_event vis event w))
      = finditer RAID_CD_REGEX event).
Proof.
  pose proof (finditer_tokens_all event) as Hms.
  assert (Hcds : forall tail,
             finditer RAID_CD_REGEX
               (cds (event_matches_loop vis (finditer RAID_CD_REGEX event)) ++ tail)
             = finditer RAID_CD_REGEX event ++ finditer RAID_CD_REGEX tail).
  { intro tail. rewrite event_matches_loop_spec. cbn [cds].
    now apply finditer_encapsulated. }
  split.
  - rewrite <- (app_nil_r (cds _)). rewrite Hcds. apply app_nil_r.
  - rewrite find_header_run, encapsulate_event_run. cbn [fst]. cbv zeta. intro Hno.
    rewrite cds_non_empty.
    destruct (finditer RAID_CD_REGEX event) as [|m ms] eqn:Ef; [reflexivity|].
    rewrite <- Ef in *. unfold encapsulate. rewrite <- !app_assoc.
    rewrite finditer_no_bar by (cbn; intuition discriminate).
    rewrite finditer_no_bar
      by (apply join_avoids;
          [cbn; intuition discriminate | now apply header_viewers_no_bar]).
    rewrite finditer_no_bar by (cbn; intuition discriminate).
    rewrite header_text_no_token_start by exact Hno.
    rewrite finditer_no_bar by (cbn; intuition discriminate).
    rewrite Hcds. apply app_nil_r.
Qed.

(* =================================================================== *)
(** ** Further properties: removing only removes *)
(* =================================================================== *)

Lemma subseq_refl (s : str) : subseq s s.
Proof. induction s; [apply subseq_nil | now apply subseq_keep]. Qed.

Lemma subseq_trans (a b c : str) : subseq a b -> subseq b c -> subseq a c.
Proof.
  intros Hab Hbc. revert a Hab.
  induction Hbc as [|b c x Hbc IH|b c x Hbc IH]; intros a Hab.
  - exact Hab.
  - apply subseq_skip. now apply IH.
  - inversion Hab; subst.
    + apply subseq_skip. now apply IH.
    + apply subseq_keep. now apply IH.
Qed.

Lemma subseq_In (a b : str) (c : char) : subseq a b -> In c a -> In c b.
Proof.
  induction 1 as [|a b x H IH|a b x H IH]; simpl; intro Hin.
  - exact Hin.
  - right. now apply IH.
  - destruct Hin as [->|Hin]; [now left | right; now apply IH].
Qed.

Lemma subseq_length (a b : str) : subseq a b -> length a <= length b.
Proof. induction 1; simpl; lia. Qed.

(** Leaving out nothing is the only way to keep the length. *)
Lemma subseq_same_length (a b : str) : subseq a b -> length a = length b -> a = b.
Proof.
  induction 1 as [|a b x H IH|a b x H IH]; simpl; intro L.
  - reflexivity.
  - apply subseq_length in H. lia.
  - f_equal. apply IH. lia.
Qed.

Lemma replace_from_subseq (old s : str) :
  forall skip, subseq (replace_from old [] s skip) s.
Proof.
  induction s as [|c s IH]; intro skip; [constructor|].
  cbn [replace_from]. destruct skip as [|n].
  - destruct (startswith old (c :: s)); cbn [app];
      [apply subseq_skip | apply subseq_keep]; apply IH.
  - apply subseq_skip. apply IH.
Qed.

(** [s.replace(old, "")] leaves characters out and does nothing else. *)
Lemma replace_subseq (old s : str) : subseq (replace old [] s) s.
Proof.
  destruct old as [|x old]; [|apply replace_from_subseq].
  unfold replace. cbn [app].
  induction s as [|c s IH]; [constructor|]. cbn [flat_map app]. now apply subseq_keep.
Qed.

Lemma replace_from_hit_shorter (old s : str) :
  startswith old s = true -> old <> [] ->
  length (replace_from old [] s 0) < length s.
Proof.
  intros H Hne. destruct s as [|c s]; [destruct old; [contradiction|discriminate]|].
  cbn [replace_from]. rewrite H. cbn [app length].
  pose proof (subseq_length (replace_from_subseq old s (length old - 1))). lia.
Qed.

(** Where [old] occurs, [s.replace(old, "")] is shorter than [s]. *)
Lemma replace_occurrence_shorter (old a b : str) :
  old <> [] -> length (replace old [] (a ++ old ++ b)) < length (a ++ old ++ b).
Proof.
  intro Hne. rewrite replace_cons by exact Hne.
  induction a as [|c a IH].
  - cbn [app]. apply replace_from_hit_shorter; [apply startswith_app | exact Hne].
  - destruct (startswith old ((c :: a) ++ old ++ b)) eqn:E.
    + now apply replace_from_hit_shorter.
    + cbn [app replace_from] in *. rewrite E. cbn [length]. lia.
Qed.

Lemma fold_replace_subseq (healer : str) (ms : list rmatch) (s : str) :
  subseq
    (fold_left
       (fun processed_event m =>
          if str_eqb (group0 m) healer
          then replace (m_text m) [] processed_event
          else processed_event)
       ms s)
    s.
Proof.
  revert s; induction ms as [|m ms IH]; intro s; [apply subseq_refl|].
  cbn [fold_left]. eapply subseq_trans; [apply IH|].
  destruct (str_eqb (group0 m) healer); [apply replace_subseq | apply subseq_refl].
Qed.

Lemma remove_cds_subseq (event healer : str) :
  subseq (remove_cds_from_event event healer) event.
Proof. apply fold_replace_subseq. Qed.

(** X8: [remove_cds_from_event] only leaves characters out: its result is
    the line with some characters removed, in the same order; it is the
    line itself exactly when the matcher finds no token of the healer in
    the line, and it is shorter than the line otherwise. *)
Theorem remove_cds_only_removes (event healer : str) :
  subseq (remove_cds_from_event event healer) event
  /\ (remove_cds_from_event event healer = event
      <-> find_cds_for_healer event healer = [])
  /\ (length (remove_cds_from_event event healer) < length event
      <-> find_cds_for_healer event healer <> []).
Proof.
  pose proof (remove_cds_subseq event healer) as Hsub.
  assert (Hshort : find_cds_for_healer event healer <> [] ->
                   length (remove_cds_from_event event healer) < length event).
  { unfold remove_cds_from_event.
    destruct (find_cds_for_healer event healer) as [|m ms] eqn:Ef; [contradiction|].
    intros _. cbn [fold_left].
    assert (Hm : In m (find_cds_for_healer event healer)) by (rewrite Ef; now left).
    apply filter_In in Hm as [Hin Hg]. rewrite Hg.
    apply finditer_In in Hin as (a & b & Eb & Hmatch).
    destruct (re_match_sound _ _ Hmatch) as (rest & Er & _).
    eapply Nat.le_lt_trans; [apply subseq_length, fold_replace_subseq|].
    rewrite Eb, Er. apply replace_occurrence_shorter.
    intro E. apply cd_match_non_empty in Hmatch. rewrite E in Hmatch. discriminate. }
  assert (Hsame : find_cds_for_healer event healer = [] ->
                  remove_cds_from_event event healer = event).
  { unfold remove_cds_from_event. now intros ->. }
  split; [exact Hsub|]. split; split.
  - intro E. destruct (find_cds_for_healer event healer) as [|m ms] eqn:Ef;
      [reflexivity|exfalso].
    assert (L : length (remove_cds_from_event event healer) < length event)
      by (apply Hshort; discriminate).
    rewrite E in L. lia.
  - exact Hsame.
  - intros L E. rewrite (Hsame E) in L. lia.
  - exact Hshort.
Qed.

Lemma fold_remove_subseq (roster : list str) (s : str) :
  subseq (fold_left remove_cds_from_event roster s) s.
Proof.
  revert s; induction roster as [|h roster IH]; intro s; [apply subseq_refl|].
  cbn [fold_left]. eapply subseq_trans; [apply IH | apply remove_cds_subseq].
Qed.

(** What the stripper keeps of a line is the line with some characters
    left out, and it holds no line feed. *)
Lemma stripped_event_subseq (event : str) :
  subseq (stripped_event event) event /\ ~ In newline (stripped_event event).
Proof.
  unfold stripped_event. split.
  - eapply subseq_trans; [apply fold_remove_subseq|].
    eapply subseq_trans; apply replace_subseq.
  - intro Hin. eapply subseq_In in Hin; [|apply fold_remove_subseq].
    rewrite replace_char in Hin. apply filter_In in Hin as [_ Hin].
    rewrite N.eqb_refl in Hin. discriminate.
Qed.

(* =================================================================== *)
(** ** Further properties: what the splitter and the stripper write *)
(* =================================================================== *)

Lemma append_event_run (event dest_file : str) (w : world) :
  let w' := snd (append_event_to_file event dest_file w) in
  log w' = log w
  /\ forall q, files w' q
               = if str_eqb q dest_file
                 then Some (content_of (files w dest_file) ++ event ++ [newline])
                 else files w q.
Proof. split; reflexivity. Qed.

Lemma open_append_run (path : str) (w : world) :
  let w' := snd (open_append path w) in
  fst (open_append path w) = path
  /\ log w' = log w
  /\ forall q, files w' q
               = if str_eqb q path then Some (content_of (files w path)) else files w q.
Proof.
  unfold open_append. destruct (files w path) as [c|] eqn:E; cbn [fst snd];
    (split; [reflexivity|]); (split; [reflexivity|]); intro q;
    cbn [files content_of]; unfold set_file.
  - destruct (str_eqb q path) eqn:Eq; [|reflexivity].
    apply str_eqb_eq in Eq. now subst q.
  - reflexivity.
Qed.

Lemma healer_lines_cons (healer event : str) (rest : list str) :
  healer_lines healer (event :: rest)
  = match find_cds_for_healer (insert_space event) healer with
    | [] => []
    | (_ :: _) as ms => [header_text (insert_space event) ++ texts ms ++ [newline]]
    end ++ healer_lines healer rest.
Proof. unfold healer_lines. now rewrite !handle_data_format_bug_1_map. Qed.

Lemma healer_events_cons (healer event : str) (rest : list str) :
  healer_events healer (event :: rest)
  = match find_cds_for_healer (insert_space event) healer with
    | [] => healer_events healer rest
    | _ :: _ => insert_space event :: healer_events healer rest
    end.
Proof.
  unfold healer_events. rewrite !handle_data_format_bug_1_map. cbn [map filter].
  now destruct (find_cds_for_healer (insert_space event) healer).
Qed.

Lemma header_errors_logged (event : str) (w : world) :
  log (match re_match HEADER_REGEX event with
       | None => logged event w
       | Some _ => w
       end)
  = log w ++ map header_error (filter (fun e => negb (has_header e)) [event]).
Proof.
  cbn [filter]. unfold has_header.
  destruct (re_match HEADER_REGEX event); cbn [negb map logged log];
    [now rewrite app_nil_r | reflexivity].
Qed.

Lemma header_errors_files (event : str) (w : world) :
  files (match re_match HEADER_REGEX event with
         | None => logged event w
         | Some _ => w
         end)
  = files w.
Proof. now destruct (re_match HEADER_REGEX event). Qed.

(** What [do_split_healer_events] leaves in the files and in the log. *)
Lemma do_split_run (event_list : list str) (dest_file healer : str) :
  forall w,
    let w' := snd (do_split_healer_events event_list dest_file healer w) in
    (forall q, q <> dest_file -> files w' q = files w q)
    /\ files w' dest_file
       = match healer_lines healer event_list with
         | [] => files w dest_file
         | _ :: _ => Some (content_of (files w dest_file)
                           ++ concat (healer_lines healer event_list))
         end
    /\ log w'
       = log w ++ map header_error
                    (filter (fun e => negb (has_header e))
                       (healer_events healer event_list)).
Proof.
  induction event_list as [|event rest IH]; intro w; cbv zeta.
  - rewrite do_split_nil. cbn. rewrite app_nil_r. repeat split.
  - rewrite do_split_cons, healer_lines_cons, healer_events_cons.
    destruct (find_cds_for_healer (insert_space event) healer) as [|m ms] eqn:Ef.
    + apply IH.
    + rewrite find_header_run.
      set (w0 := match re_match HEADER_REGEX (insert_space event) with
                 | None => logged (insert_space event) w
                 | Some _ => w
                 end).
      set (line := header_text (insert_space event) ++ texts (m :: ms)).
      destruct (append_event_run line dest_file w0) as [L1 F1].
      destruct (IH (snd (append_event_to_file line dest_file w0))) as (F & C & L).
      cbv zeta in L1, F1, F, C, L.
      assert (Fw0 : files w0 = files w) by apply header_errors_files.
      split; [|split].
      * intros q Hq. rewrite (F q Hq), F1.
        apply str_eqb_neq in Hq. now rewrite Hq, Fw0.
      * rewrite C, F1, str_eqb_refl, Fw0. cbn [content_of app concat].
        subst line. destruct (healer_lines healer rest);
          cbn [concat]; rewrite <- ?app_assoc, ?app_nil_r; reflexivity.
      * rewrite L, L1. subst w0. rewrite header_errors_logged.
        cbn [filter]. rewrite <- app_assoc.
        destruct (negb (has_header (insert_space event))); reflexivity.
Qed.

Lemma other_lines_cons (event : str) (rest : list str) :
  other_lines (event :: rest)
  = (if non_empty (stripped_event (insert_space event))
     then [header_text (insert_space event) ++ stripped_event (insert_space event)
           ++ [newline]]
     else [])
    ++ other_lines rest.
Proof. unfold other_lines. now rewrite !handle_data_format_bug_1_map. Qed.

(** What [do_strip_healer_cds] leaves in the files and in the log. *)
Lemma do_strip_run (event_list : list str) (dest_file : str) :
  forall w,
    let w' := snd (do_strip_healer_cds event_list dest_file w) in
    (forall q, q <> dest_file -> files w' q = files w q)
    /\ files w' dest_file
       = match other_lines event_list with
         | [] => files w dest_file
         | _ :: _ => Some (content_of (files w dest_file)
                           ++ concat (other_lines event_list))
         end
    /\ log w'
       = log w ++ map header_error
                    (filter (fun e => negb (has_header e))
                       (handle_data_format_bug_1 event_list)).
Proof.
  induction event_list as [|event rest IH]; intro w; cbv zeta.
  - cbn. rewrite app_nil_r. repeat split.
  - rewrite do_strip_cons, other_lines_cons, find_header_run.
    fold (stripped_event (insert_space event)).
    set (w0 := match re_match HEADER_REGEX (insert_space event) with
               | None => logged (insert_space event) w
               | Some _ => w
               end).
    assert (Fw0 : files w0 = files w) by apply header_errors_files.
    assert (Lw0 : log w0 = log w ++ map header_error
                                      (filter (fun e => negb (has_header e))
                                         [insert_space event]))
      by apply header_errors_logged.
    assert (El : filter (fun e => negb (has_header e))
                   (handle_data_format_bug_1 (event :: rest))
                 = filter (fun e => negb (has_header e)) [insert_space event]
                   ++ filter (fun e => negb (has_header e))
                        (handle_data_format_bug_1 rest)).
    { rewrite !handle_data_format_bug_1_map. cbn [map filter].
      now destruct (negb (has_header (insert_space event))). }
    rewrite El, map_app. clear El. cbv zeta.
    destruct (non_empty (stripped_event (insert_space event))).
    + set (line := header_text (insert_space event) ++ stripped_event (insert_space event)).
      destruct (append_event_run line dest_file w0) as [L1 F1].
      destruct (IH (snd (append_event_to_file line dest_file w0))) as (F & C & L).
      cbv zeta in L1, F1, F, C, L.
      split; [|split].
      * intros q Hq. rewrite (F q Hq), F1.
        apply str_eqb_neq in Hq. now rewrite Hq, Fw0.
      * rewrite C, F1, str_eqb_refl, Fw0. cbn [content_of app concat].
        subst line. destruct (other_lines rest);
          cbn [concat]; rewrite <- ?app_assoc, ?app_nil_r; reflexivity.
      * rewrite L, L1, Lw0. now rewrite <- app_assoc.
    + destruct (IH w0) as (F & C & L). cbv zeta in F, C, L.
      rewrite Fw0 in F, C. cbn [app]. split; [exact F|]. split; [exact C|].
      rewrite L, Lw0. now rewrite <- app_assoc.
Qed.

(** X9: for a healer, the splitter adds to the destination, in the order
    of the lines, the header and the healer's tokens of every line that,
    once normalized, holds a token of the healer, each followed by a line
    feed; it creates no file when there is no such line, changes no other
    file, and it logs one error for every such line without header, and
    for no other line. *)
Theorem split_appends_healer_lines
  (event_list : list str) (dest_file healer : str) (w : world) :
  let w' := snd (do_split_healer_events event_list dest_file healer w) in
  (forall q, q <> dest_file -> files w' q = files w q)
  /\ files w' dest_file
     = match healer_lines healer event_list with
       | [] => files w dest_file
       | _ :: _ => Some (content_of (files w dest_file)
                         ++ concat (healer_lines healer event_list))
       end
  /\ log w'
     = log w ++ map header_error
                  (filter (fun e => negb (has_header e))
                     (healer_events healer event_list)).
Proof. apply do_split_run. Qed.

(** X10: the stripper adds to the destination one line for every line of
    which something is left: the header of the normalized line, then the
    line without its header, its line feeds and the tokens of the healers
    of the roster, then a line feed.  What is left of a line is the line
    with characters left out, and holds no line feed.  No other file
    changes, and one error is logged for every line without header,
    whether or not anything is written for it. *)
Theorem strip_appends_other_lines
  (event_list : list str) (dest_file : str) (w : world) :
  let w' := snd (do_strip_healer_cds event_list dest_file w) in
  (forall q, q <> dest_file -> files w' q = files w q)
  /\ files w' dest_file
     = match other_lines event_list with
       | [] => files w dest_file
       | _ :: _ => Some (content_of (files w dest_file)
                         ++ concat (other_lines event_list))
       end
  /\ log w'
     = log w ++ map header_error
                  (filter (fun e => negb (has_header e))
                     (handle_data_format_bug_1 event_list))
  /\ (forall event, subseq (stripped_event event) event
                    /\ existsb (N.eqb newline) (stripped_event event) = false).
Proof.
  cbv zeta. destruct (do_strip_run event_list dest_file w) as (F & C & L).
  repeat split; try assumption.
  - apply stripped_event_subseq.
  - apply not_true_is_false. intro Hex.
    apply existsb_exists in Hex as (c & Hc & Ec). apply N.eqb_eq in Ec. subst c.
    destruct (stripped_event_subseq event) as [_ Hn]. exact (Hn Hc).
Qed.

(* =================================================================== *)
(** ** Further properties: the files [main] writes *)
(* =================================================================== *)

Lemma basename_output (name : str) :
  basename (resolve (os_path_join PATH name)) = basename name.
Proof. unfold resolve. now rewrite !basename_join. Qed.

Lemma roster_paths_basenames :
  map basename roster_paths
  = map (fun healer => basename (healer ++ lit "-cds.txt")) HEALER_ROSTER.
Proof.
  unfold roster_paths. rewrite map_map. apply map_ext. intro healer.
  apply basename_output.
Qed.

Lemma cleared_paths_basenames :
  map basename cleared_paths
  = map (fun healer => basename (healer ++ lit "-cds.txt")) HEALER_ROSTER
    ++ [basename (lit "non-healer-cds.txt")].
Proof.
  unfold cleared_paths. rewrite map_app, map_map. cbn [map]. f_equal.
  - apply map_ext. intro healer. unfold resolve. apply basename_join.
  - f_equal. apply basename_output.
Qed.

Lemma output_paths_basenames :
  map basename output_paths
  = map (fun healer => basename (healer ++ lit "-cds.txt")) HEALER_ROSTER
    ++ [basename (lit "non-healer-cds.txt")]
    ++ map (fun healer => basename (healer ++ lit "-cds.txt")) HEALER_ROSTER
    ++ [basename (lit "non-healer-cds.txt"); basename (lit "encapsulapted-cds.txt")].
Proof.
  unfold output_paths. rewrite !map_app, cleared_paths_basenames, roster_paths_basenames.
  rewrite <- app_assoc. cbn [map]. unfold NON_HEALER_DEST, ENCAPSULATED_CD_DEST.
  now rewrite !basename_output.
Qed.

(** The source is none of the files the script writes. *)
Lemma source_not_output : ~ In (resolve SOURCE) output_paths.
Proof.
  intro H. apply (in_map basename) in H. rewrite output_paths_basenames in H.
  unfold SOURCE in H. rewrite basename_output in H.
  vm_compute in H. intuition discriminate.
Qed.

Lemma roster_paths_nodup : NoDup roster_paths.
Proof.
  apply (NoDup_map_inv basename). rewrite roster_paths_basenames.
  vm_compute. repeat (constructor; [cbn [In]; intuition discriminate|]). constructor.
Qed.

Lemma non_healer_not_roster_path : ~ In (resolve NON_HEALER_DEST) roster_paths.
Proof.
  intro H. apply (in_map basename) in H. rewrite roster_paths_basenames in H.
  unfold NON_HEALER_DEST in H. rewrite basename_output in H.
  vm_compute in H. intuition discriminate.
Qed.

Lemma encapsulated_not_roster_path : ~ In (resolve ENCAPSULATED_CD_DEST) roster_paths.
Proof.
  intro H. apply (in_map basename) in H. rewrite roster_paths_basenames in H.
  unfold ENCAPSULATED_CD_DEST in H. rewrite basename_output in H.
  vm_compute in H. intuition discriminate.
Qed.

Lemma encapsulated_not_non_healer :
  resolve ENCAPSULATED_CD_DEST <> resolve NON_HEALER_DEST.
Proof.
  intro H. apply (f_equal basename) in H.
  unfold ENCAPSULATED_CD_DEST, NON_HEALER_DEST in H. rewrite !basename_output in H.
  vm_compute in H. discriminate.
Qed.

Lemma roster_path_not_shared (healer : str) :
  In healer HEALER_ROSTER ->
  resolve (os_path_join PATH (healer ++ lit "-cds.txt")) <> resolve NON_HEALER_DEST
  /\ resolve (os_path_join PATH (healer ++ lit "-cds.txt"))
     <> resolve ENCAPSULATED_CD_DEST.
Proof.
  intro Hh.
  assert (Hin : In (resolve (os_path_join PATH (healer ++ lit "-cds.txt"))) roster_paths).
  { unfold roster_paths.
    apply (in_map (fun h => resolve (os_path_join PATH (h ++ lit "-cds.txt")))).
    exact Hh. }
  split; intro E; rewrite E in Hin.
  - now apply non_healer_not_roster_path.
  - now apply encapsulated_not_roster_path.
Qed.

(** What one turn of the loop of [split_healer_events] leaves. *)
Lemma split_one_run (cd_source : list str) (healer : str) (w : world) :
  let path := resolve (os_path_join PATH (healer ++ lit "-cds.txt")) in
  let w' := snd ((cd_dest <- open_append path ;;
                  do_split_healer_events cd_source cd_dest healer) w) in
  (forall q, q <> path -> files w' q = files w q)
  /\ files w' path
     = Some (content_of (files w path) ++ concat (healer_lines healer cd_source))
  /\ log w'
     = log w ++ map header_error
                  (filter (fun e => negb (has_header e))
                     (healer_events healer cd_source)).
Proof.
  cbv zeta. unfold bind.
  destruct (open_append_run
              (resolve (os_path_join PATH (healer ++ lit "-cds.txt"))) w)
    as (E1 & L1 & F1). cbv zeta in L1, F1.
  destruct (open_append (resolve (os_path_join PATH (healer ++ lit "-cds.txt"))) w)
    as [cd_dest w1]. cbn [fst snd] in E1, L1, F1. subst cd_dest.
  destruct (do_split_run cd_source
              (resolve (os_path_join PATH (healer ++ lit "-cds.txt"))) healer w1)
    as (F & C & L). cbv zeta in F, C, L.
  split; [|split].
  - intros q Hq. rewrite (F q Hq), F1. apply str_eqb_neq in Hq. now rewrite Hq.
  - rewrite C, F1, str_eqb_refl. cbn [content_of].
    destruct (healer_lines healer cd_source); [now rewrite app_nil_r | reflexivity].
  - now rewrite L, L1.
Qed.

(** What the loop of [split_healer_events] leaves, for healers whose
    files are distinct. *)
Lemma split_loop_run (cd_source : list str) (healers : list str) :
  NoDup (map (fun healer => resolve (os_path_join PATH (healer ++ lit "-cds.txt")))
           healers) ->
  forall w,
    let w' := snd (for_each healers (fun healer =>
                     cd_dest <- open_append
                                  (resolve (os_path_join PATH (healer ++ lit "-cds.txt"))) ;;
                     do_split_healer_events cd_source cd_dest healer) w) in
    (forall q,
        ~ In q (map (fun healer => resolve (os_path_join PATH (healer ++ lit "-cds.txt")))
                  healers) ->
        files w' q = files w q)
    /\ (forall healer, In healer healers ->
          files w' (resolve (os_path_join PATH (healer ++ lit "-cds.txt")))
          = Some (content_of
                    (files w (resolve (os_path_join PATH (healer ++ lit "-cds.txt"))))
                  ++ concat (healer_lines healer cd_source)))
    /\ log w'
       = log w ++ flat_map
                    (fun healer =>
                       map header_error
                         (filter (fun e => negb (has_header e))
                            (healer_events healer cd_source)))
                    healers.
Proof.
  induction healers as [|h healers IH]; intros Hnd w; cbv zeta.
  - cbn. rewrite app_nil_r. repeat split. intros healer [].
  - rewrite for_each_cons. cbn [map] in Hnd. inversion Hnd as [|? ? Hh Hnd']; subst.
    destruct (split_one_run cd_source h w) as (F1 & C1 & L1). cbv zeta in F1, C1, L1.
    destruct (IH Hnd' (snd ((cd_dest <- open_append
                                          (resolve (os_path_join PATH (h ++ lit "-cds.txt"))) ;;
                             do_split_healer_events cd_source cd_dest h) w)))
      as (F & C & L). cbv zeta in F, C, L.
    split; [|split].
    + intros q Hq. cbn [map In] in Hq. rewrite F by tauto. apply F1. intro E.
      apply Hq. left. symmetry. exact E.
    + intros healer [<-|Hin].
      * rewrite F by exact Hh. exact C1.
      * rewrite (C healer Hin). rewrite F1; [reflexivity|].
        intro E. apply Hh. rewrite <- E.
        apply (in_map (fun x => resolve (os_path_join PATH (x ++ lit "-cds.txt")))).
        exact Hin.
    + rewrite L, L1. cbn [flat_map]. now rewrite <- app_assoc.
Qed.

Lemma split_run (cd_source : list str) (w : world) :
  let w' := snd (split_healer_events cd_source w) in
  (forall q, ~ In q roster_paths -> files w' q = files w q)
  /\ (forall healer, In healer HEALER_ROSTER ->
        files w' (resolve (os_path_join PATH (healer ++ lit "-cds.txt")))
        = Some (content_of
                  (files w (resolve (os_path_join PATH (healer ++ lit "-cds.txt"))))
                ++ concat (healer_lines healer cd_source)))
  /\ log w'
     = log w ++ flat_map
                  (fun healer =>
                     map header_error
                       (filter (fun e => negb (has_header e))
                          (healer_events healer cd_source)))
                  HEALER_ROSTER.
Proof. apply split_loop_run. apply roster_paths_nodup. Qed.

Lemma strip_run (event_list : list str) (w : world) :
  let w' := snd (strip_healer_cds event_list w) in
  (forall q, q <> resolve NON_HEALER_DEST -> files w' q = files w q)
  /\ files w' (resolve NON_HEALER_DEST)
     = Some (content_of (files w (resolve NON_HEALER_DEST))
             ++ concat (other_lines event_list))
  /\ log w'
     = log w ++ map header_error
                  (filter (fun e => negb (has_header e))
                     (handle_data_format_bug_1 event_list)).
Proof.
  cbv zeta. unfold strip_healer_cds, bind.
  destruct (open_append_run (resolve NON_HEALER_DEST) w) as (E1 & L1 & F1).
  cbv zeta in L1, F1.
  destruct (open_append (resolve NON_HEALER_DEST) w) as [dest_file w1].
  cbn [fst snd] in E1, L1, F1. subst dest_file.
  destruct (do_strip_run event_list (resolve NON_HEALER_DEST) w1) as (F & C & L).
  cbv zeta in F, C, L.
  split; [|split].
  - intros q Hq. rewrite (F q Hq), F1. apply str_eqb_neq in Hq. now rewrite Hq.
  - rewrite C, F1, str_eqb_refl. cbn [content_of].
    destruct (other_lines event_list); [now rewrite app_nil_r | reflexivity].
  - now rewrite L, L1.
Qed.

Lemma logged_all_log (event_list : list str) (w : world) :
  log (logged_all event_list w)
  = log w ++ map header_error (filter (fun e => negb (has_header e)) event_list).
Proof.
  unfold logged_all. revert w; induction event_list as [|e l IH]; intro w.
  - cbn. now rewrite app_nil_r.
  - cbn [fold_left filter]. rewrite IH, header_errors_logged. cbn [filter].
    rewrite <- app_assoc.
    destruct (negb (has_header e)); reflexivity.
Qed.

(** The clearing with which [main] begins. *)
Lemma clear_outputs_run (w : world) :
  let w2 := snd (clear_file NON_HEALER_DEST
                   (snd (for_each HEALER_ROSTER
                           (fun healer => let file_name := healer ++ lit "-cds.txt" in
                                          clear_file file_name) w))) in
  log w2 = log w
  /\ forall q, files w2 q
               = if existsb (str_eqb q) cleared_paths
                 then cleared (files w q) else files w q.
Proof.
  cbv zeta.
  assert (E0 : forall l w0,
               for_each l (fun healer => clear_file (healer ++ lit "-cds.txt")) w0
               = for_each (map (fun healer => healer ++ lit "-cds.txt") l) clear_file w0).
  { induction l as [|h l IH]; intro w0; [reflexivity|].
    cbn [map]. rewrite !for_each_cons. apply IH. }
  rewrite E0.
  destruct (clear_files_run (map (fun healer => healer ++ lit "-cds.txt") HEALER_ROSTER) w)
    as [L1 F1].
  destruct (clear_file_run NON_HEALER_DEST
              (snd (for_each (map (fun healer => healer ++ lit "-cds.txt") HEALER_ROSTER)
                      clear_file w)))
    as [L2 F2].
  cbv zeta in L1, F1, L2, F2. split; [now rewrite L2|].
  intro q. rewrite F2, F1. unfold cleared_paths.
  rewrite existsb_app, !existsb_map_comp. cbn [existsb]. rewrite orb_false_r.
  match goal with
  | |- context [existsb ?f HEALER_ROSTER] => destruct (existsb f HEALER_ROSTER)
  end; destruct (str_eqb q (resolve NON_HEALER_DEST)); cbn [orb];
    try reflexivity; apply cleared_cleared.
Qed.

(** The steps of [main], one after the other. *)
Lemma main_run (w : world) :
  let w2 := snd (clear_file NON_HEALER_DEST
                   (snd (for_each HEALER_ROSTER
                           (fun healer => let file_name := healer ++ lit "-cds.txt" in
                                          clear_file file_name) w))) in
  main w
  = match files w2 (resolve SOURCE) with
    | None => (FileNotFoundError SOURCE, w2)
    | Some content =>
        let w4 := snd (strip_healer_cds (readlines content)
                         (snd (split_healer_events (readlines content) w2))) in
        let w5 := snd (clear_file ENCAPSULATED_CD_DEST w4) in
        match files w5 (resolve SOURCE) with
        | None => (FileNotFoundError SOURCE, w5)
        | Some content' =>
            (Returned, snd (encapsulate_cds (readlines content') NON_HEALER_CDS w5))
        end
    end.
Proof.
  cbv zeta. unfold main.
  destruct (for_each HEALER_ROSTER _ w) as [u1 w1]. cbn [snd].
  destruct (clear_file NON_HEALER_DEST w1) as [u2 w2]. cbn [snd].
  destruct (files w2 (resolve SOURCE)) as [content|]; [|reflexivity].
  destruct (split_healer_events (readlines content) w2) as [u3 w3]. cbn [snd].
  destruct (strip_healer_cds (readlines content) w3) as [u4 w4]. cbn [snd].
  destruct (clear_file ENCAPSULATED_CD_DEST w4) as [u5 w5]. cbn [snd].
  destruct (files w5 (resolve SOURCE)) as [content'|]; [|reflexivity].
  now destruct (encapsulate_cds (readlines content') NON_HEALER_CDS w5).
Qed.

Lemma not_in_existsb (q : str) (paths : list str) :
  ~ In q paths -> existsb (str_eqb q) paths = false.
Proof.
  intro H. apply not_true_is_false. intro E.
  apply existsb_exists in E as (p & Hp & Ep). apply str_eqb_eq in Ep. now subst p.
Qed.

Lemma in_existsb (q : str) (paths : list str) :
  In q paths -> existsb (str_eqb q) paths = true.
Proof. intro H. apply existsb_exists. exists q. split; [exact H | apply str_eqb_refl]. Qed.

Lemma content_of_cleared (file : option str) : content_of (cleared file) = [].
Proof. now destruct file. Qed.

Lemma output_paths_parts (q : str) :
  ~ In q output_paths ->
  ~ In q cleared_paths /\ ~ In q roster_paths
  /\ q <> resolve NON_HEALER_DEST /\ q <> resolve ENCAPSULATED_CD_DEST.
Proof.
  unfold output_paths. intro H. rewrite !in_app_iff in H. cbn [In] in H.
  repeat split; intro E; apply H; subst; tauto.
Qed.

(** The state [main] leaves when the source is there, file by file. *)
Lemma main_steps (w : world) (content : str) :
  files w (resolve SOURCE) = Some content ->
  let event_list := readlines content in
  let w' := snd (main w) in
  fst (main w) = Returned
  /\ files w' (resolve ENCAPSULATED_CD_DEST)
     = Some (export_text NON_HEALER_CDS event_list)
  /\ files w' (resolve NON_HEALER_DEST) = Some (concat (other_lines event_list))
  /\ (forall healer, In healer HEALER_ROSTER ->
        files w' (resolve (os_path_join PATH (healer ++ lit "-cds.txt")))
        = Some ((if existsb
                      (str_eqb (resolve (os_path_join PATH (healer ++ lit "-cds.txt"))))
                      cleared_paths
                 then []
                 else content_of
                        (files w (resolve (os_path_join PATH (healer ++ lit "-cds.txt")))))
                ++ concat (healer_lines healer event_list)))
  /\ (forall q, ~ In q output_paths -> files w' q = files w q)
  /\ log w'
     = log w
       ++ flat_map
            (fun healer =>
               map header_error
                 (filter (fun e => negb (has_header e)) (healer_events healer event_list)))
            HEALER_ROSTER
       ++ map header_error
            (filter (fun e => negb (has_header e)) (handle_data_format_bug_1 event_list))
       ++ map header_error (filter (fun e => negb (has_header e)) event_list).
Proof.
  intro Hsrc. cbv zeta.
  destruct (output_paths_parts source_not_output) as (Sc & Sr & Sn & Se).
  destruct (clear_outputs_run w) as [L2 F2]. cbv zeta in L2, F2.
  rewrite main_run. cbv zeta.
  set (w2 := snd (clear_file NON_HEALER_DEST _)) in *.
  assert (S2 : files w2 (resolve SOURCE) = Some content).
  { rewrite F2, not_in_existsb by exact Sc. exact Hsrc. }
  rewrite S2.
  destruct (split_run (readlines content) w2) as (F3 & C3 & L3). cbv zeta in F3, C3, L3.
  set (w3 := snd (split_healer_events (readlines content) w2)) in *.
  destruct (strip_run (readlines content) w3) as (F4 & C4 & L4). cbv zeta in F4, C4, L4.
  set (w4 := snd (strip_healer_cds (readlines content) w3)) in *.
  destruct (clear_file_run ENCAPSULATED_CD_DEST w4) as [L5 F5]. cbv zeta in L5, F5.
  set (w5 := snd (clear_file ENCAPSULATED_CD_DEST w4)) in *.
  assert (S5 : files w5 (resolve SOURCE) = Some content).
  { rewrite F5. apply str_eqb_neq in Se. rewrite Se.
    rewrite F4 by exact Sn. rewrite F3 by exact Sr. exact S2. }
  rewrite S5. cbn [fst snd].
  destruct (encapsulate_cds_run (readlines content) NON_HEALER_CDS w5) as (C6 & L6 & F6).
  cbv zeta in C6, L6, F6.
  set (w6 := snd (encapsulate_cds (readlines content) NON_HEALER_CDS w5)) in *.
  split; [reflexivity|]. split; [|split; [|split; [|split]]].
  - rewrite C6, F5, str_eqb_refl.
    now destruct (files w4 (resolve ENCAPSULATED_CD_DEST)).
  - rewrite F6 by (intro E; symmetry in E; now apply encapsulated_not_non_healer).
    rewrite F5.
    assert (E : str_eqb (resolve NON_HEALER_DEST) (resolve ENCAPSULATED_CD_DEST) = false).
    { apply str_eqb_neq. intro E. symmetry in E. now apply encapsulated_not_non_healer. }
    rewrite E, C4. rewrite F3 by apply non_healer_not_roster_path.
    rewrite F2, in_existsb.
    + now rewrite content_of_cleared.
    + unfold cleared_paths. apply in_or_app. right. now left.
  - intros healer Hh. destruct (roster_path_not_shared Hh) as [Hn He].
    rewrite F6 by exact He. rewrite F5. apply str_eqb_neq in He. rewrite He.
    rewrite F4 by exact Hn. rewrite (C3 healer Hh), F2.
    destruct (existsb _ cleared_paths); [now rewrite content_of_cleared | reflexivity].
  - intros q Hq. destruct (output_paths_parts Hq) as (Qc & Qr & Qn & Qe).
    rewrite F6 by exact Qe. rewrite F5. apply str_eqb_neq in Qe. rewrite Qe.
    rewrite F4 by exact Qn. rewrite F3 by exact Qr.
    rewrite F2, not_in_existsb by exact Qc. reflexivity.
  - rewrite L6, logged_all_log, L5, L4, L3, L2. now rewrite <- !app_assoc.
Qed.

Lemma nodup_map_inj (A B : Type) (f : A -> B) (l : list A) :
  NoDup (map f l) ->
  forall x y, In x l -> In y l -> f x = f y -> x = y.
Proof.
  induction l as [|a l IH]; intros Hnd x y Hx Hy E; [destruct Hx|].
  cbn [map] in Hnd. inversion Hnd as [|? ? Ha Hnd']; subst.
  destruct Hx as [->|Hx], Hy as [->|Hy].
  - reflexivity.
  - exfalso. apply Ha. rewrite E. now apply in_map.
  - exfalso. apply Ha. rewrite <- E. now apply in_map.
  - now apply IH.
Qed.

Lemma roster_file_names_nodup :
  NoDup (map (fun healer => basename (healer ++ lit "-cds.txt")) HEALER_ROSTER).
Proof.
  vm_compute. repeat (constructor; [cbn [In]; intuition discriminate|]). constructor.
Qed.

(** The file of a healer is among the files [main] clears exactly when
    its name, taken from the working directory, is the file itself. *)
Lemma roster_path_cleared (healer : str) :
  In healer HEALER_ROSTER ->
  existsb (str_eqb (resolve (os_path_join PATH (healer ++ lit "-cds.txt")))) cleared_paths
  = str_eqb (resolve (os_path_join PATH (healer ++ lit "-cds.txt")))
      (resolve (healer ++ lit "-cds.txt")).
Proof.
  intro Hh.
  destruct (str_eqb (resolve (os_path_join PATH (healer ++ lit "-cds.txt")))
              (resolve (healer ++ lit "-cds.txt"))) eqn:E.
  - apply str_eqb_eq in E. rewrite E. apply in_existsb. unfold cleared_paths.
    apply in_or_app. left.
    apply (in_map (fun h => resolve (h ++ lit "-cds.txt"))). exact Hh.
  - apply not_in_existsb. intro Hin. apply str_eqb_neq in E. apply E.
    unfold cleared_paths in Hin. apply in_app_or in Hin as [Hin|[Hin|[]]].
    + apply in_map_iff in Hin as (h & Eh & Hin).
      assert (Eb : basename (h ++ lit "-cds.txt") = basename (healer ++ lit "-cds.txt")).
      { rewrite <- (basename_output (healer ++ lit "-cds.txt")), <- Eh.
        unfold resolve. now rewrite basename_join. }
      assert (h = healer) as ->; [|now symmetry].
      apply nodup_map_inj
        with (f := fun x => basename (x ++ lit "-cds.txt")) (l := HEALER_ROSTER);
        [apply roster_file_names_nodup | assumption..].
    + exfalso. destruct (roster_path_not_shared Hh) as [Hn _]. now apply Hn.
Qed.

(** X12: when the source is there, the file of a healer of the roster, in
    the directory of the script, ends with the lines of the healer: the
    header and the healer's tokens of every line with such a token.  The
    file is emptied first only when the healer's file name, taken from the
    working directory, is that file; run from another directory, the
    script leaves what the file held in front of the new lines. *)
Theorem main_healer_file (w : world) (content healer : str) :
  files w (resolve SOURCE) = Some content ->
  In healer HEALER_ROSTER ->
  files (snd (main w)) (resolve (os_path_join PATH (healer ++ lit "-cds.txt")))
  = Some ((if str_eqb (resolve (os_path_join PATH (healer ++ lit "-cds.txt")))
                (resolve (healer ++ lit "-cds.txt"))
           then []
           else content_of
                  (files w (resolve (os_path_join PATH (healer ++ lit "-cds.txt")))))
          ++ concat (healer_lines healer (readlines content))).
Proof.
  intros Hsrc Hh.
  destruct (main_steps w Hsrc) as (_ & _ & _ & H & _). cbv zeta in H.
  rewrite (H healer Hh). now rewrite roster_path_cleared.
Qed.

Lemma main_frame (w : world) (q : str) :
  ~ In q output_paths -> files (snd (main w)) q = files w q.
Proof.
  intro Hq. destruct (output_paths_parts Hq) as (Qc & Qr & Qn & Qe).
  destruct (clear_outputs_run w) as [_ F2]. cbv zeta in F2.
  rewrite main_run. cbv zeta.
  set (w2 := snd (clear_file NON_HEALER_DEST _)) in *.
  assert (E2 : files w2 q = files w q).
  { rewrite F2, not_in_existsb by exact Qc. reflexivity. }
  destruct (files w2 (resolve SOURCE)) as [content|]; [|exact E2].
  destruct (split_run (readlines content) w2) as (F3 & _). cbv zeta in F3.
  set (w3 := snd (split_healer_events (readlines content) w2)) in *.
  destruct (strip_run (readlines content) w3) as (F4 & _). cbv zeta in F4.
  set (w4 := snd (strip_healer_cds (readlines content) w3)) in *.
  destruct (clear_file_run ENCAPSULATED_CD_DEST w4) as [_ F5]. cbv zeta in F5.
  set (w5 := snd (clear_file ENCAPSULATED_CD_DEST w4)) in *.
  assert (E5 : files w5 q = files w q).
  { rewrite F5. apply str_eqb_neq in Qe. rewrite Qe.
    rewrite F4 by exact Qn. rewrite F3 by exact Qr. exact E2. }
  destruct (files w5 (resolve SOURCE)) as [content'|]; [|exact E5].
  cbn [snd].
  destruct (encapsulate_cds_run (readlines content') NON_HEALER_CDS w5) as (_ & _ & F6).
  cbv zeta in F6. rewrite F6 by exact Qe. exact E5.
Qed.

(** X13: [main] changes no file but the ones it opens for writing: the
    files of the healers, under the working directory and in the directory
    of the script, the file of the other raiders and the encapsulated
    file.  The source is none of them: it is never created, emptied or
    written, whether or not the run fails. *)
Theorem main_writes_only_outputs :
  writes_only output_paths main
  /\ forall w, files (snd (main w)) (resolve SOURCE) = files w (resolve SOURCE).
Proof.
  split.
  - intros w q. apply main_frame.
  - intro w. apply main_frame. apply source_not_output.
Qed.

(** X14: when the source is there, [main] logs the missing header of a line
    once for every healer of the roster with a token in the normalized
    line, in the order of the roster, then once for the stripper, then once
    for the encapsulator, which reads the line as it is in the source; it
    logs nothing else. *)
Theorem main_logs_missing_headers (w : world) (content : str) :
  files w (resolve SOURCE) = Some content ->
  log (snd (main w))
  = log w
    ++ flat_map
         (fun healer =>
            map header_error
              (filter (fun e => negb (has_header e))
                 (healer_events healer (readlines content))))
         HEALER_ROSTER
    ++ map header_error
         (filter (fun e => negb (has_header e))
            (handle_data_format_bug_1 (readlines content)))
    ++ map header_error (filter (fun e => negb (has_header e)) (readlines content)).
Proof.
  intro Hsrc. now destruct (main_steps w Hsrc) as (_ & _ & _ & _ & _ & L).
Qed.

(* =================================================================== *)
(** ** Further properties: the writers add, and the empty source *)
(* =================================================================== *)

Lemma appends_nothing (c : str) : exists added, Some c = Some (c ++ added).
Proof. exists []. now rewrite app_nil_r. Qed.

(** X15: the splitter, the stripper and the encapsulator open their files
    for appending: whatever a file holds before one of them runs is still
    there afterwards, at the start of what the file holds; none of them
    empties or shortens a file.  Only the clearing in [main] does. *)
Theorem writers_only_append (event_list : list str) (vis : RaidLeadVisibility) :
  appends_only (split_healer_events event_list)
  /\ appends_only (strip_healer_cds event_list)
  /\ appends_only (encapsulate_cds event_list vis).
Proof.
  split; [|split]; intros w q c Hq.
  - destruct (split_run event_list w) as (F & C & _). cbv zeta in F, C.
    destruct (in_dec str_dec q roster_paths) as [Hin|Hn].
    + unfold roster_paths in Hin. apply in_map_iff in Hin as (healer & <- & Hh).
      rewrite (C healer Hh), Hq. cbn [content_of]. eexists. reflexivity.
    + rewrite (F q Hn), Hq. apply appends_nothing.
  - destruct (strip_run event_list w) as (F & C & _). cbv zeta in F, C.
    destruct (str_dec q (resolve NON_HEALER_DEST)) as [->|Hn].
    + rewrite C, Hq. cbn [content_of]. eexists. reflexivity.
    + rewrite (F q Hn), Hq. apply appends_nothing.
  - destruct (encapsulate_cds_run event_list vis w) as (C & _ & F). cbv zeta in F, C.
    destruct (str_dec q (resolve ENCAPSULATED_CD_DEST)) as [->|Hn].
    + rewrite C, Hq. eexists. reflexivity.
    + rewrite (F q Hn), Hq. apply appends_nothing.
Qed.

Lemma flat_map_nothing (A B : Type) (l : list A) :
  flat_map (fun _ : A => @nil B) l = [].
Proof. induction l as [|a l IH]; [reflexivity | exact IH]. Qed.

(** X16: on an empty source [main] returns and logs nothing; the
    encapsulated file then holds one line feed and nothing else, the file
    of the other raiders is there and empty, and the file of every healer
    of the roster is there. *)
Theorem main_on_empty_source (w : world) :
  files w (resolve SOURCE) = Some [] ->
  fst (main w) = Returned
  /\ files (snd (main w)) (resolve ENCAPSULATED_CD_DEST) = Some [newline]
  /\ files (snd (main w)) (resolve NON_HEALER_DEST) = Some []
  /\ (forall healer, In healer HEALER_ROSTER ->
        files (snd (main w)) (resolve (os_path_join PATH (healer ++ lit "-cds.txt")))
        <> None)
  /\ log (snd (main w)) = log w.
Proof.
  intro Hsrc. destruct (main_steps w Hsrc) as (R & E & N & H & _ & L).
  cbv zeta in E, N, H, L. change (readlines []) with (@nil str) in E, N, H, L.
  split; [exact R|]. split; [exact E|]. split; [exact N|]. split.
  - intros healer Hh. rewrite (H healer Hh). discriminate.
  - rewrite L. unfold healer_events. rewrite handle_data_format_bug_1_map.
    cbn [map filter]. rewrite flat_map_nothing. now rewrite !app_nil_r.
Qed.

(* =================================================================== *)
(** ** Further properties: the lines without header *)
(* =================================================================== *)

(** X17: [find_header] logs its error and returns the placeholder exactly
    on the lines that have no prefix made of text, a hyphen, text, a hyphen
    and a white-space character, with no line feed in the two texts.  On
    every other line it logs nothing and returns at least three
    characters, so the placeholder is never mistaken for a header. *)
Theorem header_missing_iff (event : str) (w : world) :
  (find_header event w = (lit " ", logged event w)
   <-> ~ exists a b d rest,
           event = (a ++ [chr "-"] ++ b ++ [chr "-"; d]) ++ rest
           /\ ~ In newline a /\ ~ In newline b /\ is_space d = true)
  /\ (find_header event w = (lit " ", logged event w)
      \/ snd (find_header event w) = w /\ 3 <= length (fst (find_header event w))).
Proof.
  rewrite find_header_run. unfold header_text.
  destruct (re_match HEADER_REGEX event) as [m|] eqn:Hm.
  - destruct (header_match_greedy _ Hm)
      as (title & time & c & rest & Em & Ee & Ht & Htime & Hc & _).
    assert (L : 3 <= length (m_text m)).
    { rewrite Em, !length_app. simpl. lia. }
    split; [split|].
    + intro E. injection E as E _. rewrite E in L. simpl in L. lia.
    + intro Hn. exfalso. apply Hn. exists title, time, c, rest. rewrite <- Em.
      split; [exact Ee|]. split; [now apply is_dot_all|]. split; [now apply is_dot_all|].
      exact Hc.
    + right. split; [reflexivity | exact L].
  - split; [split|].
    + intros _ (a & b & d & rest & E & Ha & Hb & Hd). apply is_dot_all in Ha, Hb.
      apply (header_match_exists a b rest d Ha Hb Hd). rewrite <- E. exact Hm.
    + reflexivity.
    + left. reflexivity.
Qed.
End Script.

(* ===================================================================== *)
(** ** Two runs of the script *)
(* ===================================================================== *)

(** X11: when the source is there, [main] returns and leaves the source as
    it was; the encapsulated file and the file of the other raiders are
    built anew from the source: whatever they held before, they hold the
    export of the lines of the source under the policy [NON_HEALER_CDS],
    its sets listed in the order of the run, and the lines the stripper
    keeps.  A second run, which lists its sets in an order of its own,
    returns as well; it leaves the file of the other raiders as it is and
    builds the export again, in its own order. *)
Theorem main_rebuilds_shared_outputs
  (unicode_isalnum : char -> bool) (PATH cwd : str) (o1 o2 : SetOrder)
  (w : world) (content : str) :
  files w (resolve cwd (SOURCE PATH)) = Some content ->
  let run1 := main unicode_isalnum PATH cwd o1 w in
  let run2 := main unicode_isalnum PATH cwd o2 (snd run1) in
  fst run1 = Returned
  /\ fst run2 = Returned
  /\ files (snd run1) (resolve cwd (SOURCE PATH)) = Some content
  /\ files (snd run1) (resolve cwd (ENCAPSULATED_CD_DEST PATH))
     = Some (export_text unicode_isalnum o1 NON_HEALER_CDS (readlines content))
  /\ files (snd run1) (resolve cwd (NON_HEALER_DEST PATH))
     = Some (concat (other_lines unicode_isalnum (readlines content)))
  /\ files (snd run2) (resolve cwd (ENCAPSULATED_CD_DEST PATH))
     = Some (export_text unicode_isalnum o2 NON_HEALER_CDS (readlines content))
  /\ files (snd run2) (resolve cwd (NON_HEALER_DEST PATH))
     = files (snd run1) (resolve cwd (NON_HEALER_DEST PATH)).
Proof.
  intros Hsrc run1 run2. subst run1 run2.
  destruct (main_steps unicode_isalnum PATH cwd o1 w Hsrc) as (R & E & N & _ & F & _).
  cbv zeta in E, N, F.
  assert (S' : files (snd (main unicode_isalnum PATH cwd o1 w)) (resolve cwd (SOURCE PATH))
               = Some content).
  { rewrite F by apply source_not_output. exact Hsrc. }
  destruct (main_steps unicode_isalnum PATH cwd o2 _ S') as (R' & E' & N' & _).
  cbv zeta in E', N'.
  repeat split; try assumption. congruence.
Qed.

(* ===================================================================== *)
(** ** Two runs of the encapsulator *)
(* ===================================================================== *)

Lemma set_orders_permutation (o1 o2 : SetOrder) (l : list str) :
  Permutation (set_to_list o1 l) (set_to_list o2 l).
Proof.
  apply NoDup_Permutation; try apply set_to_list_nodup.
  intro x. now rewrite !set_to_list_elems.
Qed.

(** C7, amended: two runs of the encapsulator over the same lines, roster
    and policy write the same events with the same headers and the same
    tags around the tokens, names in the same order; the viewers of a
    header are the same names in both runs, in the order in which each run
    lists a set. *)
Theorem C7_same_up_to_header_viewer_order
  (unicode_isalnum : char -> bool) (PATH cwd : str) (o1 o2 : SetOrder)
  (event_list : list str) (vis : RaidLeadVisibility) (w : world) :
  let parts := flat_map (event_parts unicode_isalnum vis) event_list in
  let dest := resolve cwd (ENCAPSULATED_CD_DEST PATH) in
  let old := match files w dest with Some c => c | None => [] end in
  let w1 := snd (encapsulate_cds unicode_isalnum PATH cwd o1 event_list vis w) in
  let w2 := snd (encapsulate_cds unicode_isalnum PATH cwd o2 event_list vis w) in
  files w1 dest = Some (old ++ concat (map (render o1) parts) ++ [newline])
  /\ files w2 dest = Some (old ++ concat (map (render o2) parts) ++ [newline])
  /\ Forall (fun part =>
               Permutation (set_to_list o1 (fst (fst part)))
                           (set_to_list o2 (fst (fst part)))) parts
  /\ log w1 = log w2
  /\ (forall q, q <> dest -> files w1 q = files w2 q).
Proof.
  cbv zeta.
  destruct (encapsulate_cds_run unicode_isalnum PATH cwd o1 event_list vis w)
    as (F1 & L1 & R1).
  destruct (encapsulate_cds_run unicode_isalnum PATH cwd o2 event_list vis w)
    as (F2 & L2 & R2).
  repeat split.
  - exact F1.
  - exact F2.
  - apply Forall_forall. intros part _. apply set_orders_permutation.
  - now rewrite L1, L2.
  - intros q Hq. now rewrite R1, R2.
Qed.

(* ===================================================================== *)
(** ** The matcher and the script at concrete lines *)
(* ===================================================================== *)

Example header_takes_last_hyphen_pair :
  header_text (lit "A - 1 - x - y - z") = lit "A - 1 - x - y - ".
Proof. reflexivity. Qed.

Example header_of_dynamic_timer :
  header_text
    (lit "{time:00:30} |cffff0000Boss|r - 00:30 - |cfff38bb9Runnz|r  {spell:111}  ")
  = lit "{time:00:30} |cffff0000Boss|r - 00:30 - ".
Proof. reflexivity. Qed.

Example colour_digits_take_name_letters :
  map m_groups
    (finditer (RAID_CD_REGEX latin1_isalnum) (lit "|cf38bb9Delvur|r {spell:1}  "))
  = [[lit "lvur"; lit " {spell:1}  "]].
Proof. reflexivity. Qed.

Example accented_name_is_matched :
  map group0
    (finditer (RAID_CD_REGEX latin1_isalnum)
       (lit "|cfff38bb9H" ++ [244%N] ++ lit "steric|r{spell:31821}  "))
  = [lit "H" ++ [244%N] ++ lit "steric"].
Proof. reflexivity. Qed.

Example normalizer_inserts_space :
  handle_data_format_bug_1 [lit "x|r{spell:99} |r {y}"] = [lit "x|r {spell:99} |r {y}"].
Proof. reflexivity. Qed.

Example replace_does_not_overlap : replace (lit "aa") (lit "b") (lit "aaaaa") = lit "bba".
Proof. reflexivity. Qed.



(** The token of Bob, who is not in the roster, is found by the matcher
    and collected for no healer of the roster: after the splitter has run
    over the line, the file of Runnz holds the token of Runnz and the
    files of the other healers are empty. *)
Lemma C8_counterexample :
  let w' := snd (split_healer_events latin1_isalnum (lit "/raid") (lit "/raid")
                   [line_runnz_bob] empty_world) in
  In (m_text bob_token)
    (map m_text (finditer (RAID_CD_REGEX latin1_isalnum) line_runnz_bob))
  /\ ~ (exists healer,
           In healer HEALER_ROSTER
           /\ In (m_text bob_token)
                (map m_text (find_cds_for_healer latin1_isalnum line_runnz_bob healer)))
  /\ map (fun healer => files w' (lit "/raid/" ++ healer ++ lit "-cds.txt")) HEALER_ROSTER
     = [Some []; Some []; Some []; Some [];
        Some (lit "EventA - 00:30 - |cfff38bb9Runnz|r  {spell:111}  " ++ [newline]);
        Some []; Some []].
Proof.
  cbv zeta. split; [|split].
  - vm_compute. tauto.
  - intros (healer & Hh & Hin). unfold HEALER_ROSTER in Hh. cbn [In] in Hh.
    repeat (destruct Hh as [<-|Hh]; [vm_compute in Hin; intuition discriminate|]).
    exact Hh.
  - vm_compute. reflexivity.
Qed.

(** Three lines on which the stripper does not leave exactly the tokens of
    the other raiders: a line whose header, everything up to its second
    hyphen, holds a roster token, which is written back with the header; a
    line without header, whose spaces all go with the placeholder; a line
    where removing a roster token makes a new one. *)
Lemma C2_counterexample :
  let emitted line :=
    files (snd (do_strip_healer_cds latin1_isalnum [line] (lit "out") empty_world))
      (lit "out") in
  let tokens s := map m_text (finditer (RAID_CD_REGEX latin1_isalnum) s) in
  (fst (find_header line_roster_token_in_header empty_world)
   = lit "|cfff38bb9Pv|r {spell:1}  - 00:30 - "
   /\ emitted line_roster_token_in_header
      = Some (line_roster_token_in_header ++ [newline])
   /\ tokens line_roster_token_in_header
      = [lit "|cfff38bb9Pv|r {spell:1}  "; lit "|cfff38bb9Bob|r {spell:2}  "]
   /\ in_roster (lit "Pv") = true)
  /\ (emitted line_no_header = Some (lit " |cfff38bb9Bob|r{spell:1}" ++ [newline])
      /\ tokens line_no_header = [lit "|cfff38bb9Bob|r {spell:1}  "]
      /\ tokens (lit " |cfff38bb9Bob|r{spell:1}") = [])
  /\ (emitted line_token_made_by_removal
      = Some (lit "A - 1 - |c000000Pv|r {spell:2}  " ++ [newline])
      /\ tokens (lit "A - 1 - |c000000Pv|r {spell:2}  ")
         = [lit "|c000000Pv|r {spell:2}  "]).
Proof. vm_compute. repeat split. Qed.

Lemma C2_strip_keeps_other_tokens_witness :
  files (snd (do_strip_healer_cds latin1_isalnum [line_runnz_bob ++ [newline]]
                (lit "non-healer-cds.txt") empty_world))
    (lit "non-healer-cds.txt")
  = Some (lit "EventA - 00:30 - |c00ff0000Bob|r {spell:222}  " ++ [newline]).
Proof.
  pose proof (@C2_strip_keeps_other_tokens latin1_isalnum
                (line_runnz_bob ++ [newline]) [] (lit "non-healer-cds.txt")
                empty_world
                {| m_text := lit "EventA - 00:30 - "; m_groups := [] |}
                [runnz_token; bob_token] [newline]) as H.
  cbv zeta in H.
  destruct H as (_ & H & _).
  - vm_compute. reflexivity.
  - vm_compute. reflexivity.
  - vm_compute. reflexivity.
  - repeat constructor; try (vm_compute; reflexivity);
      vm_compute; intuition discriminate.
  - right. reflexivity.
  - apply (f_equal (fun p => files (snd p) (lit "non-healer-cds.txt"))) in H.
    etransitivity; [exact H|]. vm_compute. reflexivity.
Defined.

Lemma C3_header_viewers_witness :
  fst (encapsulate_event latin1_isalnum forward_order NON_HEALER_CDS
         line_runnz_bob empty_world)
  = lit "{p:Runnz,Bob,Slickduck}EventA - 00:30 - {/p}"
    ++ lit "{p:Runnz}|cfff38bb9Runnz|r  {spell:111}  {/p}"
    ++ lit "{p:Slickduck,Bob}|c00ff0000Bob|r {spell:222}  {/p}" ++ [newline].
Proof.
  pose proof (@C3_header_viewers latin1_isalnum forward_order line_runnz_bob
                NON_HEALER_CDS empty_world) as H.
  cbv zeta in H.
  destruct H as (H & _); [vm_compute; discriminate|].
  rewrite H. vm_compute. reflexivity.
Defined.


(** With the source missing and an old non-roster file in place, the run
    fails and the old file is empty afterwards. *)
Lemma C6_counterexample :
  let w := world_with (lit "/raid/non-healer-cds.txt") (lit "EventA - 00:30 - ") in
  let run := main latin1_isalnum (lit "/raid") (lit "/raid") forward_order w in
  files w (lit "/raid/soulrender-cds.txt") = None
  /\ fst run = FileNotFoundError (lit "/raid/soulrender-cds.txt")
  /\ files w (lit "/raid/non-healer-cds.txt") = Some (lit "EventA - 00:30 - ")
  /\ files (snd run) (lit "/raid/non-healer-cds.txt") = Some [].
Proof. vm_compute. repeat split. Qed.

Lemma C6_missing_source_after_clearing_witness :
  fst (main latin1_isalnum (lit "/raid") (lit "/raid") forward_order
         (world_with (lit "/raid/non-healer-cds.txt") (lit "EventA - 00:30 - ")))
  = FileNotFoundError (lit "/raid/soulrender-cds.txt").
Proof.
  destruct (@C6_missing_source_after_clearing latin1_isalnum (lit "/raid")
              (lit "/raid") forward_order
              (world_with (lit "/raid/non-healer-cds.txt") (lit "EventA - 00:30 - ")))
    as (H & _).
  - vm_compute. reflexivity.
  - rewrite H. vm_compute. reflexivity.
Defined.

(** Two runs that list the set of a header's viewers in different orders
    write different exports. *)
Lemma C7_counterexample :
  let export o :=
    files (snd (encapsulate_cds latin1_isalnum (lit "/raid") (lit "/raid") o
                  [line_runnz_bob] NON_HEALER_CDS empty_world))
      (lit "/raid/encapsulapted-cds.txt") in
  export forward_order
  = Some (lit "{p:Runnz,Bob,Slickduck}EventA - 00:30 - {/p}"
          ++ lit "{p:Runnz}|cfff38bb9Runnz|r  {spell:111}  {/p}"
          ++ lit "{p:Slickduck,Bob}|c00ff0000Bob|r {spell:222}  {/p}"
          ++ [newline; newline])
  /\ export backward_order
     = Some (lit "{p:Slickduck,Bob,Runnz}EventA - 00:30 - {/p}"
             ++ lit "{p:Runnz}|cfff38bb9Runnz|r  {spell:111}  {/p}"
             ++ lit "{p:Slickduck,Bob}|c00ff0000Bob|r {spell:222}  {/p}"
             ++ [newline; newline])
  /\ export forward_order <> export backward_order.
Proof. vm_compute. repeat split. discriminate. Qed.

(** A line whose hyphens come after a token: the header is the whole line
    and holds the token. *)
Lemma C10_counterexample :
  fst (find_header line_token_in_header empty_world) = line_token_in_header
  /\ map m_text
       (finditer (RAID_CD_REGEX latin1_isalnum)
          (fst (find_header line_token_in_header empty_world)))
     = [lit "|cfff38bb9Runnz|r {spell:1}  "].
Proof. vm_compute. split; reflexivity. Qed.

Lemma C10_header_holds_no_token_witness :
  finditer (RAID_CD_REGEX latin1_isalnum)
    (fst (find_header line_runnz_bob empty_world)) = [].
Proof.
  apply (@C10_header_holds_no_token latin1_isalnum line_runnz_bob empty_world).
  vm_compute. reflexivity.
Defined.

(* ===================================================================== *)
(** ** The further properties at concrete lines and files *)
(* ===================================================================== *)

Lemma header_is_longest_prefix_witness :
  exists title time c rest',
    find_header (lit "A - 1 - x - y - z") empty_world
    = (title ++ [chr "-"] ++ time ++ [chr "-"; c], empty_world)
    /\ lit "A - 1 - x - y - z" = (title ++ [chr "-"] ++ time ++ [chr "-"; c]) ++ rest'
    /\ ~ In newline title /\ ~ In newline time /\ ~ In (chr "-") time
    /\ is_space c = true
    /\ length (lit "A " ++ [chr "-"] ++ lit " 1 " ++ [chr "-"; chr " "])
       <= length (title ++ [chr "-"] ++ time ++ [chr "-"; c]).
Proof.
  apply (@header_is_longest_prefix latin1_isalnum (lit "A - 1 - x - y - z")
           (lit "A ") (lit " 1 ") (lit "x - y - z") (chr " ") empty_world).
  - reflexivity.
  - vm_compute. intuition discriminate.
  - vm_compute. intuition discriminate.
  - reflexivity.
Defined.

Lemma healer_match_parts_witness :
  exists before after colour spaces digits s1 s2,
    line_runnz_bob = before ++ m_text runnz_token ++ after
    /\ m_text runnz_token
       = lit "|c" ++ colour ++ lit "Runnz" ++ lit "|r" ++ spaces
         ++ lit "{spell:" ++ digits ++ lit "}" ++ [s1; s2]
    /\ m_groups runnz_token
       = [lit "Runnz"; spaces ++ lit "{spell:" ++ digits ++ lit "}" ++ [s1; s2]]
    /\ forallb is_hex colour = true /\ 6 <= length colour <= 8
    /\ (length colour < 8 ->
        match lit "Runnz" with c :: _ => is_hex c = false | [] => True end)
    /\ forallb (is_name latin1_isalnum) (lit "Runnz") = true
    /\ forallb is_space spaces = true /\ forallb is_digit digits = true
    /\ is_space s1 = true /\ is_space s2 = true.
Proof.
  apply (@healer_match_parts latin1_isalnum line_runnz_bob (lit "Runnz") runnz_token).
  vm_compute. left. reflexivity.
Defined.

(** The script in its own directory, old outputs in place: both shared
    outputs are made anew from the three lines of the source, and a second
    run that lists its sets the other way round writes the viewers of the
    headers the other way round. *)
Lemma main_rebuilds_shared_outputs_witness :
  let run1 := main latin1_isalnum (lit "/raid") (lit "/raid") forward_order raid_world in
  let run2 := main latin1_isalnum (lit "/raid") (lit "/raid") backward_order (snd run1) in
  fst run1 = Returned
  /\ fst run2 = Returned
  /\ files (snd run1) (lit "/raid/soulrender-cds.txt") = Some source_three_lines
  /\ files (snd run1) (lit "/raid/non-healer-cds.txt")
     = Some (lit "EventA - 00:30 - |c00ff0000Bob|r {spell:222}  " ++ [newline]
             ++ lit " |cfff38bb9Bob|r{spell:1}" ++ [newline]
             ++ lit " |cfff38bb9Runnz|r{spell:3}" ++ [newline])
  /\ files (snd run1) (lit "/raid/encapsulapted-cds.txt")
     = Some (lit "{p:Runnz,Bob,Slickduck}EventA - 00:30 - {/p}"
             ++ lit "{p:Runnz}|cfff38bb9Runnz|r  {spell:111}  {/p}"
             ++ lit "{p:Slickduck,Bob}|c00ff0000Bob|r {spell:222}  {/p}" ++ [newline]
             ++ lit "{p:Bob,Slickduck} {/p}"
             ++ lit "{p:Slickduck,Bob}|cfff38bb9Bob|r {spell:1}  {/p}" ++ [newline]
             ++ lit "{p:Runnz} {/p}"
             ++ lit "{p:Runnz}|cfff38bb9Runnz|r{spell:3}  {/p}" ++ [newline; newline])
  /\ files (snd run2) (lit "/raid/encapsulapted-cds.txt")
     = Some (lit "{p:Slickduck,Bob,Runnz}EventA - 00:30 - {/p}"
             ++ lit "{p:Runnz}|cfff38bb9Runnz|r  {spell:111}  {/p}"
             ++ lit "{p:Slickduck,Bob}|c00ff0000Bob|r {spell:222}  {/p}" ++ [newline]
             ++ lit "{p:Slickduck,Bob} {/p}"
             ++ lit "{p:Slickduck,Bob}|cfff38bb9Bob|r {spell:1}  {/p}" ++ [newline]
             ++ lit "{p:Runnz} {/p}"
             ++ lit "{p:Runnz}|cfff38bb9Runnz|r{spell:3}  {/p}" ++ [newline; newline])
  /\ files (snd run2) (lit "/raid/non-healer-cds.txt")
     = files (snd run1) (lit "/raid/non-healer-cds.txt").
Proof.
  cbv zeta.
  destruct (@main_rebuilds_shared_outputs latin1_isalnum (lit "/raid") (lit "/raid")
              forward_order backward_order raid_world source_three_lines)
    as (R1 & R2 & S & E1 & N1 & E2 & N2).
  - vm_compute. reflexivity.
  - split; [exact R1|]. split; [exact R2|]. split; [exact S|]. split; [|split; [|split]].
    + etransitivity; [exact N1|]. vm_compute. reflexivity.
    + etransitivity; [exact E1|]. vm_compute. reflexivity.
    + etransitivity; [exact E2|]. vm_compute. reflexivity.
    + exact N2.
Defined.

(** The script run from another directory: the old file of the healer is
    not emptied, and the new line comes after what it held. *)
Lemma main_healer_file_witness :
  files (snd (main latin1_isalnum (lit "/opt/ert") (lit "/home/raid") forward_order
                away_world))
    (lit "/opt/ert/Runnz-cds.txt")
  = Some (lit "old"
          ++ lit "EventA - 00:30 - |cfff38bb9Runnz|r  {spell:111}  " ++ [newline]
          ++ lit " |cfff38bb9Runnz|r {spell:3}  " ++ [newline]).
Proof.
  etransitivity.
  - apply (@main_healer_file latin1_isalnum (lit "/opt/ert") (lit "/home/raid")
             forward_order away_world source_three_lines (lit "Runnz")).
    + vm_compute. reflexivity.
    + vm_compute. tauto.
  - vm_compute. reflexivity.
Defined.

(** The line of Runnz without header is reported by the splitter and by
    the stripper as normalized, and by the encapsulator as it is in the
    source; the line of Bob without header by the last two only. *)
Lemma main_logs_missing_headers_witness :
  log (snd (main latin1_isalnum (lit "/raid") (lit "/raid") forward_order raid_world))
  = [header_error (lit "|cfff38bb9Runnz|r {spell:3}  " ++ [newline]);
     header_error (line_no_header ++ [newline]);
     header_error (lit "|cfff38bb9Runnz|r {spell:3}  " ++ [newline]);
     header_error (line_no_header ++ [newline]);
     header_error (line_runnz_no_header ++ [newline])].
Proof.
  etransitivity.
  - apply (@main_logs_missing_headers latin1_isalnum (lit "/raid") (lit "/raid")
             forward_order raid_world source_three_lines).
    vm_compute. reflexivity.
  - vm_compute. reflexivity.
Defined.

Lemma main_on_empty_source_witness :
  let run := main latin1_isalnum (lit "/raid") (lit "/raid") forward_order
               (world_with (lit "/raid/soulrender-cds.txt") []) in
  fst run = Returned
  /\ files (snd run) (lit "/raid/encapsulapted-cds.txt") = Some [newline]
  /\ files (snd run) (lit "/raid/non-healer-cds.txt") = Some []
  /\ log (snd run) = [].
Proof.
  cbv zeta.
  destruct (@main_on_empty_source latin1_isalnum (lit "/raid") (lit "/raid")
              forward_order (world_with (lit "/raid/soulrender-cds.txt") []))
    as (R & E & N & _ & L).
  - vm_compute. reflexivity.
  - repeat split; assumption.
Defined.
